(** * BPNN: a back-propagation neural network over binary32 vectors

  Shallow embedding of [build/BPNN/BPNN.h].

  - [F32]   : the C++ [float] type as IEEE-754 binary32, every operation
              rounded to nearest-even (the executable specification of
              the Standard Library, precision 24, exponent bound 128).
  - [Cpp]   : the fragment of C++ the header uses: [std::vector] with
              unchecked [operator[]], [resize], the integer remainder and
              the process-wide [rand()] sequence, as a state monad whose
              outcomes are normal return, a thrown exception, or undefined
              behaviour.
  - [Init]  : the function [init], statement by statement, with the
              pseudo-random sequence as a function of the draw index.
  - [Propagation] : [forwardPropagation] and [backPropagation], which
              the header declares without a body, after the
              specification.

  Assumptions. Every [float] operation is rounded to binary32
  ([FLT_EVAL_METHOD] 0). An [int] is an integer of [Z]: the code only
  steps counters up to a container size and takes a remainder by
  [finesse], and neither leaves the range of [int]. The six containers
  handed to [init] are distinct objects, and allocation succeeds. *)

From Stdlib Require Import ZArith Lia.
From Stdlib Require Import Floats.SpecFloat.
From stdpp Require Import base list strings.

Local Open Scope Z_scope.

(** ** binary32 *)
Module F32.

Definition prec : Z := 24.
Definition emax : Z := 128.

Definition float32 : Type := spec_float.

Definition mul : float32 -> float32 -> float32 := SFmul prec emax.
Definition div : float32 -> float32 -> float32 := SFdiv prec emax.
Definition add : float32 -> float32 -> float32 := SFadd prec emax.
Definition sub : float32 -> float32 -> float32 := SFsub prec emax.

(** [(float) n] for an [int] n: the nearest binary32, ties to even. *)
Definition of_int (n : Z) : float32 := binary_normalize prec emax n 0 false.

(** A value-initialised [float] is [+0.0f]. *)
Definition zero : float32 := S754_zero false.
Definition one : float32 := S754_finite false 8388608 (-23).

Definition ltb : float32 -> float32 -> bool := SFltb.
Definition leb : float32 -> float32 -> bool := SFleb.
Definition eqb : float32 -> float32 -> bool := SFeqb.


(** Neither negative nor NaN: [+0], [-0], a positive finite number or
    [+infinity]. *)
Definition nonneg (x : float32) : bool := leb zero x.

Definition is_finite (x : float32) : bool :=
  match x with
  | S754_zero _ | S754_finite _ _ _ => true
  | _ => false
  end.

(** Strictly positive and finite. *)
Definition pos_finite (x : float32) : bool :=
  match x with
  | S754_finite false _ _ => true
  | _ => false
  end.

Definition valid (x : float32) : bool := valid_binary prec emax x.

(** The sign bit is clear and the value is a number: [+0], a positive
    finite number or [+infinity]. *)
Definition sign_clear (x : float32) : bool :=
  match x with
  | S754_zero false | S754_finite false _ _ | S754_infinity false => true
  | _ => false
  end.

(** The [float] 5.0f. *)
Definition five : float32 := S754_finite false 10485760 (-21).


End F32.

Abbreviation float32 := F32.float32.

(** ** The C++ fragment *)
Module Cpp.

(** Undefined behaviour the header can reach. *)
Inductive fault : Type :=
| OutOfBounds      (* operator[] or iterator past the container *)
| DivisionByZero.  (* integer % 0 *)

(** Exceptions the header can raise. *)
Inductive exn : Type :=
| LengthError.     (* std::length_error: a size above max_size() *)

Inductive outcome (S A : Type) : Type :=
| Ret (x : A) (s : S)
| Throw (e : exn) (s : S)
| Undef (u : fault).
Arguments Ret {S A} x s.
Arguments Throw {S A} e s.
Arguments Undef {S A} u.

Definition M (S A : Type) : Type := S -> outcome S A.

Definition ret {S A} (x : A) : M S A := fun s => Ret x s.

Definition bind {S A B} (m : M S A) (k : A -> M S B) : M S B :=
  fun s =>
    match m s with
    | Ret x s' => k x s'
    | Throw e s' => Throw e s'
    | Undef u => Undef u
    end.

Definition throw {S A} (e : exn) : M S A := fun s => Throw e s.
Definition undefined {S A} (u : fault) : M S A := fun _ => Undef u.

Declare Scope cpp_scope.
Delimit Scope cpp_scope with cpp.
Notation "x <- m ;; k" := (bind m (fun x => k))
  (at level 100, m at next level, right associativity) : cpp_scope.
Notation "m ;; k" := (bind m (fun _ => k))
  (at level 100, right associativity) : cpp_scope.

Local Open Scope cpp_scope.

(** [for (x : l) acc = body x acc]. *)
Fixpoint foldM {S I X} (body : I -> X -> M S X) (l : list I) (x : X) : M S X :=
  match l with
  | [] => ret x
  | i :: l' => x' <- body i x ;; foldM body l' x'
  end.

(** An [int] used as a container size is converted to [size_t]; a
    negative one becomes a value above [max_size()], and [resize] and
    the sized constructor throw. Allocation itself is assumed to
    succeed. *)
Definition to_size {S} (n : Z) : M S nat :=
  if n <? 0 then throw LengthError else ret (Z.to_nat n).

(** [v[i]] with an [int] index: no bounds check. *)
Definition index {A} (v : list A) (i : Z) : option A :=
  if i <? 0 then None else v !! Z.to_nat i.

Definition at_ {S A} (v : list A) (i : Z) : M S A :=
  match index v i with
  | Some x => ret x
  | None => undefined OutOfBounds
  end.

(** [v[i] = x] on a local vector. *)
Definition store {S A} (v : list A) (i : Z) (x : A) : M S (list A) :=
  match index v i with
  | Some _ => ret (<[Z.to_nat i := x]> v)
  | None => undefined OutOfBounds
  end.

(** [a % b] on [int]: truncated remainder, undefined for [b = 0]. *)
Definition int_rem {S} (a b : Z) : M S Z :=
  if b =? 0 then undefined DivisionByZero else ret (Z.rem a b).

End Cpp.

(** ** The network state and [init] *)
Module Init.
Import Cpp.
Local Open Scope cpp_scope.

Abbreviation vec := (list float32).
Abbreviation mat := (list (list float32)).

(** The six caller-owned containers that [init] receives by reference. *)
Record net : Type := mkNet {
  z : list vec;
  a : list vec;
  bias : list vec;
  deltaBias : list vec;
  weights : list mat;
  deltaWeights : list mat
}.

(** What a call can change: the containers and the position reached in
    the process-wide [rand()] sequence. *)
Record world : Type := mkWorld {
  w_net : net;
  w_rand : nat
}.

(** The containers of rows ([vector<vector<float>>]) and of matrices
    ([vector<vector<vector<float>>>]) by name. *)
Inductive rows_of : Type := Fz | Fa | Fbias | FdeltaBias.
Inductive mats_of : Type := Fweights | FdeltaWeights.

Definition get_rows (f : rows_of) (n : net) : list vec :=
  match f with
  | Fz => z n | Fa => a n | Fbias => bias n | FdeltaBias => deltaBias n
  end.

Definition set_rows (f : rows_of) (v : list vec) (n : net) : net :=
  match f with
  | Fz => mkNet v (a n) (bias n) (deltaBias n) (weights n) (deltaWeights n)
  | Fa => mkNet (z n) v (bias n) (deltaBias n) (weights n) (deltaWeights n)
  | Fbias => mkNet (z n) (a n) v (deltaBias n) (weights n) (deltaWeights n)
  | FdeltaBias => mkNet (z n) (a n) (bias n) v (weights n) (deltaWeights n)
  end.

Definition get_mats (f : mats_of) (n : net) : list mat :=
  match f with
  | Fweights => weights n | FdeltaWeights => deltaWeights n
  end.

Definition set_mats (f : mats_of) (v : list mat) (n : net) : net :=
  match f with
  | Fweights => mkNet (z n) (a n) (bias n) (deltaBias n) v (deltaWeights n)
  | FdeltaWeights => mkNet (z n) (a n) (bias n) (deltaBias n) (weights n) v
  end.

Definition with_net (n : net) (w : world) : world := mkWorld n (w_rand w).

(** [c[i]] read: undefined behaviour past the end. *)
Definition row_at (c : rows_of) (i : Z) : M world vec :=
  fun w => at_ (get_rows c (w_net w)) i w.

Definition mat_at (c : mats_of) (i : Z) : M world mat :=
  fun w => at_ (get_mats c (w_net w)) i w.

(** [c[i]] as an lvalue: the element is replaced by [f] of its old
    value. *)
Definition update_row (c : rows_of) (i : Z) (f : vec -> vec) : M world unit :=
  fun w =>
    match index (get_rows c (w_net w)) i with
    | Some _ =>
        Ret tt (with_net (set_rows c (alter f (Z.to_nat i) (get_rows c (w_net w))) (w_net w)) w)
    | None => Undef OutOfBounds
    end.

Definition update_mat (c : mats_of) (i : Z) (f : mat -> mat) : M world unit :=
  fun w =>
    match index (get_mats c (w_net w)) i with
    | Some _ =>
        Ret tt (with_net (set_mats c (alter f (Z.to_nat i) (get_mats c (w_net w))) (w_net w)) w)
    | None => Undef OutOfBounds
    end.

(** [c[i].resize(n)]: the element is designated first, then the size is
    converted. Existing elements are kept, new ones are [+0.0f]. *)
Definition resize_row (c : rows_of) (i : Z) (n : Z) : M world unit :=
  row_at c i ;;
  k <- to_size n ;;
  update_row c i (resize k F32.zero).

(** [c[i].resize(n, std::vector<float>(m))]: existing rows are kept as
    they are, new rows are [m] zeros. *)
Definition resize_mat (c : mats_of) (i : Z) (n m : Z) : M world unit :=
  mat_at c i ;;
  km <- to_size m ;;
  kn <- to_size n ;;
  update_mat c i (resize kn (replicate km F32.zero)).

(** [std::vector<float> v(n)] and
    [std::vector<std::vector<float>> v(n, std::vector<float>(m))]. *)
Definition new_vec (n : Z) : M world vec :=
  k <- to_size n ;; ret (replicate k F32.zero).

Definition new_mat (n m : Z) : M world mat :=
  km <- to_size m ;; kn <- to_size n ;; ret (replicate kn (replicate km F32.zero)).

Section WithRandom.

(** The process-wide pseudo-random sequence: [rand_seq k] is what the
    [k]-th call of [rand()] since program start returns. *)
Variable rand_seq : nat -> Z.

Definition rand : M world Z :=
  fun w => Ret (rand_seq (w_rand w)) (mkWorld (w_net w) (S (w_rand w))).

(** The value of [randomAmplitude * (float)(r % finesse) / (float)finesse]
    once [r % finesse] is known. *)
Definition scaled (randomAmplitude : float32) (finesse k : Z) : float32 :=
  F32.div (F32.mul randomAmplitude (F32.of_int k)) (F32.of_int finesse).

(** [randomAmplitude * (float)(rand() % finesse) / (float)finesse]. *)
Definition draw (randomAmplitude : float32) (finesse : Z) : M world float32 :=
  r <- rand ;;
  k <- int_rem r finesse ;;
  ret (scaled randomAmplitude finesse k).

(** [0, 1, ..., n-1] as [int] values: the values a counter takes in
    [for (ii = 0; ii < n; ii++)]. *)
Definition upto (n : Z) : list Z := Z.of_nat <$> seq 0 (Z.to_nat n).

(** Lines 82-84. *)
Definition fill_vec (randomAmplitude : float32) (finesse : Z) (n : Z)
    (tempArr : vec) : M world vec :=
  foldM (fun ii tempArr =>
           x <- draw randomAmplitude finesse ;;
           store tempArr ii x)
        (upto n) tempArr.

(** Lines 97-102. *)
Definition fill_mat (randomAmplitude : float32) (finesse : Z) (n m : Z)
    (tempMat : mat) : M world mat :=
  foldM (fun kk tempMat =>
           foldM (fun ii tempMat =>
                    x <- draw randomAmplitude finesse ;;
                    row <- at_ tempMat kk ;;
                    row' <- store row ii x ;;
                    store tempMat kk row')
                 (upto m) tempMat)
        (upto n) tempMat.

(** The body of the loop over [structure] (lines 70-105): [itInt] is the
    position of the iterator, [cur] is [*itInt]. *)
Definition init_body (structure : list Z) (itInt : nat) (jj : Z) (cur : Z)
    (randomAmplitude : float32) (finesse : Z) : M world unit :=
  resize_row Fa (jj + 1) cur ;;
  if jj >? -1 then
    resize_row Fz jj cur ;;
    tempArr <- new_vec cur ;;
    resize_row Fbias jj cur ;;
    resize_row FdeltaBias jj cur ;;
    tempArr <- fill_vec randomAmplitude finesse cur tempArr ;;
    update_row Fbias jj (fun _ => tempArr) ;;
    prev <- at_ structure (Z.of_nat itInt - 1) ;;
    tempMat <- new_mat prev cur ;;
    resize_mat Fweights jj prev cur ;;
    resize_mat FdeltaWeights jj prev cur ;;
    tempMat <- fill_mat randomAmplitude finesse prev cur tempMat ;;
    update_mat Fweights jj (fun _ => tempMat)
  else ret tt.

(** The loop of lines 67-106, from iterator position [itInt] with the
    elements [todo] still ahead. *)
Fixpoint init_loop (structure : list Z) (itInt : nat) (jj : Z) (todo : list Z)
    (randomAmplitude : float32) (finesse : Z) : M world unit :=
  match todo with
  | [] => ret tt
  | cur :: todo' =>
      init_body structure itInt jj cur randomAmplitude finesse ;;
      init_loop structure (S itInt) (jj + 1) todo' randomAmplitude finesse
  end.

Definition init (structure : list Z) (randomAmplitude : float32) (finesse : Z)
    : M world unit :=
  init_loop structure 0 (-1) structure randomAmplitude finesse.

End WithRandom.


(** *** The state [init] leaves behind, as a function

    [draws p k] are the values of the [k] calls of [rand()] from position
    [p] on, scaled; [draws_mat p r c] is an [r] x [c] matrix drawn row by
    row. *)
Section Pure.
Variable rand_seq : nat -> Z.
Variable randomAmplitude : float32.
Variable finesse : Z.

Definition draws (p k : nat) : vec :=
  (fun i => scaled randomAmplitude finesse (Z.rem (rand_seq i) finesse)) <$> seq p k.

Fixpoint draws_mat (p rows cols : nat) : mat :=
  match rows with
  | O => []
  | S rows' => draws p cols :: draws_mat (p + cols) rows' cols
  end.

(** The first iteration ([jj = -1]): only [a[0]] is resized. *)
Definition input_step (cur : nat) (w : world) : world :=
  with_net (set_rows Fa (alter (resize cur F32.zero) O (a (w_net w))) (w_net w)) w.

(** A later iteration, for the layer stored at row [jj] of [z], [bias],
    ... and row [jj + 1] of [a], between widths [prev] and [cur]. *)
Definition layer_step (jj prev cur : nat) (w : world) : world :=
  let n := w_net w in
  let p := w_rand w in
  mkWorld
    (mkNet (alter (resize cur F32.zero) jj (z n))
           (alter (resize cur F32.zero) (S jj) (a n))
           (alter (fun _ => draws p cur) jj (bias n))
           (alter (resize cur F32.zero) jj (deltaBias n))
           (alter (fun _ => draws_mat (p + cur) prev cur) jj (weights n))
           (alter (resize prev (replicate cur F32.zero)) jj (deltaWeights n)))
    (p + cur + prev * cur).

Fixpoint layers_pure (jj prev : nat) (todo : list Z) (w : world) : world :=
  match todo with
  | [] => w
  | cur :: todo' =>
      layers_pure (S jj) (Z.to_nat cur) todo' (layer_step jj prev (Z.to_nat cur) w)
  end.

Definition init_pure (structure : list Z) (w : world) : world :=
  match structure with
  | [] => w
  | w0 :: rest => layers_pure O (Z.to_nat w0) rest (input_step (Z.to_nat w0) w)
  end.

End Pure.

(** Number of [rand()] calls made for the layers [todo] that follow a
    layer of width [prev]. *)
Fixpoint consumed (prev : nat) (todo : list Z) : nat :=
  match todo with
  | [] => O
  | cur :: todo' => (Z.to_nat cur + prev * Z.to_nat cur + consumed (Z.to_nat cur) todo')%nat
  end.

(** Position in the random sequence, relative to the call of [init], of
    the first draw for the layer stored at row [jj]. *)
Definition base (structure : list Z) (jj : nat) : nat :=
  match structure with
  | [] => O
  | w0 :: rest => consumed (Z.to_nat w0) (take jj rest)
  end.

(** *** Conditions on the arguments *)

(** [init] indexes the outer containers but never resizes them. *)
Definition outer_ok (structure : list Z) (n : net) : Prop :=
  (length structure <= length (a n))%nat /\
  (length structure - 1 <= length (z n))%nat /\
  (length structure - 1 <= length (bias n))%nat /\
  (length structure - 1 <= length (deltaBias n))%nat /\
  (length structure - 1 <= length (weights n))%nat /\
  (length structure - 1 <= length (deltaWeights n))%nat.

Definition same_outer (n n' : net) : Prop :=
  length (a n') = length (a n) /\
  length (z n') = length (z n) /\
  length (bias n') = length (bias n) /\
  length (deltaBias n') = length (deltaBias n) /\
  length (weights n') = length (weights n) /\
  length (deltaWeights n') = length (deltaWeights n).

(** A topology as section 3 of the specification wants it. *)
Definition valid_topology (structure : list Z) : Prop :=
  (2 <= length structure)%nat /\ Forall (fun w => 0 < w) structure.

Definition is_matrix (rows cols : nat) (m : mat) : Prop :=
  length m = rows /\ Forall (fun r => length r = cols) m.

(** The shape invariants of the data model for the layers of
    [structure]: row [L] of [a] has the width of layer [L]; row [L - 1] of
    [z], [bias], [deltaBias] has the width of layer [L]; matrix [L - 1]
    of [weights], [deltaWeights] is width [L - 1] by width [L]. *)
Definition row_shapes (structure : list Z) (n : net) : Prop :=
  (forall L wd, structure !! L = Some wd ->
     exists r, a n !! L = Some r /\ length r = Z.to_nat wd) /\
  (forall jj prev cur, structure !! jj = Some prev -> structure !! S jj = Some cur ->
     (exists r, z n !! jj = Some r /\ length r = Z.to_nat cur) /\
     (exists r, bias n !! jj = Some r /\ length r = Z.to_nat cur) /\
     (exists r, deltaBias n !! jj = Some r /\ length r = Z.to_nat cur) /\
     (exists m, weights n !! jj = Some m /\ is_matrix (Z.to_nat prev) (Z.to_nat cur) m) /\
     (exists m, deltaWeights n !! jj = Some m /\ is_matrix (Z.to_nat prev) (Z.to_nat cur) m)).

(** ... together with the container counts: one row of [a] per layer,
    one row or matrix of the others per non-input layer. *)
Definition shapes_ok (structure : list Z) (n : net) : Prop :=
  length (a n) = length structure /\
  length (z n) = (length structure - 1)%nat /\
  length (bias n) = (length structure - 1)%nat /\
  length (deltaBias n) = (length structure - 1)%nat /\
  length (weights n) = (length structure - 1)%nat /\
  length (deltaWeights n) = (length structure - 1)%nat /\
  row_shapes structure n.

(** *** Relations that every statement of [init] keeps

    [keeps R m]: whenever [m] yields a state, by returning or by
    throwing, the containers before and after are related by [R]. *)
Definition keeps (R : net -> net -> Prop) {A} (m : M world A) : Prop :=
  forall w,
    match m w with
    | Ret _ w' => R (w_net w) (w_net w')
    | Throw _ w' => R (w_net w) (w_net w')
    | Undef _ => True
    end.

(** [benign Q m]: [m] neither throws nor divides by zero; it returns a
    value that satisfies [Q], or it indexes a container out of bounds. *)
Definition benign {A} (Q : A -> Prop) (m : M world A) : Prop :=
  forall w,
    match m w with
    | Ret x _ => Q x
    | Throw _ _ => False
    | Undef u => u = OutOfBounds
    end.

(** Every entry of [deltaBias] and of [deltaWeights] is [+0.0f]. *)
Definition zero_deltas (n : net) : Prop :=
  Forall (Forall (fun x => x = F32.zero)) (deltaBias n) /\
  Forall (Forall (Forall (fun x => x = F32.zero))) (deltaWeights n).

(** ** Example inputs *)

(** Outer containers as a caller declares them for [layers] layers, every
    row still empty. *)
Definition fresh_net (layers : nat) : net :=
  mkNet (replicate (layers - 1) []) (replicate layers [])
        (replicate (layers - 1) []) (replicate (layers - 1) [])
        (replicate (layers - 1) []) (replicate (layers - 1) []).

Definition fresh_world (layers : nat) : world := mkWorld (fresh_net layers) 0.

(** A pseudo-random sequence with values in [0, 32767]. *)
Definition example_rand (k : nat) : Z := (Z.of_nat k * 7919 + 13) mod 32768.

End Init.

(** ** Forward and backward propagation

    The header declares [forwardPropagation] (lines 124-130) and
    [backPropagation] (lines 162-171) and documents their parameters; the
    bodies are in a file that is not part of the sources, and so are the
    activation functions. The definitions of this module follow sections
    4.2, 4.3 and 7 of the specification, over the containers and the
    binary32 arithmetic of [Init]: every sum and product is rounded to
    binary32, and sums run in increasing index order. *)
Module Propagation.
Import Init.

#[global] Instance float32_inhabited : Inhabited float32 := populate F32.zero.

(** Modelled from the spec: the bodies of [forwardPropagation] and
    [backPropagation] are missing, and with them the way they fail; these
    are the error kinds of section 7. *)
Inductive error : Type := InvalidTopology | ShapeMismatch | UnknownActivation.

Inductive result (A : Type) : Type :=
| Ok (x : A)
| Err (e : error).
Arguments Ok {A} x.
Arguments Err {A} e.

(** Failing fast: the first error ends the computation. *)
Definition rbind {A B} (r : result A) (k : A -> result B) : result B :=
  match r with
  | Ok x => k x
  | Err e => Err e
  end.

(** Modelled from the spec: the activation functions are missing; an
    activation function comes paired with its derivative (section 4.2). *)
Record activation : Type := mkActivation {
  fn : float32 -> float32;
  derivative : float32 -> float32
}.

(** Line 29 of the header. *)
Definition DEFAULT_ACTIVATION_FUNCTION : string := "sigmoid".

(** *** Shapes *)

Definition widths (structure : list Z) : list nat := Z.to_nat <$> structure.

(** Modelled from the spec: the check of the topology in the missing
    bodies of [forwardPropagation] and [backPropagation]; a topology has
    at least two entries, all positive (sections 4.1 and 7). *)
Definition valid_topologyb (structure : list Z) : bool :=
  (2 <=? length structure)%nat && forallb (fun wd => 0 <? wd) structure.

(** The rows have the lengths [ws], one row per entry. *)
Definition rows_shaped (ws : list nat) (rows : list vec) : bool :=
  bool_decide (length <$> rows = ws).

(** One matrix per adjacent pair of [ws]; the matrix of the pair
    [(p, c)] has [p] rows of length [c]. *)
Definition mats_shaped (ws : list nat) (ms : list mat) : bool :=
  bool_decide ((fun m => length <$> m) <$> ms
               = zip_with (fun p c => replicate p c) ws (drop 1 ws)).

(** Modelled from the spec: the check of the shapes in the missing body
    of [forwardPropagation]; the invariants of section 3 for the
    containers the forward pass receives. *)
Definition forward_shaped (structure : list Z) (st : net) : bool :=
  rows_shaped (widths structure) (a st) &&
  rows_shaped (drop 1 (widths structure)) (z st) &&
  rows_shaped (drop 1 (widths structure)) (bias st) &&
  mats_shaped (widths structure) (weights st).

(** Modelled from the spec: the check of the shapes in the missing body
    of [backPropagation]; the invariants of section 3 for all six
    containers. *)
Definition backward_shaped (structure : list Z) (st : net) : bool :=
  forward_shaped structure st &&
  rows_shaped (drop 1 (widths structure)) (deltaBias st) &&
  mats_shaped (widths structure) (deltaWeights st).

Section WithActivations.

(** Modelled from the spec: the table of the supported activation
    functions is missing; they are selected by name (section 4.2), and a
    name outside the supported set has no entry. Which functions the
    binary32 code computes for a name is not fixed here. *)
Variable activationFunction : string -> option activation.

(** Modelled from the spec: the selection of the activation functions
    in the missing bodies of [forwardPropagation] and [backPropagation].
    The names select one function per non-input layer; without names
    every layer uses the default; a name outside the supported set is an
    [UnknownActivation] (section 4.2). *)
Definition resolve (layers : nat) (activationFunctionName : option (list string))
    : result (list activation) :=
  match mapM activationFunction
             (default (replicate (layers - 1) DEFAULT_ACTIVATION_FUNCTION)
                      activationFunctionName) with
  | Some acts => Ok acts
  | None => Err UnknownActivation
  end.

(** *** The forward pass (section 4.2) *)

(** Modelled from the spec: the inner loop of the missing body of
    [forwardPropagation]; the sum over the source neurons [i] of
    [a[L-1][i] * weights[L-1][i][j]], the products added in increasing
    [i] from [+0.0f]. *)
Definition weighted_sum (prev : vec) (W : mat) (j : nat) : float32 :=
  foldl (fun acc i => F32.add acc (F32.mul (prev !!! i) ((W !!! i) !!! j)))
        F32.zero (seq 0 (length prev)).

(** Modelled from the spec: step 1 of the missing body of
    [forwardPropagation], [z[L][j] = bias[L][j] + sum]. *)
Definition pre_activation (b prev : vec) (W : mat) (j : nat) : float32 :=
  F32.add (b !!! j) (weighted_sum prev W j).

(** Modelled from the spec: one layer of the missing body of
    [forwardPropagation]; steps 1 and 2 for the layer stored at row [l]
    of [z], [bias], [weights] and at row [l + 1] of [a]. *)
Definition forward_layer (f : activation) (l : nat) (st : net) : net :=
  let zl := (fun j => pre_activation (bias st !!! l) (a st !!! l) (weights st !!! l) j)
              <$> seq 0 (length (bias st !!! l)) in
  mkNet (<[l := zl]> (z st)) (<[S l := fn f <$> zl]> (a st))
        (bias st) (deltaBias st) (weights st) (deltaWeights st).

(** Modelled from the spec: the loop of the missing body of
    [forwardPropagation], over the non-input layers in increasing order. *)
Fixpoint forward_from (l : nat) (acts : list activation) (st : net) : net :=
  match acts with
  | [] => st
  | f :: acts' => forward_from (S l) acts' (forward_layer f l st)
  end.

(** Modelled from the spec: the first step of the missing body of
    [forwardPropagation]; the input layer stores the raw input. *)
Definition store_input (inputState : vec) (st : net) : net :=
  mkNet (z st) (<[O := inputState]> (a st))
        (bias st) (deltaBias st) (weights st) (deltaWeights st).

(** Modelled from the spec: the body of [forwardPropagation], which the
    header only declares. The preconditions are checked first (section
    7); the containers are only overwritten when all hold. *)
Definition forwardPropagation (structure : list Z) (inputState : vec) (st : net)
    (activationFunctionName : option (list string)) : result net :=
  rbind (resolve (length structure) activationFunctionName) (fun acts =>
  if negb (valid_topologyb structure) then Err InvalidTopology
  else if negb (forward_shaped structure st
                && bool_decide (length inputState = widths structure !!! O)
                && bool_decide (length acts = (length structure - 1)%nat))
  then Err ShapeMismatch
  else Ok (forward_from O acts (store_input inputState st))).

(** *** The backward pass (section 4.3) *)

(** Modelled from the spec: step 1 of the missing body of
    [backPropagation],
    [delta[out][j] = (a[out][j] - y[j]) * derivative(z[out][j])]. *)
Definition output_delta (f : activation) (out zl y : vec) : vec :=
  (fun j => F32.mul (F32.sub (out !!! j) (y !!! j)) (derivative f (zl !!! j)))
    <$> seq 0 (length zl).

(** Modelled from the spec: the inner loop of step 2 of the missing
    body of [backPropagation]; the sum over [k] of
    [delta[L+1][k] * weights[L][j][k]], added in increasing [k]. *)
Definition back_sum (next : vec) (W : mat) (j : nat) : float32 :=
  foldl (fun acc k => F32.add acc (F32.mul (next !!! k) ((W !!! j) !!! k)))
        F32.zero (seq 0 (length next)).

(** Modelled from the spec: step 2 of the missing body of
    [backPropagation], the error signal of a hidden layer. *)
Definition hidden_delta (f : activation) (next : vec) (W : mat) (zl : vec) : vec :=
  (fun j => F32.mul (back_sum next W j) (derivative f (zl !!! j)))
    <$> seq 0 (length zl).

(** Modelled from the spec: steps 1 and 2 of the missing body of
    [backPropagation]; the error signals of the layers stored from row
    [l] on, out of the rows [zs] of [z], [acs] of [a] and the matrices
    [ws]: the output layer is computed first, then the hidden layers
    back to row [l]. *)
Fixpoint deltas_from (l : nat) (acts : list activation) (y : vec)
    (zs acs : list vec) (ws : list mat) : list vec :=
  match acts with
  | [] => []
  | f :: acts' =>
      match acts' with
      | [] => [output_delta f (acs !!! S l) (zs !!! l) y]
      | _ :: _ =>
          let rest := deltas_from (S l) acts' y zs acs ws in
          hidden_delta f (rest !!! O) (ws !!! S l) (zs !!! l) :: rest
      end
  end.

(** Modelled from the spec: step 3 of the missing body of
    [backPropagation],
    [new_delta = momentumFactor * old_delta + learningRate * gradient]. *)
Definition blend (momentumFactor learningRate old gradient : float32) : float32 :=
  F32.add (F32.mul momentumFactor old) (F32.mul learningRate gradient).

(** Modelled from the spec: step 3 of the missing body of
    [backPropagation] for the biases of a layer,
    [gradient_b = delta[L][j]]. *)
Definition pending_bias (momentumFactor learningRate : float32)
    (old delta : vec) : vec :=
  zip_with (blend momentumFactor learningRate) old delta.

(** Modelled from the spec: step 3 of the missing body of
    [backPropagation] for the weights of a layer,
    [gradient_w = delta[L][j] * a[L-1][i]] at row [i], column [j]. *)
Definition pending_weights (momentumFactor learningRate : float32)
    (old : mat) (delta prev : vec) : mat :=
  zip_with (fun row ai =>
              zip_with (fun o dj => blend momentumFactor learningRate o (F32.mul dj ai))
                       row delta)
           old prev.

(** Entry by entry, [x += y]. *)
Definition add_vec (x y : vec) : vec := zip_with F32.add x y.
Definition add_mat (x y : mat) : mat := zip_with add_vec x y.

(** Modelled from the spec: step 4 of the missing body of
    [backPropagation]; the learning-mode policy for the layer stored at
    row [l]. The comparison of the mode is that of strings,
    case-sensitive. *)
Definition update_layer (momentumFactor learningRate : float32)
    (learningType : string) (deltas : list vec) (st : net) (l : nat) : net :=
  let pb := pending_bias momentumFactor learningRate
              (deltaBias st !!! l) (deltas !!! l) in
  let pw := pending_weights momentumFactor learningRate
              (deltaWeights st !!! l) (deltas !!! l) (a st !!! l) in
  if String.eqb learningType "online" then
    mkNet (z st) (a st)
          (<[l := add_vec (bias st !!! l) pb]> (bias st))
          (<[l := pb]> (deltaBias st))
          (<[l := add_mat (weights st !!! l) pw]> (weights st))
          (<[l := pw]> (deltaWeights st))
  else if String.eqb learningType "batch" then
    mkNet (z st) (a st)
          (<[l := add_vec (bias st !!! l) (deltaBias st !!! l)]> (bias st))
          (deltaBias st)
          (<[l := add_mat (weights st !!! l) (deltaWeights st !!! l)]> (weights st))
          (deltaWeights st)
  else
    mkNet (z st) (a st) (bias st) (<[l := pb]> (deltaBias st))
          (weights st) (<[l := pw]> (deltaWeights st)).

(** Modelled from the spec: the body of [backPropagation], which the
    header only declares. The preconditions are checked first (section
    7); the error signals are computed from the state of the last
    forward pass, then every layer is updated. *)
Definition backPropagation (structure : list Z) (y : vec) (st : net)
    (learningRate momentumFactor : float32) (learningType : string)
    (activationFunctionName : option (list string)) : result net :=
  rbind (resolve (length structure) activationFunctionName) (fun acts =>
  if negb (valid_topologyb structure) then Err InvalidTopology
  else if negb (backward_shaped structure st
                && bool_decide (length y = widths structure !!! (length structure - 1)%nat)
                && bool_decide (length acts = (length structure - 1)%nat))
  then Err ShapeMismatch
  else Ok (foldl (update_layer momentumFactor learningRate learningType
                               (deltas_from O acts y (z st) (a st) (weights st)))
                 st (seq 0 (length acts)))).

(** *** Training runs *)

(** An example fits the topology: one input per input neuron, one target
    per output neuron. *)
Definition fits (structure : list Z) (example : vec * vec) : Prop :=
  length example.1 = widths structure !!! O /\
  length example.2 = widths structure !!! (length structure - 1)%nat.

(** Modelled from the spec: the training loop is an external
    collaborator (section 6). One example in accumulation is a forward
    pass, then a backward pass with the empty learning mode. *)
Definition accumulate_example (structure : list Z)
    (learningRate momentumFactor : float32)
    (activationFunctionName : option (list string))
    (st : net) (example : vec * vec) : result net :=
  rbind (forwardPropagation structure example.1 st activationFunctionName) (fun st1 =>
  backPropagation structure example.2 st1 learningRate momentumFactor EmptyString
                  activationFunctionName).

Fixpoint accumulate (structure : list Z) (learningRate momentumFactor : float32)
    (activationFunctionName : option (list string))
    (examples : list (vec * vec)) (st : net) : result net :=
  match examples with
  | [] => Ok st
  | example :: examples' =>
      rbind (accumulate_example structure learningRate momentumFactor
                                activationFunctionName st example)
            (accumulate structure learningRate momentumFactor
                        activationFunctionName examples')
  end.

(** Modelled from the spec: the run of section 8; the examples in
    accumulation, then one flush with ["batch"]. *)
Definition accumulate_then_flush (structure : list Z)
    (learningRate momentumFactor : float32)
    (activationFunctionName : option (list string))
    (examples : list (vec * vec)) (y : vec) (st : net) : result net :=
  rbind (accumulate structure learningRate momentumFactor activationFunctionName
                    examples st) (fun st' =>
  backPropagation structure y st' learningRate momentumFactor "batch"
                  activationFunctionName).

(** Modelled from the spec: the online update of one example alone; a
    forward pass, then a backward pass with the learning mode
    ["online"]. *)
Definition online_example (structure : list Z)
    (learningRate momentumFactor : float32)
    (activationFunctionName : option (list string))
    (st : net) (example : vec * vec) : result net :=
  rbind (forwardPropagation structure example.1 st activationFunctionName) (fun st1 =>
  backPropagation structure example.2 st1 learningRate momentumFactor "online"
                  activationFunctionName).

(** *** The passes as functions of the parameters

    [feed l acts bs ws prev]: the rows of [z] and of [a] that the
    forward pass computes for the layers stored from row [l] on, from
    the activations [prev] of the layer before. *)
Fixpoint feed (l : nat) (acts : list activation) (bs : list vec) (ws : list mat)
    (prev : vec) : list (vec * vec) :=
  match acts with
  | [] => []
  | f :: acts' =>
      let zl := (fun j => pre_activation (bs !!! l) prev (ws !!! l) j)
                  <$> seq 0 (length (bs !!! l)) in
      (zl, fn f <$> zl) :: feed (S l) acts' bs ws (fn f <$> zl)
  end.

(** What a forward pass on the input [inputState] leaves in [z] and in
    [a], and the error signals a backward pass for the target [y] then
    computes: all three depend on the weights and biases alone. *)
Definition forward_z (acts : list activation) (bs : list vec) (ws : list mat)
    (inputState : vec) : list vec :=
  fst <$> feed O acts bs ws inputState.

Definition forward_a (acts : list activation) (bs : list vec) (ws : list mat)
    (inputState : vec) : list vec :=
  inputState :: (snd <$> feed O acts bs ws inputState).

Definition example_deltas (acts : list activation) (bs : list vec) (ws : list mat)
    (example : vec * vec) : list vec :=
  deltas_from O acts example.2 (forward_z acts bs ws example.1)
              (forward_a acts bs ws example.1) ws.

(** The deltas pending after one more example, layer by layer, from the
    stored ones: [new_delta = momentumFactor * old_delta + learningRate *
    gradient] with the gradients of that example. *)
Definition next_deltaBias (momentumFactor learningRate : float32)
    (acts : list activation) (bs : list vec) (ws : list mat)
    (stored : list vec) (example : vec * vec) : list vec :=
  zip_with (pending_bias momentumFactor learningRate) stored
           (example_deltas acts bs ws example).

Definition next_deltaWeights (momentumFactor learningRate : float32)
    (acts : list activation) (bs : list vec) (ws : list mat)
    (stored : list mat) (example : vec * vec) : list mat :=
  zip_with (fun old da => pending_weights momentumFactor learningRate old da.1 da.2)
           stored
           (zip (example_deltas acts bs ws example) (forward_a acts bs ws example.1)).

End WithActivations.

(** *** Example inputs *)

Definition quarter : float32 := S754_finite false 8388608 (-25).
Definition half : float32 := S754_finite false 8388608 (-24).
Definition two : float32 := S754_finite false 8388608 (-22).
Definition four : float32 := S754_finite false 8388608 (-21).
Definition six : float32 := S754_finite false 12582912 (-21).

(** The identity, with derivative [1.0f]. *)
Definition linear : activation := mkActivation (fun x => x) (fun _ => F32.one).

(** A piecewise-linear ramp from 0 to 1 over [[-2, 2]], with its
    derivative; the examples use it under the name ["sigmoid"], where
    the logistic function itself would need the exponential. *)
Definition ramp : activation :=
  mkActivation
    (fun x => if F32.ltb x (SFopp two) then F32.zero
              else if F32.ltb two x then F32.one
              else F32.add (F32.mul quarter x) half)
    (fun x => if F32.ltb x (SFopp two) then F32.zero
              else if F32.ltb two x then F32.zero
              else quarter).

Definition example_activations (name : string) : option activation :=
  if String.eqb name "sigmoid" then Some ramp
  else if String.eqb name "linear" then Some linear
  else None.

(** A network of two layers of one neuron, its weight [1.0f], every
    other entry zero. *)
Definition unit_net : net :=
  mkNet [[F32.zero]] [[F32.zero]; [F32.zero]] [[F32.zero]] [[F32.zero]]
        [[[F32.one]]] [[[F32.zero]]].

(** A network of three layers, two neurons, two neurons and one, with
    weights that tell rows from columns; [z], [a] and the deltas are
    zero. *)
Definition layered_net : net :=
  mkNet [[F32.zero; F32.zero]; [F32.zero]]
        [[F32.zero; F32.zero]; [F32.zero; F32.zero]; [F32.zero]]
        [[quarter; half]; [F32.one]]
        [[F32.zero; F32.zero]; [F32.zero]]
        [[[half; quarter]; [F32.one; half]]; [[two]; [four]]]
        [[[F32.zero; F32.zero]; [F32.zero; F32.zero]]; [[F32.zero]; [F32.zero]]].

End Propagation.

Import Cpp Init.
Local Open Scope cpp_scope.

(** *** Running the monad *)

Lemma bind_Ret {S A B} (m : M S A) (k : A -> M S B) s x s' :
  m s = Ret x s' -> bind m k s = k x s'.
Proof. unfold bind. now intros ->. Qed.

Lemma bind_Throw {S A B} (m : M S A) (k : A -> M S B) s e s' :
  m s = Throw e s' -> bind m k s = Throw e s'.
Proof. unfold bind. now intros ->. Qed.


Lemma bind_Ret_inv {S A B} (m : M S A) (k : A -> M S B) s y s'' :
  bind m k s = Ret y s'' -> exists x s', m s = Ret x s' /\ k x s' = Ret y s''.
Proof.
  unfold bind. destruct (m s) as [x s'| |]; try discriminate.
  intros H. now exists x, s'.
Qed.

Lemma index_Some {A} (v : list A) (i : nat) x :
  v !! i = Some x -> index v (Z.of_nat i) = Some x.
Proof.
  intros H. unfold index.
  destruct (Z.ltb_spec (Z.of_nat i) 0); [lia|]. now rewrite Nat2Z.id.
Qed.

Lemma index_is_Some {A} (v : list A) (i : Z) :
  is_Some (index v i) <-> 0 <= i /\ (Z.to_nat i < length v)%nat.
Proof.
  unfold index. destruct (Z.ltb_spec i 0).
  - split; [intros [? ?]; discriminate | lia].
  - rewrite lookup_lt_is_Some. split; [now intros | now intros [_ ?]].
Qed.

Lemma to_size_nonneg {S} (n : Z) (s : S) :
  0 <= n -> to_size n s = Ret (Z.to_nat n) s.
Proof. intros H. unfold to_size. now destruct (Z.ltb_spec n 0); [lia|]. Qed.

Lemma to_size_neg {S} (n : Z) (s : S) :
  n < 0 -> to_size n s = Throw LengthError s.
Proof. intros H. unfold to_size. now destruct (Z.ltb_spec n 0); [|lia]. Qed.

(** *** The random draws *)
Section Draws.
Variable rand_seq : nat -> Z.
Variable randomAmplitude : float32.
Variable finesse : Z.
Hypothesis finesse_nonzero : finesse <> 0.

Lemma draw_Ret (w : world) :
  draw rand_seq randomAmplitude finesse w =
  Ret (scaled randomAmplitude finesse (Z.rem (rand_seq (w_rand w)) finesse))
      (mkWorld (w_net w) (S (w_rand w))).
Proof.
  unfold draw, rand, int_rem, bind, ret.
  destruct (Z.eqb_spec finesse 0); [contradiction | reflexivity].
Qed.

Lemma draws_S (p k : nat) :
  draws rand_seq randomAmplitude finesse p (S k) =
  scaled randomAmplitude finesse (Z.rem (rand_seq p) finesse)
    :: draws rand_seq randomAmplitude finesse (S p) k.
Proof. reflexivity. Qed.

Lemma length_draws (p k : nat) :
  length (draws rand_seq randomAmplitude finesse p k) = k.
Proof. unfold draws. now rewrite length_fmap, length_seq. Qed.

Lemma lookup_draws (p k i : nat) :
  (i < k)%nat ->
  draws rand_seq randomAmplitude finesse p k !! i =
  Some (scaled randomAmplitude finesse (Z.rem (rand_seq (p + i)) finesse)).
Proof.
  intros H. unfold draws. now rewrite list_lookup_fmap, lookup_seq_lt.
Qed.

Lemma length_draws_mat (p rows cols : nat) :
  length (draws_mat rand_seq randomAmplitude finesse p rows cols) = rows.
Proof. revert p. induction rows as [|r IH]; intros p; simpl; [|rewrite IH]; reflexivity. Qed.

Lemma lookup_draws_mat (p rows cols r : nat) :
  (r < rows)%nat ->
  draws_mat rand_seq randomAmplitude finesse p rows cols !! r =
  Some (draws rand_seq randomAmplitude finesse (p + r * cols) cols).
Proof.
  revert p r. induction rows as [|n IH]; intros p r H; [lia|].
  destruct r as [|r]; simpl.
  - now rewrite Nat.add_0_r.
  - rewrite IH by lia. do 2 f_equal. lia.
Qed.

(** The loop of lines 82-84 writes the next draws, in order, over the
    positions [s, s + len) of the temporary. *)
Lemma fill_loop_Ret (len s : nat) (v : vec) (w : world) :
  length v = (s + len)%nat ->
  foldM (fun ii tempArr =>
           x <- draw rand_seq randomAmplitude finesse ;;
           store tempArr ii x)
        (Z.of_nat <$> seq s len) v w =
  Ret (take s v ++ draws rand_seq randomAmplitude finesse (w_rand w) len)
      (mkWorld (w_net w) (w_rand w + len)).
Proof.
  revert s v w. induction len as [|len IH]; intros s v w Hlen.
  - simpl. unfold ret. rewrite app_nil_r, take_ge by lia.
    destruct w; simpl. now rewrite Nat.add_0_r.
  - cbn [seq fmap list_fmap foldM].
    assert (Hs : is_Some (v !! s)) by (apply lookup_lt_is_Some; lia).
    destruct Hs as [x0 Hx0].
    erewrite bind_Ret; cycle 1.
    { erewrite bind_Ret by apply draw_Ret.
      unfold store. erewrite index_Some by eassumption. reflexivity. }
    rewrite Nat2Z.id.
    rewrite IH by (rewrite length_insert; lia).
    cbn [w_net w_rand]. rewrite draws_S.
    rewrite (take_S_r _ _ (scaled randomAmplitude finesse (Z.rem (rand_seq (w_rand w)) finesse)))
      by (apply list_lookup_insert_eq; lia).
    rewrite take_insert_ge by lia.
    rewrite <- app_assoc. simpl. do 2 f_equal. lia.
Qed.

Lemma fill_vec_Ret (n : Z) (v : vec) (w : world) :
  length v = Z.to_nat n ->
  fill_vec rand_seq randomAmplitude finesse n v w =
  Ret (draws rand_seq randomAmplitude finesse (w_rand w) (Z.to_nat n))
      (mkWorld (w_net w) (w_rand w + Z.to_nat n)).
Proof.
  intros H. unfold fill_vec, upto. rewrite fill_loop_Ret by (simpl; lia).
  now rewrite take_0.
Qed.

(** One row of the temporary matrix (the inner loop of lines 98-102). *)
Lemma fill_row_Ret (len s kk : nat) (tempMat : mat) (row0 : vec) (w : world) :
  tempMat !! kk = Some row0 ->
  length row0 = (s + len)%nat ->
  foldM (fun ii tempMat =>
           x <- draw rand_seq randomAmplitude finesse ;;
           row <- at_ tempMat (Z.of_nat kk) ;;
           row' <- store row ii x ;;
           store tempMat (Z.of_nat kk) row')
        (Z.of_nat <$> seq s len) tempMat w =
  Ret (<[kk := take s row0 ++ draws rand_seq randomAmplitude finesse (w_rand w) len]> tempMat)
      (mkWorld (w_net w) (w_rand w + len)).
Proof.
  revert s tempMat row0 w. induction len as [|len IH]; intros s tempMat row0 w Hkk Hlen.
  - simpl. unfold ret. rewrite app_nil_r, take_ge by lia.
    rewrite list_insert_id by assumption.
    destruct w; simpl. now rewrite Nat.add_0_r.
  - cbn [seq fmap list_fmap foldM].
    assert (Hs : is_Some (row0 !! s)) by (apply lookup_lt_is_Some; lia).
    destruct Hs as [x0 Hx0].
    erewrite bind_Ret; cycle 1.
    { erewrite bind_Ret by apply draw_Ret.
      unfold at_. erewrite index_Some by eassumption.
      erewrite bind_Ret by reflexivity.
      unfold store at 1. erewrite index_Some by eassumption.
      erewrite bind_Ret by reflexivity.
      unfold store. erewrite index_Some by eassumption. reflexivity. }
    rewrite !Nat2Z.id.
    erewrite IH; cycle 1.
    { apply list_lookup_insert_eq. eapply lookup_lt_Some; eassumption. }
    { rewrite length_insert. lia. }
    cbn [w_net w_rand]. rewrite draws_S.
    rewrite list_insert_insert_eq.
    rewrite (take_S_r _ _ (scaled randomAmplitude finesse (Z.rem (rand_seq (w_rand w)) finesse)))
      by (apply list_lookup_insert_eq; lia).
    rewrite take_insert_ge by lia.
    rewrite <- app_assoc. simpl. do 2 f_equal. lia.
Qed.

(** The double loop of lines 97-102 writes the next draws row by row. *)
Lemma fill_rows_Ret (len s : nat) (m : Z) (tempMat : mat) (w : world) :
  length tempMat = (s + len)%nat ->
  Forall (fun r => length r = Z.to_nat m) tempMat ->
  foldM (fun kk tempMat =>
           foldM (fun ii tempMat =>
                    x <- draw rand_seq randomAmplitude finesse ;;
                    row <- at_ tempMat kk ;;
                    row' <- store row ii x ;;
                    store tempMat kk row')
                 (upto m) tempMat)
        (Z.of_nat <$> seq s len) tempMat w =
  Ret (take s tempMat
         ++ draws_mat rand_seq randomAmplitude finesse (w_rand w) len (Z.to_nat m))
      (mkWorld (w_net w) (w_rand w + len * Z.to_nat m)).
Proof.
  revert s tempMat w. induction len as [|len IH]; intros s tempMat w Hlen Hrows.
  - simpl. unfold ret. rewrite app_nil_r, take_ge by lia.
    destruct w; simpl. now rewrite Nat.add_0_r.
  - cbn [seq fmap list_fmap foldM].
    assert (Hs : is_Some (tempMat !! s)) by (apply lookup_lt_is_Some; lia).
    destruct Hs as [row0 Hrow0].
    assert (Hl0 : length row0 = Z.to_nat m)
      by (eapply (Forall_lookup_1 _ _ _ _ Hrows); eassumption).
    erewrite bind_Ret; cycle 1.
    { unfold upto. eapply fill_row_Ret; [eassumption | simpl; lia]. }
    rewrite take_0, app_nil_l.
    rewrite IH; cycle 1.
    { rewrite length_insert. lia. }
    { apply Forall_insert; [assumption | apply length_draws]. }
    cbn [w_net w_rand draws_mat].
    rewrite (take_S_r _ _ (draws rand_seq randomAmplitude finesse (w_rand w) (Z.to_nat m)))
      by (apply list_lookup_insert_eq; lia).
    rewrite take_insert_ge by lia.
    rewrite <- app_assoc. simpl. do 2 f_equal. lia.
Qed.

Lemma fill_mat_Ret (n m : Z) (tempMat : mat) (w : world) :
  length tempMat = Z.to_nat n ->
  Forall (fun r => length r = Z.to_nat m) tempMat ->
  fill_mat rand_seq randomAmplitude finesse n m tempMat w =
  Ret (draws_mat rand_seq randomAmplitude finesse (w_rand w) (Z.to_nat n) (Z.to_nat m))
      (mkWorld (w_net w) (w_rand w + Z.to_nat n * Z.to_nat m)).
Proof.
  intros Hlen Hrows. unfold fill_mat. unfold upto at 2.
  rewrite fill_rows_Ret by (simpl; trivial). now rewrite take_0.
Qed.

End Draws.

(** *** One iteration of the loop of [init] *)

Lemma update_row_Ret (c : rows_of) (i : nat) (f : vec -> vec) (w : world) :
  (i < length (get_rows c (w_net w)))%nat ->
  update_row c (Z.of_nat i) f w =
  Ret tt (with_net (set_rows c (alter f i (get_rows c (w_net w))) (w_net w)) w).
Proof.
  intros H. unfold update_row.
  destruct (lookup_lt_is_Some_2 _ _ H) as [r Hr].
  rewrite (index_Some _ _ _ Hr). now rewrite Nat2Z.id.
Qed.

Lemma update_mat_Ret (c : mats_of) (i : nat) (f : mat -> mat) (w : world) :
  (i < length (get_mats c (w_net w)))%nat ->
  update_mat c (Z.of_nat i) f w =
  Ret tt (with_net (set_mats c (alter f i (get_mats c (w_net w))) (w_net w)) w).
Proof.
  intros H. unfold update_mat.
  destruct (lookup_lt_is_Some_2 _ _ H) as [r Hr].
  rewrite (index_Some _ _ _ Hr). now rewrite Nat2Z.id.
Qed.

Lemma resize_row_Ret (c : rows_of) (i : nat) (n : Z) (w : world) :
  (i < length (get_rows c (w_net w)))%nat -> 0 <= n ->
  resize_row c (Z.of_nat i) n w =
  Ret tt (with_net (set_rows c (alter (resize (Z.to_nat n) F32.zero) i
                                      (get_rows c (w_net w))) (w_net w)) w).
Proof.
  intros H Hn. unfold resize_row, row_at, at_.
  destruct (lookup_lt_is_Some_2 _ _ H) as [r Hr].
  rewrite (bind_Ret _ _ w r w) by (now rewrite (index_Some _ _ _ Hr)).
  rewrite (bind_Ret _ _ w _ w (to_size_nonneg n w Hn)).
  now apply update_row_Ret.
Qed.

Lemma resize_row_Throw (c : rows_of) (i : nat) (n : Z) (w : world) :
  (i < length (get_rows c (w_net w)))%nat -> n < 0 ->
  resize_row c (Z.of_nat i) n w = Throw LengthError w.
Proof.
  intros H Hn. unfold resize_row, row_at, at_.
  destruct (lookup_lt_is_Some_2 _ _ H) as [r Hr].
  rewrite (bind_Ret _ _ w r w) by (now rewrite (index_Some _ _ _ Hr)).
  now rewrite (bind_Throw _ _ w _ w (to_size_neg n w Hn)).
Qed.

Lemma resize_mat_Ret (c : mats_of) (i : nat) (n m : Z) (w : world) :
  (i < length (get_mats c (w_net w)))%nat -> 0 <= n -> 0 <= m ->
  resize_mat c (Z.of_nat i) n m w =
  Ret tt (with_net (set_mats c
            (alter (resize (Z.to_nat n) (replicate (Z.to_nat m) F32.zero)) i
                   (get_mats c (w_net w))) (w_net w)) w).
Proof.
  intros H Hn Hm. unfold resize_mat, mat_at, at_.
  destruct (lookup_lt_is_Some_2 _ _ H) as [r Hr].
  rewrite (bind_Ret _ _ w r w) by (now rewrite (index_Some _ _ _ Hr)).
  rewrite (bind_Ret _ _ w _ w (to_size_nonneg m w Hm)).
  rewrite (bind_Ret _ _ w _ w (to_size_nonneg n w Hn)).
  now apply update_mat_Ret.
Qed.

Lemma new_vec_Ret (n : Z) (w : world) :
  0 <= n -> new_vec n w = Ret (replicate (Z.to_nat n) F32.zero) w.
Proof.
  intros Hn. unfold new_vec.
  now rewrite (bind_Ret _ _ w _ w (to_size_nonneg n w Hn)).
Qed.

Lemma new_mat_Ret (n m : Z) (w : world) :
  0 <= n -> 0 <= m ->
  new_mat n m w =
  Ret (replicate (Z.to_nat n) (replicate (Z.to_nat m) F32.zero)) w.
Proof.
  intros Hn Hm. unfold new_mat.
  rewrite (bind_Ret _ _ w _ w (to_size_nonneg m w Hm)).
  now rewrite (bind_Ret _ _ w _ w (to_size_nonneg n w Hn)).
Qed.

Section Body.
Variable rand_seq : nat -> Z.
Variable randomAmplitude : float32.
Variable finesse : Z.

(** The iteration for the input layer. *)
Lemma init_body_input (structure : list Z) (cur : Z) (w : world) :
  (0 < length (a (w_net w)))%nat -> 0 <= cur ->
  init_body rand_seq structure 0 (-1) cur randomAmplitude finesse w =
  Ret tt (input_step (Z.to_nat cur) w).
Proof.
  intros Ha Hcur. unfold init_body.
  change (-1 + 1) with (Z.of_nat 0).
  rewrite (bind_Ret _ _ _ _ _ (resize_row_Ret Fa 0 cur w Ha Hcur)).
  reflexivity.
Qed.

(** A negative width is met by the first statement of the body. *)
Lemma init_body_Throw (structure : list Z) (itInt : nat) (cur : Z) (w : world) :
  (itInt < length (a (w_net w)))%nat -> cur < 0 ->
  init_body rand_seq structure itInt (Z.of_nat itInt - 1) cur randomAmplitude finesse w =
  Throw LengthError w.
Proof.
  intros Ha Hcur. unfold init_body.
  replace (Z.of_nat itInt - 1 + 1) with (Z.of_nat itInt) by lia.
  now rewrite (bind_Throw _ _ _ _ _ (resize_row_Throw Fa itInt cur w Ha Hcur)).
Qed.

(** The iteration for a later layer. *)
Lemma init_body_layer (structure : list Z) (jj : nat) (prev cur : Z) (w : world) :
  finesse <> 0 ->
  structure !! jj = Some prev -> 0 <= prev -> 0 <= cur ->
  (S jj < length (a (w_net w)))%nat ->
  (jj < length (z (w_net w)))%nat ->
  (jj < length (bias (w_net w)))%nat ->
  (jj < length (deltaBias (w_net w)))%nat ->
  (jj < length (weights (w_net w)))%nat ->
  (jj < length (deltaWeights (w_net w)))%nat ->
  init_body rand_seq structure (S jj) (Z.of_nat jj) cur randomAmplitude finesse w =
  Ret tt (layer_step rand_seq randomAmplitude finesse jj (Z.to_nat prev) (Z.to_nat cur) w).
Proof.
  intros Hfin Hprev Hp Hc Ha Hz Hb Hdb Hw Hdw.
  destruct w as [[z0 a0 b0 db0 w0 dw0] p]. cbn [w_net z a bias deltaBias weights deltaWeights] in *.
  unfold init_body.
  replace (Z.of_nat jj + 1) with (Z.of_nat (S jj)) by lia.
  erewrite bind_Ret by (apply resize_row_Ret; [cbn; rewrite ?length_alter; assumption | assumption]).
  destruct (Z.gtb_spec (Z.of_nat jj) (-1)) as [_|]; [|lia].
  erewrite bind_Ret by (apply resize_row_Ret; [cbn; rewrite ?length_alter; assumption | assumption]).
  erewrite bind_Ret by (now apply new_vec_Ret).
  erewrite bind_Ret by (apply resize_row_Ret; [cbn; rewrite ?length_alter; assumption | assumption]).
  erewrite bind_Ret by (apply resize_row_Ret; [cbn; rewrite ?length_alter; assumption | assumption]).
  erewrite bind_Ret by (apply fill_vec_Ret; [assumption | apply length_replicate]).
  erewrite bind_Ret
    by (apply update_row_Ret; cbn; now rewrite length_alter).
  replace (Z.of_nat (S jj) - 1) with (Z.of_nat jj) by lia.
  erewrite bind_Ret by (unfold at_; now rewrite (index_Some _ _ _ Hprev)).
  erewrite bind_Ret by (now apply new_mat_Ret).
  erewrite bind_Ret by (apply resize_mat_Ret; cbn; trivial).
  erewrite bind_Ret by (apply resize_mat_Ret; cbn; trivial).
  erewrite bind_Ret; cycle 1.
  { apply fill_mat_Ret; [assumption | apply length_replicate |].
    apply Forall_replicate, length_replicate. }
  rewrite update_mat_Ret by (cbn; now rewrite length_alter).
  cbn. unfold layer_step. cbn.
  rewrite !list_alter_alter_eq. reflexivity.
Qed.

End Body.

(** *** The loop of [init] *)
Section Loop.
Variable rand_seq : nat -> Z.
Variable randomAmplitude : float32.
Variable finesse : Z.

Lemma same_outer_refl (n : net) : same_outer n n.
Proof. now repeat split. Qed.

Lemma same_outer_trans (n1 n2 n3 : net) :
  same_outer n1 n2 -> same_outer n2 n3 -> same_outer n1 n3.
Proof.
  unfold same_outer. intros (?&?&?&?&?&?) (?&?&?&?&?&?).
  repeat split; congruence.
Qed.

Lemma layer_step_outer (jj prev cur : nat) (w : world) :
  same_outer (w_net w)
    (w_net (layer_step rand_seq randomAmplitude finesse jj prev cur w)).
Proof. unfold same_outer, layer_step. cbn. now rewrite !length_alter. Qed.

Lemma input_step_outer (cur : nat) (w : world) :
  same_outer (w_net w) (w_net (input_step cur w)).
Proof. unfold same_outer, input_step. cbn. now rewrite !length_alter. Qed.

Lemma layers_pure_outer (todo : list Z) (jj prev : nat) (w : world) :
  same_outer (w_net w)
    (w_net (layers_pure rand_seq randomAmplitude finesse jj prev todo w)).
Proof.
  revert jj prev w. induction todo as [|cur todo IH]; intros jj prev w; simpl.
  - apply same_outer_refl.
  - eapply same_outer_trans; [apply layer_step_outer | apply IH].
Qed.

Lemma init_pure_outer (structure : list Z) (w : world) :
  same_outer (w_net w)
    (w_net (init_pure rand_seq randomAmplitude finesse structure w)).
Proof.
  destruct structure as [|w0 rest]; simpl.
  - apply same_outer_refl.
  - eapply same_outer_trans; [apply input_step_outer | apply layers_pure_outer].
Qed.

(** From the second element on, with every remaining width non-negative,
    the loop runs to its end. *)
Lemma init_loop_Ret (structure todo pre : list Z) (prev : Z) (w : world) :
  finesse <> 0 ->
  structure = pre ++ prev :: todo ->
  0 <= prev -> Forall (fun x => 0 <= x) todo ->
  (S (length pre) + length todo <= length (a (w_net w)))%nat ->
  (length pre + length todo <= length (z (w_net w)))%nat ->
  (length pre + length todo <= length (bias (w_net w)))%nat ->
  (length pre + length todo <= length (deltaBias (w_net w)))%nat ->
  (length pre + length todo <= length (weights (w_net w)))%nat ->
  (length pre + length todo <= length (deltaWeights (w_net w)))%nat ->
  init_loop rand_seq structure (S (length pre)) (Z.of_nat (length pre)) todo
            randomAmplitude finesse w =
  Ret tt (layers_pure rand_seq randomAmplitude finesse (length pre) (Z.to_nat prev) todo w).
Proof.
  intros Hfin. revert pre prev w.
  induction todo as [|cur todo IH]; intros pre prev w Hs Hp Hall Ha Hz Hb Hdb Hw Hdw.
  - reflexivity.
  - apply Forall_cons in Hall as [Hc Hall]. cbn [length] in *.
    cbn [init_loop layers_pure].
    erewrite bind_Ret; cycle 1.
    { apply init_body_layer with (prev := prev); try assumption; try lia.
      subst structure. apply list_lookup_middle. reflexivity. }
    pose proof (layer_step_outer (length pre) (Z.to_nat prev) (Z.to_nat cur) w)
      as (Ea & Ez & Eb & Edb & Ew & Edw).
    replace (Z.of_nat (length pre) + 1) with (Z.of_nat (length (pre ++ [prev])))
      by (rewrite length_app; simpl; lia).
    replace (S (length pre)) with (length (pre ++ [prev]))
      by (rewrite length_app; simpl; lia).
    apply IH; try assumption;
      [subst structure; now rewrite <- app_assoc | ..];
      rewrite length_app; cbn [length];
      rewrite ?Ea, ?Ez, ?Eb, ?Edb, ?Ew, ?Edw; lia.
Qed.

(** A negative width stops the loop with [std::length_error]; what the
    earlier iterations did stays. *)
Lemma init_loop_Throw (structure good rest pre : list Z) (prev neg : Z) (w : world) :
  finesse <> 0 ->
  structure = pre ++ prev :: good ++ neg :: rest ->
  0 <= prev -> Forall (fun x => 0 <= x) good -> neg < 0 ->
  (S (length pre) + length good < length (a (w_net w)))%nat ->
  (length pre + length good <= length (z (w_net w)))%nat ->
  (length pre + length good <= length (bias (w_net w)))%nat ->
  (length pre + length good <= length (deltaBias (w_net w)))%nat ->
  (length pre + length good <= length (weights (w_net w)))%nat ->
  (length pre + length good <= length (deltaWeights (w_net w)))%nat ->
  init_loop rand_seq structure (S (length pre)) (Z.of_nat (length pre))
            (good ++ neg :: rest) randomAmplitude finesse w =
  Throw LengthError
    (layers_pure rand_seq randomAmplitude finesse (length pre) (Z.to_nat prev) good w).
Proof.
  intros Hfin. revert pre prev w.
  induction good as [|cur good IH]; intros pre prev w Hs Hp Hall Hneg Ha Hz Hb Hdb Hw Hdw.
  - cbn [app init_loop layers_pure]. cbn [length] in *.
    apply bind_Throw.
    replace (Z.of_nat (length pre)) with (Z.of_nat (S (length pre)) - 1) by lia.
    apply init_body_Throw; [lia | assumption].
  - apply Forall_cons in Hall as [Hc Hall]. cbn [length] in *.
    cbn [app init_loop layers_pure].
    erewrite bind_Ret; cycle 1.
    { apply init_body_layer with (prev := prev); try assumption; try lia.
      subst structure. apply list_lookup_middle. reflexivity. }
    pose proof (layer_step_outer (length pre) (Z.to_nat prev) (Z.to_nat cur) w)
      as (Ea & Ez & Eb & Edb & Ew & Edw).
    replace (Z.of_nat (length pre) + 1) with (Z.of_nat (length (pre ++ [prev])))
      by (rewrite length_app; simpl; lia).
    replace (S (length pre)) with (length (pre ++ [prev]))
      by (rewrite length_app; simpl; lia).
    apply IH; try assumption;
      [subst structure; now rewrite <- app_assoc | ..];
      rewrite length_app; cbn [length];
      rewrite ?Ea, ?Ez, ?Eb, ?Edb, ?Ew, ?Edw; lia.
Qed.

(** With non-negative widths, outer containers that are large enough and
    a non-zero [finesse], [init] returns, and leaves [init_pure]. *)
Lemma init_Ret (structure : list Z) (w : world) :
  finesse <> 0 ->
  Forall (fun x => 0 <= x) structure ->
  outer_ok structure (w_net w) ->
  init rand_seq structure randomAmplitude finesse w =
  Ret tt (init_pure rand_seq randomAmplitude finesse structure w).
Proof.
  intros Hfin Hall (Ha & Hz & Hb & Hdb & Hw & Hdw).
  unfold init. destruct structure as [|w0 rest]; [reflexivity|].
  apply Forall_cons in Hall as [H0 Hall]. cbn [length] in *.
  cbn [init_loop init_pure].
  erewrite bind_Ret by (apply init_body_input; [lia | assumption]).
  pose proof (input_step_outer (Z.to_nat w0) w) as (Ea & Ez & Eb & Edb & Ew & Edw).
  change (-1 + 1) with (Z.of_nat (length (@nil Z))).
  apply (init_loop_Ret (w0 :: rest) rest [] w0); try assumption; try reflexivity;
    cbn [length]; rewrite ?Ea, ?Ez, ?Eb, ?Edb, ?Ew, ?Edw; lia.
Qed.

(** A topology of one layer only resizes [a[0]], whatever [finesse]. *)
Lemma init_single (w0 : Z) (w : world) :
  0 <= w0 -> (0 < length (a (w_net w)))%nat ->
  init rand_seq [w0] randomAmplitude finesse w = Ret tt (input_step (Z.to_nat w0) w).
Proof.
  intros H0 Ha. unfold init. cbn [init_loop].
  now erewrite bind_Ret by (apply init_body_input; assumption).
Qed.

(** With a negative width after non-negative ones, [init] throws, and
    the containers are as [init] of the leading part leaves them. *)
Lemma init_Throw (good rest : list Z) (neg : Z) (w : world) :
  finesse <> 0 ->
  Forall (fun x => 0 <= x) good -> neg < 0 ->
  outer_ok (good ++ [neg]) (w_net w) ->
  init rand_seq (good ++ neg :: rest) randomAmplitude finesse w =
  Throw LengthError (init_pure rand_seq randomAmplitude finesse good w).
Proof.
  intros Hfin Hall Hneg (Ha & Hz & Hb & Hdb & Hw & Hdw).
  rewrite length_app in *. cbn [length] in *.
  unfold init. destruct good as [|w0 good].
  - cbn [app init_loop init_pure]. apply bind_Throw.
    apply (init_body_Throw rand_seq randomAmplitude finesse _ 0%nat); [simpl in *; lia | assumption].
  - apply Forall_cons in Hall as [H0 Hall]. cbn [length] in *.
    cbn [app init_loop init_pure].
    erewrite bind_Ret by (apply init_body_input; [lia | assumption]).
    pose proof (input_step_outer (Z.to_nat w0) w) as (Ea & Ez & Eb & Edb & Ew & Edw).
    change (-1 + 1) with (Z.of_nat (length (@nil Z))).
    apply (init_loop_Throw (w0 :: good ++ neg :: rest) good rest [] w0 neg);
      try assumption; try reflexivity;
      cbn [length]; rewrite ?Ea, ?Ez, ?Eb, ?Edb, ?Ew, ?Edw; lia.
Qed.

End Loop.

(** *** What [init_pure] holds, row by row *)
Section Rows.
Variable rand_seq : nat -> Z.
Variable randomAmplitude : float32.
Variable finesse : Z.

Local Abbreviation layers := (layers_pure rand_seq randomAmplitude finesse).
Local Abbreviation step := (layer_step rand_seq randomAmplitude finesse).
Local Abbreviation pure := (init_pure rand_seq randomAmplitude finesse).

(** Rows below the current one are not touched again. *)
Lemma layers_pure_frame (todo : list Z) (jj prev : nat) (w : world) (i : nat) :
  (i < jj)%nat ->
  z (w_net (layers jj prev todo w)) !! i = z (w_net w) !! i /\
  a (w_net (layers jj prev todo w)) !! S i = a (w_net w) !! S i /\
  a (w_net (layers jj prev todo w)) !! O = a (w_net w) !! O /\
  bias (w_net (layers jj prev todo w)) !! i = bias (w_net w) !! i /\
  deltaBias (w_net (layers jj prev todo w)) !! i = deltaBias (w_net w) !! i /\
  weights (w_net (layers jj prev todo w)) !! i = weights (w_net w) !! i /\
  deltaWeights (w_net (layers jj prev todo w)) !! i = deltaWeights (w_net w) !! i.
Proof.
  revert jj prev w. induction todo as [|cur todo IH]; intros jj prev w Hi.
  - now repeat split.
  - cbn [layers_pure].
    destruct (IH (S jj) (Z.to_nat cur) (step jj prev (Z.to_nat cur) w)) as
      (Hz & Ha & Ha0 & Hb & Hdb & Hw & Hdw); [lia|].
    rewrite Hz, Ha, Ha0, Hb, Hdb, Hw, Hdw. unfold layer_step. cbn.
    rewrite !list_lookup_alter_ne by lia. now repeat split.
Qed.

(** Rows past the last layer are not touched at all. *)
Lemma layers_pure_beyond (todo : list Z) (jj prev : nat) (w : world) (i : nat) :
  (jj + length todo <= i)%nat ->
  z (w_net (layers jj prev todo w)) !! i = z (w_net w) !! i /\
  a (w_net (layers jj prev todo w)) !! S i = a (w_net w) !! S i /\
  bias (w_net (layers jj prev todo w)) !! i = bias (w_net w) !! i /\
  deltaBias (w_net (layers jj prev todo w)) !! i = deltaBias (w_net w) !! i /\
  weights (w_net (layers jj prev todo w)) !! i = weights (w_net w) !! i /\
  deltaWeights (w_net (layers jj prev todo w)) !! i = deltaWeights (w_net w) !! i.
Proof.
  revert jj prev w. induction todo as [|cur todo IH]; intros jj prev w Hi.
  - now repeat split.
  - cbn [layers_pure length] in *.
    destruct (IH (S jj) (Z.to_nat cur) (step jj prev (Z.to_nat cur) w)) as
      (Hz & Ha & Hb & Hdb & Hw & Hdw); [lia|].
    rewrite Hz, Ha, Hb, Hdb, Hw, Hdw. unfold layer_step. cbn.
    rewrite !list_lookup_alter_ne by lia. now repeat split.
Qed.

Lemma layers_pure_rand (todo : list Z) (jj prev : nat) (w : world) :
  w_rand (layers jj prev todo w) = (w_rand w + consumed prev todo)%nat.
Proof.
  revert jj prev w. induction todo as [|cur todo IH]; intros jj prev w.
  - simpl. lia.
  - cbn [layers_pure consumed]. rewrite IH. unfold layer_step. cbn. lia.
Qed.

(** The row of the [k]-th remaining layer, of width [cur] after a layer
    of width [pv]. *)
Lemma layers_pure_at (todo : list Z) (jj prev : nat) (w : world) (k pv : nat) (cur : Z) :
  (prev :: (Z.to_nat <$> todo)) !! k = Some pv ->
  todo !! k = Some cur ->
  let W := w_net (layers jj prev todo w) in
  let p := (w_rand w + consumed prev (take k todo))%nat in
  let c := Z.to_nat cur in
  z W !! (jj + k)%nat = resize c F32.zero <$> z (w_net w) !! (jj + k)%nat /\
  a W !! S (jj + k) = resize c F32.zero <$> a (w_net w) !! S (jj + k) /\
  bias W !! (jj + k)%nat
    = (fun _ => draws rand_seq randomAmplitude finesse p c) <$> bias (w_net w) !! (jj + k)%nat /\
  deltaBias W !! (jj + k)%nat
    = resize c F32.zero <$> deltaBias (w_net w) !! (jj + k)%nat /\
  weights W !! (jj + k)%nat
    = (fun _ => draws_mat rand_seq randomAmplitude finesse (p + c) pv c)
        <$> weights (w_net w) !! (jj + k)%nat /\
  deltaWeights W !! (jj + k)%nat
    = resize pv (replicate c F32.zero) <$> deltaWeights (w_net w) !! (jj + k)%nat.
Proof.
  revert jj prev w k pv cur.
  induction todo as [|cur0 todo IH]; intros jj prev w k pv cur Hpv Hcur; [discriminate|].
  destruct k as [|k].
  - cbn in Hpv, Hcur. injection Hpv as <-. injection Hcur as <-.
    cbn zeta. cbn [layers_pure take consumed]. rewrite !Nat.add_0_r.
    destruct (layers_pure_frame todo (S jj) (Z.to_nat cur0)
                (step jj prev (Z.to_nat cur0) w) jj) as
      (Hz & Ha & _ & Hb & Hdb & Hw & Hdw); [lia|].
    rewrite Hz, Ha, Hb, Hdb, Hw, Hdw. unfold layer_step. cbn.
    rewrite !list_lookup_alter_eq. now repeat split.
  - cbn in Hpv, Hcur. cbn zeta. cbn [layers_pure take consumed].
    destruct (IH (S jj) (Z.to_nat cur0) (step jj prev (Z.to_nat cur0) w) k pv cur Hpv Hcur)
      as (Hz & Ha & Hb & Hdb & Hw & Hdw).
    replace (jj + S k)%nat with (S jj + k)%nat by lia.
    rewrite Hz, Ha, Hb, Hdb, Hw, Hdw. unfold layer_step. cbn.
    rewrite !list_lookup_alter_ne by lia.
    repeat split; try reflexivity; now rewrite !Nat.add_assoc.
Qed.

(** Row [L] of [a] after [init]. *)
Lemma init_pure_a (structure : list Z) (w : world) (L : nat) (wd : Z) :
  structure !! L = Some wd ->
  a (w_net (pure structure w)) !! L
  = resize (Z.to_nat wd) F32.zero <$> a (w_net w) !! L.
Proof.
  destruct structure as [|w0 rest]; [discriminate|]. intros HL.
  cbn [init_pure]. destruct L as [|k].
  - injection HL as <-.
    destruct rest as [|w1 rest].
    + cbn. now rewrite list_lookup_alter_eq.
    + destruct (layers_pure_frame (w1 :: rest) 1 (Z.to_nat w0)
                  (input_step (Z.to_nat w0) w) 0) as (_ & _ & Ha0 & _); [lia|].
      cbn [layers_pure] in *.
      transitivity (a (w_net (step 0%nat (Z.to_nat w0) (Z.to_nat w1)
                                (input_step (Z.to_nat w0) w))) !! 0%nat).
      * destruct (layers_pure_frame rest 1 (Z.to_nat w1)
                    (step 0%nat (Z.to_nat w0) (Z.to_nat w1) (input_step (Z.to_nat w0) w)) 0)
          as (_ & _ & H0 & _); [lia|]. exact H0.
      * unfold layer_step, input_step. cbn.
        rewrite list_lookup_alter_ne by lia. now rewrite list_lookup_alter_eq.
  - cbn in HL.
    assert (Hpv : exists pv, (Z.to_nat w0 :: (Z.to_nat <$> rest)) !! k = Some pv).
    { apply lookup_lt_is_Some. cbn. rewrite length_fmap.
      apply lookup_lt_Some in HL. lia. }
    destruct Hpv as [pv Hpv].
    destruct (layers_pure_at rest 0 (Z.to_nat w0) (input_step (Z.to_nat w0) w) k pv wd Hpv HL)
      as (_ & Ha & _).
    cbn [Nat.add] in Ha. rewrite Ha. unfold input_step. cbn.
    now rewrite list_lookup_alter_ne by lia.
Qed.

(** Row [jj] of the other containers after [init], for the layer of
    width [cur] that follows a layer of width [prev]. *)
Lemma init_pure_at (structure : list Z) (w : world) (jj : nat) (prev cur : Z) :
  structure !! jj = Some prev -> structure !! S jj = Some cur ->
  let W := w_net (pure structure w) in
  let p := (w_rand w + base structure jj)%nat in
  let c := Z.to_nat cur in
  z W !! jj = resize c F32.zero <$> z (w_net w) !! jj /\
  bias W !! jj
    = (fun _ => draws rand_seq randomAmplitude finesse p c) <$> bias (w_net w) !! jj /\
  deltaBias W !! jj = resize c F32.zero <$> deltaBias (w_net w) !! jj /\
  weights W !! jj
    = (fun _ => draws_mat rand_seq randomAmplitude finesse (p + c) (Z.to_nat prev) c)
        <$> weights (w_net w) !! jj /\
  deltaWeights W !! jj
    = resize (Z.to_nat prev) (replicate c F32.zero) <$> deltaWeights (w_net w) !! jj.
Proof.
  destruct structure as [|w0 rest]; [discriminate|]. intros Hprev Hcur.
  cbn in Hcur. cbn zeta. cbn [init_pure base].
  assert (Hpv : (Z.to_nat w0 :: (Z.to_nat <$> rest)) !! jj = Some (Z.to_nat prev)).
  { change (Z.to_nat w0 :: (Z.to_nat <$> rest)) with (Z.to_nat <$> (w0 :: rest)).
    now rewrite list_lookup_fmap, Hprev. }
  destruct (layers_pure_at rest 0 (Z.to_nat w0) (input_step (Z.to_nat w0) w)
              jj (Z.to_nat prev) cur Hpv Hcur)
    as (Hz & _ & Hb & Hdb & Hw & Hdw).
  cbn [Nat.add] in *. rewrite Hz, Hb, Hdb, Hw, Hdw.
  unfold input_step. cbn. now repeat split.
Qed.

Lemma init_pure_rand (structure : list Z) (w : world) :
  w_rand (pure structure w) = (w_rand w + base structure (length structure))%nat.
Proof.
  destruct structure as [|w0 rest]; cbn [init_pure base length].
  - lia.
  - rewrite layers_pure_rand. rewrite take_ge by lia. reflexivity.
Qed.

End Rows.


Section Keeps.
Variable R : net -> net -> Prop.
Hypothesis R_refl : forall n, R n n.
Hypothesis R_trans : forall n1 n2 n3, R n1 n2 -> R n2 n3 -> R n1 n3.

Lemma keeps_ret {A} (x : A) : keeps R (ret x).
Proof. intros w. apply R_refl. Qed.

Lemma keeps_bind {A B} (m : M world A) (k : A -> M world B) :
  keeps R m -> (forall x, keeps R (k x)) -> keeps R (bind m k).
Proof.
  intros Hm Hk w. unfold bind. specialize (Hm w).
  destruct (m w) as [x w1|e w1|u]; trivial.
  specialize (Hk x w1). destruct (k x w1); eauto.
Qed.

Lemma keeps_foldM {I X} (body : I -> X -> M world X) (l : list I) (x : X) :
  (forall i y, keeps R (body i y)) -> keeps R (foldM body l x).
Proof.
  intros Hb. revert x. induction l as [|i l IH]; intros x; simpl.
  - apply keeps_ret.
  - apply keeps_bind; [apply Hb | intros; apply IH].
Qed.

Lemma keeps_to_size (n : Z) : keeps R (to_size n).
Proof. intros w. unfold to_size. destruct (n <? 0); apply R_refl. Qed.

Lemma keeps_at_ {A} (v : list A) (i : Z) : keeps R (at_ v i).
Proof. intros w. unfold at_. destruct (index v i); [apply R_refl | exact I]. Qed.

Lemma keeps_store {A} (v : list A) (i : Z) (x : A) : keeps R (store v i x).
Proof. intros w. unfold store. destruct (index v i); [apply R_refl | exact I]. Qed.

Lemma keeps_row_at (c : rows_of) (i : Z) : keeps R (row_at c i).
Proof. intros w. unfold row_at. apply keeps_at_. Qed.

Lemma keeps_mat_at (c : mats_of) (i : Z) : keeps R (mat_at c i).
Proof. intros w. unfold mat_at. apply keeps_at_. Qed.

Lemma keeps_draw rand_seq randomAmplitude finesse :
  keeps R (draw rand_seq randomAmplitude finesse).
Proof.
  intros w. unfold draw, rand, int_rem, bind, ret, undefined. cbn.
  destruct (finesse =? 0); [exact I | apply R_refl].
Qed.

Lemma keeps_new_vec (n : Z) : keeps R (new_vec n).
Proof.
  unfold new_vec. apply keeps_bind; [apply keeps_to_size | intros; apply keeps_ret].
Qed.

Lemma keeps_new_mat (n m : Z) : keeps R (new_mat n m).
Proof.
  unfold new_mat. repeat (apply keeps_bind; [apply keeps_to_size | intros]).
  apply keeps_ret.
Qed.

Lemma keeps_fill_vec rand_seq randomAmplitude finesse (n : Z) (v : vec) :
  keeps R (fill_vec rand_seq randomAmplitude finesse n v).
Proof.
  unfold fill_vec. apply keeps_foldM. intros i y.
  apply keeps_bind; [apply keeps_draw | intros; apply keeps_store].
Qed.

Lemma keeps_fill_mat rand_seq randomAmplitude finesse (n m : Z) (t : mat) :
  keeps R (fill_mat rand_seq randomAmplitude finesse n m t).
Proof.
  unfold fill_mat. apply keeps_foldM. intros kk y.
  apply keeps_foldM. intros ii y'.
  apply keeps_bind; [apply keeps_draw | intros].
  apply keeps_bind; [apply keeps_at_ | intros].
  apply keeps_bind; [apply keeps_store | intros; apply keeps_store].
Qed.

(** What [R] has to allow: the four kinds of assignment [init] makes. *)
Hypothesis R_resize_row : forall c k i n,
  R n (set_rows c (alter (resize k F32.zero) i (get_rows c n)) n).
Hypothesis R_assign_bias : forall t i n,
  R n (set_rows Fbias (alter (fun _ => t) i (bias n)) n).
Hypothesis R_resize_mat : forall c kn km i n,
  R n (set_mats c (alter (resize kn (replicate km F32.zero)) i (get_mats c n)) n).
Hypothesis R_assign_weights : forall t i n,
  R n (set_mats Fweights (alter (fun _ => t) i (weights n)) n).

Lemma keeps_resize_row (c : rows_of) (i n : Z) : keeps R (resize_row c i n).
Proof.
  unfold resize_row.
  apply keeps_bind; [apply keeps_row_at | intros _].
  apply keeps_bind; [apply keeps_to_size | intros k].
  intros w. unfold update_row. destruct (index _ i); [|exact I]. apply R_resize_row.
Qed.

Lemma keeps_resize_mat (c : mats_of) (i n m : Z) : keeps R (resize_mat c i n m).
Proof.
  unfold resize_mat.
  apply keeps_bind; [apply keeps_mat_at | intros _].
  apply keeps_bind; [apply keeps_to_size | intros km].
  apply keeps_bind; [apply keeps_to_size | intros kn].
  intros w. unfold update_mat. destruct (index _ i); [|exact I]. apply R_resize_mat.
Qed.

Lemma keeps_init_body rand_seq structure itInt jj cur randomAmplitude finesse :
  keeps R (init_body rand_seq structure itInt jj cur randomAmplitude finesse).
Proof.
  unfold init_body.
  apply keeps_bind; [apply keeps_resize_row | intros _].
  destruct (jj >? -1); [|apply keeps_ret].
  apply keeps_bind; [apply keeps_resize_row | intros _].
  apply keeps_bind; [apply keeps_new_vec | intros tempArr].
  apply keeps_bind; [apply keeps_resize_row | intros _].
  apply keeps_bind; [apply keeps_resize_row | intros _].
  apply keeps_bind; [apply keeps_fill_vec | intros tempArr'].
  apply keeps_bind.
  { intros w. unfold update_row. destruct (index _ jj); [|exact I]. apply R_assign_bias. }
  intros _.
  apply keeps_bind; [apply keeps_at_ | intros prev].
  apply keeps_bind; [apply keeps_new_mat | intros tempMat].
  apply keeps_bind; [apply keeps_resize_mat | intros _].
  apply keeps_bind; [apply keeps_resize_mat | intros _].
  apply keeps_bind; [apply keeps_fill_mat | intros tempMat'].
  intros w. unfold update_mat. destruct (index _ jj); [|exact I]. apply R_assign_weights.
Qed.

Lemma keeps_init_loop rand_seq structure todo itInt jj randomAmplitude finesse :
  keeps R (init_loop rand_seq structure itInt jj todo randomAmplitude finesse).
Proof.
  revert itInt jj. induction todo as [|cur todo IH]; intros itInt jj; simpl.
  - apply keeps_ret.
  - apply keeps_bind; [apply keeps_init_body | intros _; apply IH].
Qed.

Lemma keeps_init rand_seq structure randomAmplitude finesse :
  keeps R (init rand_seq structure randomAmplitude finesse).
Proof. apply keeps_init_loop. Qed.

End Keeps.

(** *** [init] never resizes the outer containers *)

Lemma same_outer_resize_row c k i n :
  same_outer n (set_rows c (alter (resize k F32.zero) i (get_rows c n)) n).
Proof. destruct c; unfold same_outer; cbn; rewrite ?length_alter; now repeat split. Qed.

Lemma same_outer_assign_bias (t : vec) i n :
  same_outer n (set_rows Fbias (alter (fun _ => t) i (bias n)) n).
Proof. unfold same_outer; cbn; rewrite ?length_alter; now repeat split. Qed.

Lemma same_outer_resize_mat c kn km i n :
  same_outer n (set_mats c (alter (resize kn (replicate km F32.zero)) i (get_mats c n)) n).
Proof. destruct c; unfold same_outer; cbn; rewrite ?length_alter; now repeat split. Qed.

Lemma same_outer_assign_weights (t : mat) i n :
  same_outer n (set_mats Fweights (alter (fun _ => t) i (weights n)) n).
Proof. unfold same_outer; cbn; rewrite ?length_alter; now repeat split. Qed.

Create HintDb outer discriminated.
#[local] Hint Resolve same_outer_refl same_outer_trans same_outer_resize_row
  same_outer_assign_bias same_outer_resize_mat same_outer_assign_weights : outer.


Lemma keeps_Ret (R : net -> net -> Prop) {A} (m : M world A) w x w' :
  keeps R m -> m w = Ret x w' -> R (w_net w) (w_net w').
Proof. intros K H. specialize (K w). now rewrite H in K. Qed.

Lemma keeps_Throw (R : net -> net -> Prop) {A} (m : M world A) w e w' :
  keeps R m -> m w = Throw e w' -> R (w_net w) (w_net w').
Proof. intros K H. specialize (K w). now rewrite H in K. Qed.

(** *** What a normal return of [init] needs *)

Lemma resize_row_Ret_inv c i n w x w' :
  resize_row c i n w = Ret x w' ->
  0 <= i /\ (Z.to_nat i < length (get_rows c (w_net w)))%nat.
Proof.
  unfold resize_row. intros H.
  apply bind_Ret_inv in H as (r & w1 & H1 & _).
  unfold row_at, at_ in H1. apply index_is_Some.
  destruct (index _ i); [eauto | discriminate].
Qed.

Lemma resize_mat_Ret_inv c i n m w x w' :
  resize_mat c i n m w = Ret x w' ->
  0 <= i /\ (Z.to_nat i < length (get_mats c (w_net w)))%nat.
Proof.
  unfold resize_mat. intros H.
  apply bind_Ret_inv in H as (r & w1 & H1 & _).
  unfold mat_at, at_ in H1. apply index_is_Some.
  destruct (index _ i); [eauto | discriminate].
Qed.

Lemma init_body_Ret_inv rand_seq structure itInt jj cur randomAmplitude finesse w x w' :
  init_body rand_seq structure itInt jj cur randomAmplitude finesse w = Ret x w' ->
  (0 <= jj + 1 /\ (Z.to_nat (jj + 1) < length (a (w_net w)))%nat) /\
  (jj > -1 ->
   (Z.to_nat jj < length (z (w_net w)))%nat /\
   (Z.to_nat jj < length (bias (w_net w)))%nat /\
   (Z.to_nat jj < length (deltaBias (w_net w)))%nat /\
   (Z.to_nat jj < length (weights (w_net w)))%nat /\
   (Z.to_nat jj < length (deltaWeights (w_net w)))%nat).
Proof.
  unfold init_body. intros H.
  apply bind_Ret_inv in H as (x1 & w1 & Ha & H).
  pose proof (keeps_Ret same_outer _ _ _ _
                (keeps_resize_row same_outer same_outer_refl same_outer_trans
                   same_outer_resize_row Fa (jj + 1) cur) Ha) as S1.
  apply resize_row_Ret_inv in Ha. split; [exact Ha|].
  intros Hjj. destruct (Z.gtb_spec jj (-1)); [|lia].
  apply bind_Ret_inv in H as (x2 & w2 & Hz & H).
  pose proof (keeps_Ret same_outer _ _ _ _
                (keeps_resize_row same_outer same_outer_refl same_outer_trans
                   same_outer_resize_row Fz jj cur) Hz) as S2.
  apply resize_row_Ret_inv in Hz.
  apply bind_Ret_inv in H as (x3 & w3 & Hv & H).
  pose proof (keeps_Ret same_outer _ _ _ _
                (keeps_new_vec same_outer same_outer_refl same_outer_trans cur) Hv) as S3.
  apply bind_Ret_inv in H as (x4 & w4 & Hb & H).
  pose proof (keeps_Ret same_outer _ _ _ _
                (keeps_resize_row same_outer same_outer_refl same_outer_trans
                   same_outer_resize_row Fbias jj cur) Hb) as S4.
  apply resize_row_Ret_inv in Hb.
  apply bind_Ret_inv in H as (x5 & w5 & Hdb & H).
  pose proof (keeps_Ret same_outer _ _ _ _
                (keeps_resize_row same_outer same_outer_refl same_outer_trans
                   same_outer_resize_row FdeltaBias jj cur) Hdb) as S5.
  apply resize_row_Ret_inv in Hdb.
  apply bind_Ret_inv in H as (x6 & w6 & Hf & H).
  pose proof (keeps_Ret same_outer _ _ _ _
                (keeps_fill_vec same_outer same_outer_refl same_outer_trans
                   rand_seq randomAmplitude finesse cur x3) Hf) as S6.
  apply bind_Ret_inv in H as (x7 & w7 & Hu & H).
  assert (S7 : same_outer (w_net w6) (w_net w7)).
  { unfold update_row in Hu. destruct (index _ jj); [|discriminate].
    injection Hu as _ <-. apply same_outer_assign_bias. }
  apply bind_Ret_inv in H as (x8 & w8 & Hp & H).
  pose proof (keeps_Ret same_outer _ _ _ _
                (keeps_at_ same_outer same_outer_refl structure (Z.of_nat itInt - 1)) Hp) as S8.
  apply bind_Ret_inv in H as (x9 & w9 & Hm & H).
  pose proof (keeps_Ret same_outer _ _ _ _
                (keeps_new_mat same_outer same_outer_refl same_outer_trans x8 cur) Hm) as S9.
  apply bind_Ret_inv in H as (x10 & w10 & Hw & H).
  pose proof (keeps_Ret same_outer _ _ _ _
                (keeps_resize_mat same_outer same_outer_refl same_outer_trans
                   same_outer_resize_mat Fweights jj x8 cur) Hw) as S10.
  apply resize_mat_Ret_inv in Hw.
  apply bind_Ret_inv in H as (x11 & w11 & Hdw & _).
  apply resize_mat_Ret_inv in Hdw.
  cbn [get_rows get_mats] in *.
  unfold same_outer in *.
  destruct S1 as (?&?&?&?&?&?), S2 as (?&?&?&?&?&?), S3 as (?&?&?&?&?&?),
    S4 as (?&?&?&?&?&?), S5 as (?&?&?&?&?&?), S6 as (?&?&?&?&?&?),
    S7 as (?&?&?&?&?&?), S8 as (?&?&?&?&?&?), S9 as (?&?&?&?&?&?),
    S10 as (?&?&?&?&?&?).
  repeat split; lia.
Qed.

Lemma init_loop_Ret_inv rand_seq structure randomAmplitude finesse todo itInt w w' :
  init_loop rand_seq structure itInt (Z.of_nat itInt - 1) todo randomAmplitude finesse w
    = Ret tt w' ->
  todo <> [] ->
  (itInt + length todo <= length (a (w_net w)))%nat /\
  (itInt + length todo - 1 <= length (z (w_net w)))%nat /\
  (itInt + length todo - 1 <= length (bias (w_net w)))%nat /\
  (itInt + length todo - 1 <= length (deltaBias (w_net w)))%nat /\
  (itInt + length todo - 1 <= length (weights (w_net w)))%nat /\
  (itInt + length todo - 1 <= length (deltaWeights (w_net w)))%nat.
Proof.
  revert itInt w. induction todo as [|cur todo IH]; intros itInt w H Hne; [congruence|].
  cbn [init_loop] in H.
  apply bind_Ret_inv in H as (x & w1 & Hbody & H).
  pose proof (keeps_Ret same_outer _ _ _ _
                (keeps_init_body same_outer same_outer_refl same_outer_trans
                   same_outer_resize_row same_outer_assign_bias
                   same_outer_resize_mat same_outer_assign_weights
                   rand_seq structure itInt (Z.of_nat itInt - 1) cur
                   randomAmplitude finesse) Hbody) as (Ea & Ez & Eb & Edb & Ew & Edw).
  apply init_body_Ret_inv in Hbody as ((_ & Ha) & Hrest).
  replace (Z.of_nat itInt - 1 + 1) with (Z.of_nat itInt) in * by lia.
  rewrite Nat2Z.id in Ha.
  replace (Z.of_nat itInt) with (Z.of_nat (S itInt) - 1) in H by lia.
  cbn [length].
  destruct todo as [|cur' todo].
  - cbn [length]. destruct itInt as [|k].
    + lia.
    + destruct Hrest as (?&?&?&?&?); [lia|].
      replace (Z.to_nat (Z.of_nat (S k) - 1)) with k in * by lia. lia.
  - apply IH in H; [|discriminate]. cbn [length] in *.
    rewrite Ea, Ez, Eb, Edb, Ew, Edw in H. lia.
Qed.

(** If [init] returns, the outer containers were large enough. *)
Lemma init_Ret_inv rand_seq structure randomAmplitude finesse w w' :
  init rand_seq structure randomAmplitude finesse w = Ret tt w' ->
  outer_ok structure (w_net w).
Proof.
  unfold init. intros H.
  destruct structure as [|w0 rest].
  - unfold outer_ok. cbn. lia.
  - change (-1) with (Z.of_nat 0 - 1) in H.
    apply init_loop_Ret_inv in H; [|discriminate].
    unfold outer_ok. cbn [length Nat.add] in *. lia.
Qed.

(** *** Entries that are zero stay zero *)


Lemma init_zero_deltas rand_seq structure randomAmplitude finesse :
  keeps (fun n n' => zero_deltas n -> zero_deltas n')
        (init rand_seq structure randomAmplitude finesse).
Proof.
  apply keeps_init; cbv beta.
  - auto.
  - auto.
  - intros c k i n [Hb Hw]. destruct c; split; cbn; trivial.
    apply Forall_alter; [assumption|]. intros r _ Hr.
    now apply Forall_resize.
  - intros t i n [Hb Hw]. now split.
  - intros c kn km i n [Hb Hw]. destruct c; split; cbn; trivial.
    apply Forall_alter; [assumption|]. intros m _ Hm.
    apply Forall_resize; [|assumption]. now apply Forall_replicate.
  - intros t i n [Hb Hw]. now split.
Qed.

(** *** A zero [finesse] *)

Lemma draw_div0 rand_seq randomAmplitude (w : world) :
  draw rand_seq randomAmplitude 0 w = Undef DivisionByZero.
Proof. reflexivity. Qed.



(** A list of widths is non-negative throughout, or has a first negative
    entry. *)
Lemma widths_split (l : list Z) :
  Forall (fun x => 0 <= x) l \/
  exists good neg rest,
    l = good ++ neg :: rest /\ Forall (fun x => 0 <= x) good /\ neg < 0.
Proof.
  induction l as [|x l IH]; [left; constructor|].
  destruct (Z.lt_ge_cases x 0) as [Hx|Hx].
  - right. exists [], x, l. repeat split; [constructor | assumption].
  - destruct IH as [IH|(good & neg & rest & -> & Hg & Hn)].
    + left. now constructor.
    + right. exists (x :: good), neg, rest. repeat split; [now constructor | assumption].
Qed.

Lemma outer_ok_prefix (good rest : list Z) (neg : Z) (n : net) :
  outer_ok (good ++ neg :: rest) n -> outer_ok (good ++ [neg]) n.
Proof.
  unfold outer_ok. rewrite !length_app. cbn [length]. lia.
Qed.


(** ** The sign of a rounded result *)


Lemma iter_pos_inv {A} (P : A -> Prop) (f : A -> A) :
  (forall x, P x -> P (f x)) -> forall p x, P x -> P (SpecFloat.iter_pos f p x).
Proof.
  intros Hf. induction p as [p IH|p IH|]; intros x Hx; simpl; auto.
Qed.

Lemma shr_1_nonneg (mrs : shr_record) : 0 <= shr_m mrs -> 0 <= shr_m (shr_1 mrs).
Proof.
  destruct mrs as [m r s]. simpl.
  destruct m as [|[p|p|]|p]; simpl; lia.
Qed.

Lemma shr_nonneg (mrs : shr_record) (e n : Z) :
  0 <= shr_m mrs -> 0 <= shr_m (fst (shr mrs e n)).
Proof.
  intros H. unfold shr. destruct n; simpl; trivial.
  now apply iter_pos_inv; [apply shr_1_nonneg|].
Qed.

Lemma shr_fexp_nonneg (m e : Z) (l : location) :
  0 <= m -> 0 <= shr_m (fst (shr_fexp F32.prec F32.emax m e l)).
Proof.
  intros H. unfold shr_fexp. apply shr_nonneg.
  destruct l as [|[]]; simpl; exact H.
Qed.

Lemma round_nearest_even_nonneg (m : Z) (l : location) :
  0 <= m -> 0 <= round_nearest_even m l.
Proof.
  intros H. destruct l as [|[]]; simpl; try lia.
  destruct (Z.even m); lia.
Qed.

(** Rounding a non-negative mantissa with a clear sign never yields a
    negative number or a NaN. *)
Lemma binary_round_aux_sign_clear (m e : Z) (l : location) :
  0 <= m -> F32.sign_clear (binary_round_aux F32.prec F32.emax false m e l) = true.
Proof.
  intros H. unfold binary_round_aux.
  pose proof (shr_fexp_nonneg m e l H) as H1.
  destruct (shr_fexp F32.prec F32.emax m e l) as [mrs' e']. cbn [fst] in H1.
  pose proof (shr_fexp_nonneg _ e' loc_Exact
                (round_nearest_even_nonneg _ (loc_of_shr_record mrs') H1)) as H2.
  destruct (shr_fexp F32.prec F32.emax _ e' loc_Exact) as [mrs'' e'']. cbn [fst] in H2.
  destruct (shr_m mrs'') as [|p|p]; [reflexivity| |lia].
  now destruct (e'' <=? F32.emax - F32.prec).
Qed.

Lemma of_int_sign_clear (k : Z) : 0 <= k -> F32.sign_clear (F32.of_int k) = true.
Proof.
  intros H. unfold F32.of_int, binary_normalize.
  destruct k as [|p|p]; [reflexivity| |lia].
  unfold binary_round. destruct (shl_align _ _ _) as [mz ez].
  now apply binary_round_aux_sign_clear.
Qed.

Lemma mul_sign_clear (x y : float32) :
  F32.pos_finite x = true -> F32.sign_clear y = true -> F32.sign_clear (F32.mul x y) = true.
Proof.
  destruct x as [| | |[] mx ex]; try discriminate. intros _.
  destruct y as [[]|[]| |[] my ey]; try discriminate; intros _; try reflexivity.
  unfold F32.mul, SFmul. cbn [xorb].
  now apply binary_round_aux_sign_clear.
Qed.

Lemma div_sign_clear (x y : float32) :
  F32.sign_clear x = true -> F32.pos_finite y = true -> F32.sign_clear (F32.div x y) = true.
Proof.
  destruct y as [| | |[] my ey]; try discriminate. intros Hx _.
  destruct x as [[]|[]| |[] mx ex]; try discriminate; try reflexivity.
  unfold F32.div, SFdiv. cbn [xorb].
  unfold SFdiv_core_binary.
  set (m' := match _ with Z0 => _ | Zpos _ => _ | Zneg _ => _ end).
  assert (Hm' : 0 <= m').
  { subst m'. destruct (_ - _ - _); try lia. apply Z.shiftl_nonneg. lia. }
  pose proof (Z.div_pos m' (Z.pos my) Hm' ltac:(lia)) as Hq.
  unfold Z.div in Hq.
  destruct (Z.div_eucl m' (Z.pos my)) as [q r].
  now apply binary_round_aux_sign_clear.
Qed.

(** A scaled draw is never negative and never a NaN. *)
Lemma scaled_sign_clear (randomAmplitude : float32) (finesse k : Z) :
  F32.pos_finite randomAmplitude = true ->
  F32.pos_finite (F32.of_int finesse) = true ->
  0 <= k ->
  F32.sign_clear (scaled randomAmplitude finesse k) = true.
Proof.
  intros Ha Hf Hk. unfold scaled.
  apply div_sign_clear; [|assumption].
  apply mul_sign_clear; [assumption|]. now apply of_int_sign_clear.
Qed.

Lemma sign_clear_nonneg (x : float32) : F32.sign_clear x = true -> F32.nonneg x = true.
Proof. destruct x as [[]|[]| |[] m e]; try discriminate; reflexivity. Qed.

(** ** Multiplying by one *)

Lemma digits2_pos_shift23 (m : positive) :
  Z.pos (digits2_pos (8388608 * m)) = Z.pos (digits2_pos m) + 23.
Proof.
  change (8388608 * m)%positive
    with (m~0~0~0~0~0~0~0~0~0~0~0~0~0~0~0~0~0~0~0~0~0~0~0)%positive.
  cbn [digits2_pos]. rewrite !Pos2Z.inj_succ. lia.
Qed.

(** [1.0f * x] is [x], for every binary32 value in canonical form. *)
Lemma mul_one_l (x : float32) : F32.valid x = true -> F32.mul F32.one x = x.
Proof.
  destruct x as [s|s| |s m e]; try reflexivity.
  unfold F32.valid, valid_binary, bounded, canonical_mantissa.
  intros [Hc He]%andb_true_iff. apply Z.eqb_eq in Hc. apply Z.leb_le in He.
  unfold F32.mul, F32.one, SFmul. cbn [xorb].
  unfold binary_round_aux.
  assert (H1 : shr_fexp F32.prec F32.emax (Z.pos (8388608 * m)) (-23 + e) loc_Exact
               = ({| shr_m := Z.pos m; shr_r := false; shr_s := false |}, e)).
  { unfold shr_fexp. cbn [Zdigits2]. rewrite digits2_pos_shift23.
    replace (Z.pos (digits2_pos m) + 23 + (-23 + e)) with (Z.pos (digits2_pos m) + e) by lia.
    rewrite Hc. replace (e - (-23 + e)) with 23 by lia.
    unfold shr.
    change (8388608 * m)%positive
      with (m~0~0~0~0~0~0~0~0~0~0~0~0~0~0~0~0~0~0~0~0~0~0~0)%positive.
    cbn [SpecFloat.iter_pos shr_1 shr_record_of_loc orb].
    f_equal. lia. }
  rewrite H1. cbn [shr_m loc_of_shr_record round_nearest_even].
  assert (H2 : shr_fexp F32.prec F32.emax (Z.pos m) e loc_Exact
               = ({| shr_m := Z.pos m; shr_r := false; shr_s := false |}, e)).
  { unfold shr_fexp. cbn [Zdigits2]. rewrite Hc, Z.sub_diag. reflexivity. }
  rewrite H2. cbn [shr_m].
  destruct (Z.leb_spec e (F32.emax - F32.prec)); [reflexivity | lia].
Qed.

(** ** Exact conversions and quotients below one *)

Lemma digits2_pos_size (p : positive) : digits2_pos p = Pos.size p.
Proof. induction p as [p IH|p IH|]; simpl; congruence. Qed.

Lemma Zdigits2_log2 (p : positive) : Zdigits2 (Z.pos p) = Z.log2 (Z.pos p) + 1.
Proof.
  cbn [Zdigits2]. rewrite digits2_pos_size.
  destruct p as [p|p|]; cbn [Pos.size Z.log2]; rewrite ?Pos2Z.inj_succ; lia.
Qed.

(** [m] has at most [x] binary digits exactly when it is below [2^x]. *)
Lemma Zdigits2_le (m x : Z) : 0 <= m -> 0 <= x -> Zdigits2 m <= x <-> m < 2 ^ x.
Proof.
  intros Hm Hx. destruct m as [|p|p]; [|rewrite Zdigits2_log2|lia].
  - cbn [Zdigits2]. split; [intros _; apply Z.pow_pos_nonneg; lia | lia].
  - rewrite (Z.log2_lt_pow2 (Z.pos p) x) by lia. lia.
Qed.

Lemma Zdigits2_nonneg (m : Z) : 0 <= Zdigits2 m.
Proof. destruct m; cbn; lia. Qed.

Lemma shr_m_of_loc (m : Z) (l : location) : shr_m (shr_record_of_loc m l) = m.
Proof. now destruct l as [|[]]. Qed.

Lemma shr_1_div (mrs : shr_record) :
  0 <= shr_m mrs -> shr_m (shr_1 mrs) = shr_m mrs / 2.
Proof.
  destruct mrs as [m r s]. cbn [shr_m]. intros Hm.
  destruct m as [|[p|p|]|p]; cbn [shr_1 shr_m]; try lia; try reflexivity.
  - rewrite Pos2Z.inj_xI. apply (Z.div_unique _ _ _ 1); lia.
  - rewrite Pos2Z.inj_xO. apply (Z.div_unique _ _ _ 0); lia.
Qed.

Lemma iter_shr_1_div (p : positive) (mrs : shr_record) :
  0 <= shr_m mrs ->
  shr_m (SpecFloat.iter_pos shr_1 p mrs) = shr_m mrs / 2 ^ Z.pos p.
Proof.
  revert mrs. induction p as [p IH|p IH|]; intros mrs Hm; cbn [SpecFloat.iter_pos];
    try assert (Hp : 0 < 2 ^ Z.pos p) by (apply Z.pow_pos_nonneg; lia).
  - rewrite IH by (apply iter_pos_inv; auto using shr_1_nonneg).
    rewrite IH by now apply shr_1_nonneg.
    rewrite shr_1_div by assumption.
    rewrite !Z.div_div by nia. f_equal.
    replace (Z.pos p~1) with (1 + Z.pos p + Z.pos p) by lia.
    rewrite !Z.pow_add_r by lia. rewrite Z.pow_1_r. ring.
  - rewrite IH by (apply iter_pos_inv; auto using shr_1_nonneg).
    rewrite IH by assumption.
    rewrite !Z.div_div by nia. f_equal.
    replace (Z.pos p~0) with (Z.pos p + Z.pos p) by lia.
    now rewrite !Z.pow_add_r by lia.
  - rewrite shr_1_div by assumption. now rewrite Z.pow_1_r.
Qed.

Lemma shr_fexp_spec (m e : Z) (l : location) :
  0 <= m ->
  snd (shr_fexp F32.prec F32.emax m e l)
    = Z.max e (fexp F32.prec F32.emax (Zdigits2 m + e))
  /\ shr_m (fst (shr_fexp F32.prec F32.emax m e l))
    = m / 2 ^ (snd (shr_fexp F32.prec F32.emax m e l) - e).
Proof.
  intros Hm. unfold shr_fexp, shr.
  destruct (fexp F32.prec F32.emax (Zdigits2 m + e) - e) as [|p|p] eqn:En;
    cbn [fst snd].
  - split; [lia|]. rewrite Z.sub_diag, Z.pow_0_r, Z.div_1_r. apply shr_m_of_loc.
  - split; [lia|]. rewrite iter_shr_1_div by (rewrite shr_m_of_loc; lia).
    rewrite shr_m_of_loc. do 2 f_equal. lia.
  - split; [lia|]. rewrite Z.sub_diag, Z.pow_0_r, Z.div_1_r. apply shr_m_of_loc.
Qed.

Lemma round_nearest_even_le (m : Z) (l : location) :
  m <= round_nearest_even m l <= m + 1.
Proof.
  unfold round_nearest_even. destruct l as [|[]]; try lia.
  destruct (Z.even m); lia.
Qed.

Lemma fexp_le (x T : Z) :
  -149 <= T -> x - 24 <= T -> fexp F32.prec F32.emax x <= T.
Proof. unfold fexp, emin, F32.prec, F32.emax. lia. Qed.

(** A non-negative mantissa whose value stays one unit in the last place
    below [2^(T+24)] rounds to zero or to a number with exponent at most [T]. *)
Lemma binary_round_aux_exponent (m e T : Z) (l : location) :
  0 <= m -> e <= T -> -149 <= T -> T <= 104 ->
  m < (2 ^ 24 - 1) * 2 ^ (T - e) ->
  match binary_round_aux F32.prec F32.emax false m e l with
  | S754_zero false => True
  | S754_finite false _ e' => e' <= T
  | _ => False
  end.
Proof.
  intros Hm He HT HT' Hlt. unfold binary_round_aux.
  destruct (shr_fexp_spec m e l Hm) as [E1 M1].
  destruct (shr_fexp F32.prec F32.emax m e l) as [mrs1 e1]. cbn [fst snd] in E1, M1.
  cbv zeta.
  assert (Hp : 0 < 2 ^ (T - e)) by (apply Z.pow_pos_nonneg; lia).
  assert (H1 : e1 <= T).
  { rewrite E1. apply Z.max_lub; [assumption|]. apply fexp_le; [assumption|].
    cut (Zdigits2 m <= T + 24 - e); [lia|].
    apply Zdigits2_le; [assumption|lia|].
    replace (T + 24 - e) with (24 + (T - e)) by lia.
    rewrite Z.pow_add_r by lia. nia. }
  assert (Hm1 : 0 <= shr_m mrs1).
  { rewrite M1. apply Z.div_pos; [assumption|]. apply Z.pow_pos_nonneg; lia. }
  assert (Hb1 : shr_m mrs1 < (2 ^ 24 - 1) * 2 ^ (T - e1)).
  { rewrite M1. apply Z.div_lt_upper_bound; [apply Z.pow_pos_nonneg; lia|].
    rewrite (Z.mul_comm (2 ^ (e1 - e))), <- Z.mul_assoc, <- Z.pow_add_r by lia.
    now replace (T - e1 + (e1 - e)) with (T - e) by lia. }
  pose proof (round_nearest_even_le (shr_m mrs1) (loc_of_shr_record mrs1)) as Hr.
  set (m2 := round_nearest_even (shr_m mrs1) (loc_of_shr_record mrs1)) in *.
  assert (Hm2 : 0 <= m2) by lia.
  destruct (shr_fexp_spec m2 e1 loc_Exact Hm2) as [E3 M3].
  destruct (shr_fexp F32.prec F32.emax m2 e1 loc_Exact) as [mrs3 e3].
  cbn [fst snd] in E3, M3.
  assert (H3 : e3 <= T).
  { rewrite E3. apply Z.max_lub; [assumption|]. apply fexp_le; [assumption|].
    cut (Zdigits2 m2 <= T + 24 - e1); [lia|].
    apply Zdigits2_le; [assumption|lia|].
    replace (T + 24 - e1) with (24 + (T - e1)) by lia.
    rewrite Z.pow_add_r by lia.
    assert (0 < 2 ^ (T - e1)) by (apply Z.pow_pos_nonneg; lia). nia. }
  assert (Hm3 : 0 <= shr_m mrs3).
  { rewrite M3. apply Z.div_pos; [assumption|]. apply Z.pow_pos_nonneg; lia. }
  destruct (shr_m mrs3) as [|p|p]; [exact I| |lia].
  unfold F32.emax, F32.prec.
  destruct (Z.leb_spec e3 (128 - 24)); [assumption|lia].
Qed.

Lemma Zdigits2_spec (p : positive) :
  2 ^ (Zdigits2 (Z.pos p) - 1) <= Z.pos p < 2 ^ Zdigits2 (Z.pos p).
Proof.
  rewrite Zdigits2_log2.
  replace (Z.log2 (Z.pos p) + 1 - 1) with (Z.log2 (Z.pos p)) by lia.
  apply (Z.log2_spec (Z.pos p)). lia.
Qed.

Lemma Zdigits2_unique (p : positive) (d : Z) :
  0 < d -> 2 ^ (d - 1) <= Z.pos p < 2 ^ d -> Zdigits2 (Z.pos p) = d.
Proof.
  intros Hd H. rewrite Zdigits2_log2.
  rewrite (Z.log2_unique (Z.pos p) (d - 1)); [lia|lia|].
  now replace (Z.succ (d - 1)) with d by lia.
Qed.


(** A mantissa already in canonical form is delivered unchanged. *)
Lemma binary_round_aux_canonical (s : bool) (m : positive) (e : Z) :
  canonical_mantissa F32.prec F32.emax m e = true ->
  e <= F32.emax - F32.prec ->
  binary_round_aux F32.prec F32.emax s (Z.pos m) e loc_Exact = S754_finite s m e.
Proof.
  unfold canonical_mantissa. intros Hc%Z.eqb_eq He.
  assert (H : shr_fexp F32.prec F32.emax (Z.pos m) e loc_Exact
              = ({| shr_m := Z.pos m; shr_r := false; shr_s := false |}, e)).
  { unfold shr_fexp. cbn [Zdigits2]. rewrite Hc, Z.sub_diag. reflexivity. }
  unfold binary_round_aux. rewrite H.
  cbn [shr_m loc_of_shr_record round_nearest_even]. rewrite H. cbn [shr_m].
  destruct (Z.leb_spec e (F32.emax - F32.prec)); [reflexivity | lia].
Qed.

(** An [int] below [2^24] converts exactly: the mantissa is the integer
    shifted up to 24 bits. *)
Lemma of_int_small (n : Z) :
  0 < n < 2 ^ 24 ->
  exists m,
    F32.of_int n = S754_finite false m (Zdigits2 n - 24) /\
    Z.pos m = n * 2 ^ (24 - Zdigits2 n) /\
    Zdigits2 (Z.pos m) = 24 /\
    F32.valid (S754_finite false m (Zdigits2 n - 24)) = true.
Proof.
  intros Hn. destruct n as [|p|p]; try lia.
  pose proof (Zdigits2_spec p) as Hd.
  assert (Hd1 : 1 <= Zdigits2 (Z.pos p)) by (cbn; lia).
  assert (Hd24 : Zdigits2 (Z.pos p) <= 24) by (apply Zdigits2_le; lia).
  set (d := Zdigits2 (Z.pos p)) in *.
  assert (Hshape : forall m, Z.pos m = Z.pos p * 2 ^ (24 - d) ->
            Zdigits2 (Z.pos m) = 24 /\
            canonical_mantissa F32.prec F32.emax m (d - 24) = true).
  { intros m Hm.
    assert (E : Zdigits2 (Z.pos m) = 24).
    { apply Zdigits2_unique; [lia|]. rewrite Hm.
      assert (0 < 2 ^ (24 - d)) by (apply Z.pow_pos_nonneg; lia).
      replace (2 ^ (24 - 1)) with (2 ^ (d - 1) * 2 ^ (24 - d))
        by (rewrite <- Z.pow_add_r by lia; f_equal; lia).
      replace (2 ^ 24) with (2 ^ d * 2 ^ (24 - d))
        by (rewrite <- Z.pow_add_r by lia; f_equal; lia).
      nia. }
    split; [exact E|].
    unfold canonical_mantissa. cbn [Zdigits2] in E. rewrite E.
    apply Z.eqb_eq. unfold fexp, emin, F32.prec, F32.emax. lia. }
  unfold F32.of_int, binary_normalize, binary_round, shl_align.
  fold (Zdigits2 (Z.pos p)). fold d.
  replace (fexp F32.prec F32.emax (d + 0)) with (d - 24)
    by (unfold fexp, emin, F32.prec, F32.emax; lia).
  destruct (d - 24 - 0) as [|q|q] eqn:Eq; try lia.
  - assert (Hm : Z.pos p = Z.pos p * 2 ^ (24 - d))
      by (replace (24 - d) with 0 by lia; lia).
    destruct (Hshape p Hm) as [E C].
    exists p. replace (d - 24) with 0 in * by lia.
    split; [apply binary_round_aux_canonical; [exact C | unfold F32.emax, F32.prec; lia]|].
    split; [exact Hm|]. split; [exact E|].
    unfold F32.valid, valid_binary, bounded. rewrite C. reflexivity.
  - assert (Hm : Z.pos (Pos.iter xO p q) = Z.pos p * 2 ^ (24 - d)).
    { fold (shift_pos q p). rewrite shift_pos_correct.
      change (Z.pow_pos 2 q) with (2 ^ Z.pos q).
      replace (24 - d) with (Z.pos q) by lia. lia. }
    destruct (Hshape _ Hm) as [E C].
    exists (Pos.iter xO p q).
    split; [apply binary_round_aux_canonical; [exact C | unfold F32.emax, F32.prec; lia]|].
    split; [exact Hm|]. split; [exact E|].
    unfold F32.valid, valid_binary, bounded. rewrite C.
    apply Z.leb_le. unfold F32.emax, F32.prec. lia.
Qed.



Lemma Forall_draws (P : float32 -> Prop) rand_seq randomAmplitude finesse p k :
  (forall i, P (scaled randomAmplitude finesse (Z.rem (rand_seq i) finesse))) ->
  Forall P (draws rand_seq randomAmplitude finesse p k).
Proof.
  intros H. unfold draws. apply Forall_fmap, Forall_forall. intros i _. apply H.
Qed.

Lemma Forall_draws_mat (P : float32 -> Prop) rand_seq randomAmplitude finesse p rows cols :
  (forall i, P (scaled randomAmplitude finesse (Z.rem (rand_seq i) finesse))) ->
  Forall (Forall P) (draws_mat rand_seq randomAmplitude finesse p rows cols).
Proof.
  intros H. revert p. induction rows as [|r IH]; intros p; simpl; constructor.
  - now apply Forall_draws.
  - apply IH.
Qed.

(** ** Claims about [init] *)



(** C6, as amended. For a valid topology, a non-zero [finesse], outer
    containers with at least one row per layer ([a]) and per non-input
    layer (the other F32.five), and [deltaWeights] matrices whose rows already
    present have the width of their layer (empty matrices in particular):
    [init] returns; row [L] of [a] has the width of layer [L]; row [L - 1]
    of [z], [bias], [deltaBias] has the width of layer [L]; matrix
    [L - 1] of [weights] and [deltaWeights] is width [L - 1] by width [L];
    the outer row counts are the ones supplied, so the container counts of
    the data model hold when the caller supplied exactly those. *)
Theorem init_shapes
    (rand_seq : nat -> Z) (structure : list Z) (randomAmplitude : float32)
    (finesse : Z) (w : world) :
  valid_topology structure ->
  finesse <> 0 ->
  outer_ok structure (w_net w) ->
  (forall jj cur m, structure !! S jj = Some cur ->
     deltaWeights (w_net w) !! jj = Some m ->
     Forall (fun r => length r = Z.to_nat cur) m) ->
  exists w',
    init rand_seq structure randomAmplitude finesse w = Ret tt w' /\
    row_shapes structure (w_net w') /\
    same_outer (w_net w) (w_net w') /\
    (shapes_ok structure (w_net w) -> shapes_ok structure (w_net w')) /\
    (length (a (w_net w)) = length structure ->
     length (z (w_net w)) = (length structure - 1)%nat ->
     length (bias (w_net w)) = (length structure - 1)%nat ->
     length (deltaBias (w_net w)) = (length structure - 1)%nat ->
     length (weights (w_net w)) = (length structure - 1)%nat ->
     length (deltaWeights (w_net w)) = (length structure - 1)%nat ->
     shapes_ok structure (w_net w')).
Proof.
  intros [Hlen Hpos] Hfin Hok Hstale.
  assert (Hnn : Forall (fun x => 0 <= x) structure)
    by (eapply Forall_impl; [exact Hpos | intros; cbv beta in *; lia]).
  exists (init_pure rand_seq randomAmplitude finesse structure w).
  pose proof (init_pure_outer rand_seq randomAmplitude finesse structure w) as Hso.
  assert (Hrows : row_shapes structure
                    (w_net (init_pure rand_seq randomAmplitude finesse structure w))).
  { destruct Hok as (Ha & Hz & Hb & Hdb & Hw & Hdw). split.
    - intros L wd HL. rewrite (init_pure_a _ _ _ _ _ _ _ HL).
      destruct (lookup_lt_is_Some_2 (a (w_net w)) L) as [r Hr].
      { apply lookup_lt_Some in HL. lia. }
      rewrite Hr. eexists; split; [reflexivity | apply length_resize].
    - intros jj prev cur Hp Hc.
      destruct (init_pure_at rand_seq randomAmplitude finesse structure w jj prev cur Hp Hc)
        as (Ez & Eb & Edb & Ew & Edw).
      assert (Hjj : (jj < length structure - 1)%nat)
        by (apply lookup_lt_Some in Hc; lia).
      destruct (lookup_lt_is_Some_2 (z (w_net w)) jj) as [rz Hrz]; [lia|].
      destruct (lookup_lt_is_Some_2 (bias (w_net w)) jj) as [rb Hrb]; [lia|].
      destruct (lookup_lt_is_Some_2 (deltaBias (w_net w)) jj) as [rdb Hrdb]; [lia|].
      destruct (lookup_lt_is_Some_2 (weights (w_net w)) jj) as [rw Hrw]; [lia|].
      destruct (lookup_lt_is_Some_2 (deltaWeights (w_net w)) jj) as [rdw Hrdw]; [lia|].
      rewrite Ez, Eb, Edb, Ew, Edw, Hrz, Hrb, Hrdb, Hrw, Hrdw. cbn [fmap option_fmap option_map].
      repeat split.
      + eexists; split; [reflexivity | apply length_resize].
      + eexists; split; [reflexivity | apply length_draws].
      + eexists; split; [reflexivity | apply length_resize].
      + eexists; split; [reflexivity | split; [apply length_draws_mat|]].
        apply Forall_lookup_2. intros i r Hi.
        assert (Hlt : (i < Z.to_nat prev)%nat).
        { apply lookup_lt_Some in Hi. now rewrite length_draws_mat in Hi. }
        rewrite lookup_draws_mat in Hi by assumption. injection Hi as <-.
        apply length_draws.
      + eexists; split; [reflexivity | split; [apply length_resize|]].
        apply Forall_resize; [apply length_replicate | eauto]. }
  split; [now apply init_Ret|]. split; [exact Hrows|]. split; [exact Hso|].
  destruct Hso as (Ea & Ez & Eb & Edb & Ew & Edw).
  split.
  - intros (Ha & Hz & Hb & Hdb & Hw & Hdw & _).
    unfold shapes_ok. rewrite Ea, Ez, Eb, Edb, Ew, Edw.
    repeat (split; [assumption|]). exact Hrows.
  - intros Ha Hz Hb Hdb Hw Hdw.
    unfold shapes_ok. rewrite Ea, Ez, Eb, Edb, Ew, Edw.
    repeat (split; [assumption|]). exact Hrows.
Qed.

Lemma init_shapes_witness :
  exists w',
    init example_rand [2; 3; 1] F32.one 1000 (fresh_world 3) = Ret tt w' /\
    row_shapes [2; 3; 1] (w_net w') /\
    shapes_ok [2; 3; 1] (w_net w').
Proof.
  destruct (init_shapes example_rand [2; 3; 1] F32.one 1000 (fresh_world 3))
    as (w' & Hret & Hrows & _ & _ & Hshapes).
  - split; [cbn; lia | repeat constructor; lia].
  - lia.
  - unfold outer_ok. cbn. lia.
  - intros jj cur m _ Hm. destruct jj as [|[|jj]]; cbn in Hm;
      try discriminate; injection Hm as <-; constructor.
  - exists w'. split; [exact Hret|]. split; [exact Hrows|].
    apply Hshapes; reflexivity.
Defined.

(** C6 as stated fails: with a valid topology [init] is undefined when
    the caller's outer containers are empty; with more rows of [a] than
    layers it leaves them there; and a row that [deltaWeights] already
    holds keeps its old width. *)
Lemma init_shapes_counterexample :
  valid_topology [2; 3] /\
  init example_rand [2; 3] F32.one 1000 (mkWorld (mkNet [] [] [] [] [] []) 0)
    = Undef OutOfBounds /\
  (exists w', init example_rand [2; 3] F32.one 1000 (fresh_world 3) = Ret tt w' /\
              length (a (w_net w')) = 3%nat /\
              ~ shapes_ok [2; 3] (w_net w')) /\
  (exists w', init example_rand [1; 2] F32.one 1000
                (mkWorld (mkNet [[]] [[]; []] [[]] [[]] [[]] [[[F32.zero]]]) 0) = Ret tt w' /\
              deltaWeights (w_net w') = [[[F32.zero]]] /\
              ~ shapes_ok [1; 2] (w_net w')).
Proof.
  split; [split; [cbn; lia | repeat constructor; lia]|].
  split; [reflexivity|]. split.
  - eexists. split; [vm_compute; reflexivity|]. split; [reflexivity|].
    intros (Ha & _). cbn in Ha. discriminate.
  - eexists. split; [vm_compute; reflexivity|]. split; [reflexivity|].
    intros (_ & _ & _ & _ & _ & _ & _ & H).
    destruct (H 0%nat 1 2 eq_refl eq_refl) as (_ & _ & _ & _ & m & Hm & _ & Hf).
    cbn in Hm. injection Hm as <-.
    apply Forall_cons in Hf as [Hf _]. cbn in Hf. discriminate.
Qed.


(** C9, as amended. [init] only resizes [deltaBias] and [deltaWeights]:
    [resize] keeps the elements already there and value-initialises the
    new ones, and the random draws go to [bias] and [weights] alone. So
    if every entry these two containers hold on entry is [+0.0f] (as when
    their rows are still empty), every entry they hold after [init] is
    [+0.0f], whether [init] returns or throws; and with non-negative
    widths, a non-zero [finesse] and outer containers that are large
    enough, [init] does return. *)
Theorem init_deltas_zero
    (rand_seq : nat -> Z) (structure : list Z) (randomAmplitude : float32)
    (finesse : Z) (w : world) :
  zero_deltas (w_net w) ->
  (forall x w', init rand_seq structure randomAmplitude finesse w = Ret x w' ->
     zero_deltas (w_net w')) /\
  (forall e w', init rand_seq structure randomAmplitude finesse w = Throw e w' ->
     zero_deltas (w_net w')) /\
  (Forall (fun x => 0 <= x) structure -> finesse <> 0 -> outer_ok structure (w_net w) ->
     exists w', init rand_seq structure randomAmplitude finesse w = Ret tt w' /\
                zero_deltas (w_net w')).
Proof.
  intros Hzero.
  pose proof (init_zero_deltas rand_seq structure randomAmplitude finesse) as K.
  split; [|split].
  - intros x w' H. exact (keeps_Ret _ _ _ _ _ K H Hzero).
  - intros e w' H. exact (keeps_Throw _ _ _ _ _ K H Hzero).
  - intros Hall Hfin Hok. eexists. split; [now apply init_Ret|].
    refine (keeps_Ret _ _ _ _ _ K _ Hzero). now apply init_Ret.
Qed.

Lemma init_deltas_zero_witness :
  exists w', init example_rand [2; 3; 1] F32.one 1000 (fresh_world 3) = Ret tt w' /\
             zero_deltas (w_net w').
Proof.
  destruct (init_deltas_zero example_rand [2; 3; 1] F32.one 1000 (fresh_world 3))
    as (_ & _ & H).
  - split; cbn; repeat constructor.
  - apply H; [repeat constructor; lia | lia | unfold outer_ok; cbn; lia].
Defined.

(** C9 as stated fails: entries that [deltaBias] and [deltaWeights] hold
    before the call survive it. *)
Lemma init_deltas_zero_counterexample :
  exists w',
    init example_rand [1; 1] F32.one 1000
      (mkWorld (mkNet [[]] [[]; []] [[]] [[F32.five]] [[]] [[[F32.five]]]) 0) = Ret tt w' /\
    deltaBias (w_net w') = [[F32.five]] /\
    deltaWeights (w_net w') = [[[F32.five]]] /\
    ~ zero_deltas (w_net w').
Proof.
  eexists. split; [vm_compute; reflexivity|].
  split; [reflexivity|]. split; [reflexivity|].
  intros [Hb _]. cbn in Hb.
  apply Forall_cons in Hb as [Hb _]. apply Forall_cons in Hb as [Hb _].
  discriminate.
Qed.

(** C7, as amended. [init] does not validate the topology and signals no
    InvalidTopology. Given a topology that is not valid, a non-zero
    [finesse] and outer containers that are large enough: if no width is
    negative (fewer than two entries, or widths of zero), [init] returns
    normally and leaves what it leaves for any topology (nothing changed
    for the empty one, only [a[0]] resized for a single entry); if a
    width is negative, the [resize] of that layer's row of [a] throws
    [std::length_error], after the layers before it have been resized
    and filled. *)
Theorem init_no_validation
    (rand_seq : nat -> Z) (structure : list Z) (randomAmplitude : float32)
    (finesse : Z) (w : world) :
  ~ valid_topology structure ->
  finesse <> 0 ->
  outer_ok structure (w_net w) ->
  (Forall (fun x => 0 <= x) structure /\
   init rand_seq structure randomAmplitude finesse w
     = Ret tt (init_pure rand_seq randomAmplitude finesse structure w) /\
   (structure = [] -> init_pure rand_seq randomAmplitude finesse structure w = w) /\
   (forall w0, structure = [w0] ->
      init_pure rand_seq randomAmplitude finesse structure w
        = input_step (Z.to_nat w0) w)) \/
  (exists good neg rest,
     structure = good ++ neg :: rest /\ Forall (fun x => 0 <= x) good /\ neg < 0 /\
     init rand_seq structure randomAmplitude finesse w
       = Throw LengthError (init_pure rand_seq randomAmplitude finesse good w)).
Proof.
  intros _ Hfin Hok.
  destruct (widths_split structure) as [Hall|(good & neg & rest & -> & Hg & Hn)].
  - left. split; [assumption|]. split; [now apply init_Ret|].
    split; [now intros ->|]. now intros w0 ->.
  - right. exists good, neg, rest. repeat split; try assumption.
    apply init_Throw; eauto using outer_ok_prefix.
Qed.

Lemma init_no_validation_witness :
  (Forall (fun x => 0 <= x) [3] /\
   init example_rand [3] F32.one 1000 (fresh_world 1)
     = Ret tt (init_pure example_rand F32.one 1000 [3] (fresh_world 1)) /\
   ([3] = [] -> init_pure example_rand F32.one 1000 [3] (fresh_world 1) = fresh_world 1) /\
   (forall w0, [3] = [w0] ->
      init_pure example_rand F32.one 1000 [3] (fresh_world 1)
        = input_step (Z.to_nat w0) (fresh_world 1))) \/
  (exists good neg rest,
     [3] = good ++ neg :: rest /\ Forall (fun x => 0 <= x) good /\ neg < 0 /\
     init example_rand [3] F32.one 1000 (fresh_world 1)
       = Throw LengthError (init_pure example_rand F32.one 1000 good (fresh_world 1))).
Proof.
  apply (init_no_validation example_rand [3] F32.one 1000 (fresh_world 1)).
  - intros [H _]. cbn in H. lia.
  - lia.
  - unfold outer_ok. cbn. lia.
Defined.

(** C7 as stated fails: a topology of one entry, and one with a width of
    zero, are accepted and the containers are resized; a negative width
    throws [std::length_error] only after [a[0]] has been resized; the
    empty topology returns without any failure. *)
Lemma init_no_validation_counterexample :
  (~ valid_topology [3] /\
   exists w', init example_rand [3] F32.one 1000 (fresh_world 1) = Ret tt w' /\
              a (w_net w') = [[F32.zero; F32.zero; F32.zero]] /\
              w' <> fresh_world 1) /\
  (~ valid_topology [2; 0] /\
   exists w', init example_rand [2; 0] F32.one 1000 (fresh_world 2) = Ret tt w' /\
              w' <> fresh_world 2) /\
  (~ valid_topology [2; -1] /\
   exists w', init example_rand [2; -1] F32.one 1000 (fresh_world 2)
                = Throw LengthError w' /\
              a (w_net w') = [[F32.zero; F32.zero]; []] /\
              w' <> fresh_world 2) /\
  (~ valid_topology [] /\
   init example_rand [] F32.one 1000 (fresh_world 0) = Ret tt (fresh_world 0)).
Proof.
  repeat split.
  - intros [H _]. cbn in H. lia.
  - eexists. split; [vm_compute; reflexivity|]. split; [reflexivity | discriminate].
  - intros [_ H]. apply Forall_cons in H as [_ H]. apply Forall_cons in H as [H _]. lia.
  - eexists. split; [vm_compute; reflexivity | discriminate].
  - intros [_ H]. apply Forall_cons in H as [_ H]. apply Forall_cons in H as [H _]. lia.
  - eexists. split; [vm_compute; reflexivity|]. split; [reflexivity | discriminate].
  - intros [H _]. cbn in H. lia.
Qed.

(** ** The values [init] draws *)





(** ** Facts about the propagation passes *)

Import Propagation.

(** *** Shapes *)

Lemma rows_shaped_spec (ws : list nat) (rows : list vec) :
  rows_shaped ws rows = true <-> length <$> rows = ws.
Proof. unfold rows_shaped. now rewrite bool_decide_eq_true. Qed.

Lemma rows_shaped_length (ws : list nat) (rows : list vec) :
  rows_shaped ws rows = true -> length rows = length ws.
Proof. intros H%rows_shaped_spec. now rewrite <- H, length_fmap. Qed.

Lemma rows_shaped_row (ws : list nat) (rows : list vec) (l : nat) :
  rows_shaped ws rows = true -> (l < length ws)%nat ->
  length (rows !!! l) = ws !!! l.
Proof.
  intros H%rows_shaped_spec Hl. rewrite <- H.
  rewrite (list_lookup_total_fmap length rows l); [reflexivity|].
  now rewrite <- H, length_fmap in Hl.
Qed.

Lemma forward_shaped_inv (structure : list Z) (st : net) :
  forward_shaped structure st = true ->
  rows_shaped (widths structure) (a st) = true /\
  rows_shaped (drop 1 (widths structure)) (z st) = true /\
  rows_shaped (drop 1 (widths structure)) (bias st) = true /\
  mats_shaped (widths structure) (weights st) = true.
Proof.
  unfold forward_shaped. rewrite !andb_true_iff. tauto.
Qed.

Lemma backward_shaped_inv (structure : list Z) (st : net) :
  backward_shaped structure st = true ->
  forward_shaped structure st = true /\
  rows_shaped (drop 1 (widths structure)) (deltaBias st) = true /\
  mats_shaped (widths structure) (deltaWeights st) = true.
Proof.
  unfold backward_shaped. rewrite !andb_true_iff. tauto.
Qed.

Lemma length_widths (structure : list Z) : length (widths structure) = length structure.
Proof. unfold widths. apply length_fmap. Qed.

(** *** The forward pass in closed form *)

Lemma forward_from_frame (acts : list activation) (l : nat) (st : net) :
  bias (forward_from l acts st) = bias st /\
  deltaBias (forward_from l acts st) = deltaBias st /\
  weights (forward_from l acts st) = weights st /\
  deltaWeights (forward_from l acts st) = deltaWeights st.
Proof.
  revert l st. induction acts as [|f acts IH]; intros l st; simpl.
  - now repeat split.
  - destruct (IH (S l) (forward_layer f l st)) as (-> & -> & -> & ->). now repeat split.
Qed.

Lemma forward_from_feed (acts : list activation) (l : nat) (st : net) :
  length (z st) = (l + length acts)%nat ->
  length (a st) = S (l + length acts) ->
  z (forward_from l acts st)
    = take l (z st) ++ (fst <$> feed l acts (bias st) (weights st) (a st !!! l)) /\
  a (forward_from l acts st)
    = take (S l) (a st) ++ (snd <$> feed l acts (bias st) (weights st) (a st !!! l)).
Proof.
  revert l st. induction acts as [|f acts IH]; intros l st Hz Ha; cbn [length] in *.
  - cbn. rewrite !app_nil_r, !take_ge by lia. now split.
  - cbn [forward_from feed fmap list_fmap fst snd].
    set (zl := (fun j => pre_activation (bias st !!! l) (a st !!! l) (weights st !!! l) j)
                 <$> seq 0 (length (bias st !!! l))).
    destruct (IH (S l) (forward_layer f l st)) as [Ez Ea].
    { cbn. rewrite length_insert. lia. }
    { cbn. rewrite length_insert. lia. }
    rewrite Ez, Ea. cbn [forward_layer z a bias weights]. fold zl.
    rewrite list_lookup_total_insert_eq by lia.
    rewrite (take_S_r _ _ zl) by (apply list_lookup_insert_eq; lia).
    rewrite (take_S_r _ (S l) (fn f <$> zl)) by (apply list_lookup_insert_eq; lia).
    rewrite !take_insert_ge by lia.
    rewrite <- !app_assoc. now split.
Qed.

(** [forwardPropagation] returns when its preconditions hold, and what
    it leaves in [z] and [a] depends on the input, the biases and the
    weights alone. *)
Lemma forwardPropagation_Ok activationFunction (structure : list Z) (inputState : vec)
    (st : net) (names : option (list string)) (acts : list activation) :
  resolve activationFunction (length structure) names = Ok acts ->
  valid_topologyb structure = true ->
  forward_shaped structure st = true ->
  length inputState = widths structure !!! O ->
  length acts = (length structure - 1)%nat ->
  forwardPropagation activationFunction structure inputState st names
  = Ok (mkNet (forward_z acts (bias st) (weights st) inputState)
              (forward_a acts (bias st) (weights st) inputState)
              (bias st) (deltaBias st) (weights st) (deltaWeights st)).
Proof.
  intros Hres Htop Hsh Hin Hacts.
  unfold forwardPropagation. rewrite Hres. cbn [rbind].
  rewrite Htop, Hsh. cbn [negb andb].
  rewrite !bool_decide_eq_true_2 by assumption. cbn [negb andb].
  apply forward_shaped_inv in Hsh as (Sa & Sz & _).
  apply rows_shaped_length in Sa, Sz.
  rewrite length_widths in Sa. rewrite length_drop, length_widths in Sz.
  unfold valid_topologyb in Htop. apply andb_true_iff in Htop as [Hn _].
  apply Nat.leb_le in Hn.
  destruct (forward_from_feed acts 0 (store_input inputState st)) as [Ez Ea].
  { cbn. lia. }
  { cbn. rewrite length_insert. lia. }
  destruct (forward_from_frame acts 0 (store_input inputState st)) as (Eb & Edb & Ew & Edw).
  f_equal.
  destruct (forward_from 0 acts (store_input inputState st)) as [z' a' b' db' w' dw'].
  cbn [z a bias deltaBias weights deltaWeights store_input] in *.
  subst. unfold forward_z, forward_a.
  rewrite take_0, app_nil_l.
  rewrite list_lookup_total_insert_eq by lia.
  destruct (a st) as [|a0 arest]; [cbn in Sa; lia|]. reflexivity.
Qed.

(** Row [k] of what [feed] computes, for the activations [prev] of the
    layer before row [s]. *)
Lemma feed_lookup (acts : list activation) (s : nat) (bs : list vec) (ws : list mat)
    (prev : vec) (k : nat) (f : activation) :
  acts !! k = Some f ->
  let before := (prev :: (snd <$> feed s acts bs ws prev)) !!! k in
  let zl := (fun j => pre_activation (bs !!! (s + k)%nat) before (ws !!! (s + k)%nat) j)
              <$> seq 0 (length (bs !!! (s + k)%nat)) in
  feed s acts bs ws prev !! k = Some (zl, fn f <$> zl).
Proof.
  revert s prev k. induction acts as [|f0 acts IH]; intros s prev k Hk; [discriminate|].
  destruct k as [|k].
  - injection Hk as ->. cbn. now rewrite Nat.add_0_r.
  - cbn in Hk. cbn zeta. cbn [feed fmap list_fmap snd].
    rewrite lookup_cons_ne_0 by lia. cbn [Nat.pred].
    rewrite lookup_total_cons_ne_0 by lia. cbn [Nat.pred].
    replace (s + S k)%nat with (S s + k)%nat by lia.
    now apply IH.
Qed.

Lemma length_feed (acts : list activation) (s : nat) (bs : list vec) (ws : list mat)
    (prev : vec) :
  length (feed s acts bs ws prev) = length acts.
Proof.
  revert s prev. induction acts as [|f acts IH]; intros s prev; simpl; [|rewrite IH]; reflexivity.
Qed.

(** *** Updates that go row by row *)
Section Rowwise.
Context {X : Type}.
Variable upd : net -> nat -> net.
Variable get : net -> list X.

Lemma foldl_unchanged (ls : list nat) (st : net) :
  (forall st l, get (upd st l) = get st) ->
  get (foldl upd st ls) = get st.
Proof.
  intros H. revert st. induction ls as [|l ls IH]; intros st; simpl; [reflexivity|].
  now rewrite IH, H.
Qed.

Variable new : net -> nat -> X.
Hypothesis upd_get : forall st l, get (upd st l) = <[l := new st l]> (get st).
Hypothesis upd_new : forall st s l, s <> l -> new (upd st s) l = new st l.

(** Each row is replaced once, by a value computed from the state
    before the loop. *)
Lemma foldl_rowwise (k s : nat) (st : net) :
  length (get st) = (s + k)%nat ->
  get (foldl upd st (seq s k)) = take s (get st) ++ (new st <$> seq s k).
Proof.
  revert s st. induction k as [|k IH]; intros s st Hlen.
  - simpl. now rewrite app_nil_r, take_ge by lia.
  - cbn [seq foldl fmap list_fmap].
    rewrite IH by (rewrite upd_get, length_insert; lia).
    rewrite upd_get.
    rewrite (take_S_r _ _ (new st s)) by (apply list_lookup_insert_eq; lia).
    rewrite take_insert_ge by lia. rewrite <- app_assoc. cbn [app].
    do 2 f_equal. apply list_fmap_ext. intros i l Hl.
    apply lookup_seq in Hl as [-> _]. apply upd_new. lia.
Qed.

End Rowwise.

Lemma fmap_seq_zip_with {A B C} `{!Inhabited A, !Inhabited B}
    (f : A -> B -> C) (xs : list A) (ys : list B) (k : nat) :
  length xs = k -> length ys = k ->
  (fun l => f (xs !!! l) (ys !!! l)) <$> seq 0 k = zip_with f xs ys.
Proof.
  intros Hx Hy. apply list_eq. intros i.
  rewrite list_lookup_fmap, lookup_zip_with.
  destruct (decide (i < k)%nat) as [Hi|Hi].
  - rewrite lookup_seq_lt by assumption. cbn.
    rewrite (list_lookup_lookup_total_lt xs i) by lia.
    rewrite (list_lookup_lookup_total_lt ys i) by lia. reflexivity.
  - rewrite lookup_seq_ge by lia. cbn.
    now rewrite (lookup_ge_None_2 xs i) by lia.
Qed.

Lemma fmap_seq_zip_with3 {A B C D} `{!Inhabited A, !Inhabited B, !Inhabited C}
    (f : A -> B -> C -> D) (xs : list A) (ys : list B) (zs : list C) (k : nat) :
  length xs = k -> length ys = k -> (k <= length zs)%nat ->
  (fun l => f (xs !!! l) (ys !!! l) (zs !!! l)) <$> seq 0 k
  = zip_with (fun x yz => f x yz.1 yz.2) xs (zip ys zs).
Proof.
  intros Hx Hy Hz. apply list_eq. intros i.
  rewrite list_lookup_fmap, (lookup_zip_with _ xs (zip ys zs) i).
  destruct (decide (i < k)%nat) as [Hi|Hi].
  - assert (Hyz : zip ys zs !! i = Some (ys !!! i, zs !!! i)).
    { rewrite lookup_zip_with.
      rewrite (list_lookup_lookup_total_lt ys i) by lia. cbn.
      now rewrite (list_lookup_lookup_total_lt zs i) by lia. }
    rewrite lookup_seq_lt by assumption. cbn.
    rewrite (list_lookup_lookup_total_lt xs i) by lia. cbn.
    rewrite Hyz. reflexivity.
  - rewrite lookup_seq_ge by lia. cbn.
    now rewrite (lookup_ge_None_2 xs i) by lia.
Qed.

(** *** The backward pass in closed form *)
Section UpdateLayers.
Variables momentumFactor learningRate : float32.
Variable deltas : list vec.

Local Abbreviation upd learningType :=
  (update_layer momentumFactor learningRate learningType deltas).

Lemma update_layers_za (learningType : string) (ls : list nat) (st : net) :
  z (foldl (upd learningType) st ls) = z st /\
  a (foldl (upd learningType) st ls) = a st.
Proof.
  split; apply foldl_unchanged; intros st' l; unfold update_layer;
    destruct (String.eqb learningType "online"), (String.eqb learningType "batch");
    reflexivity.
Qed.

(** Any mode but ["online"] and ["batch"]: the pending deltas are
    stored, weights and biases stay. *)
Lemma update_layers_accumulate (learningType : string) (st : net) (k : nat) :
  String.eqb learningType "online" = false ->
  String.eqb learningType "batch" = false ->
  length (deltaBias st) = k -> length (deltaWeights st) = k ->
  length deltas = k -> (k <= length (a st))%nat ->
  foldl (upd learningType) st (seq 0 k)
  = mkNet (z st) (a st) (bias st)
          (zip_with (pending_bias momentumFactor learningRate) (deltaBias st) deltas)
          (weights st)
          (zip_with (fun old da =>
                       pending_weights momentumFactor learningRate old da.1 da.2)
                    (deltaWeights st) (zip deltas (a st))).
Proof.
  intros Ho Hb Hdb Hdw Hd Ha.
  destruct (update_layers_za learningType (seq 0 k) st) as [Ez Ea].
  assert (Eb : bias (foldl (upd learningType) st (seq 0 k)) = bias st).
  { apply foldl_unchanged. intros st' l. unfold update_layer. now rewrite Ho, Hb. }
  assert (Ew : weights (foldl (upd learningType) st (seq 0 k)) = weights st).
  { apply foldl_unchanged. intros st' l. unfold update_layer. now rewrite Ho, Hb. }
  assert (Edb : deltaBias (foldl (upd learningType) st (seq 0 k))
                = zip_with (pending_bias momentumFactor learningRate) (deltaBias st) deltas).
  { rewrite (foldl_rowwise (upd learningType) deltaBias
               (fun st l => pending_bias momentumFactor learningRate
                              (deltaBias st !!! l) (deltas !!! l))).
    - rewrite take_0, app_nil_l. now apply fmap_seq_zip_with.
    - intros st' l. unfold update_layer. now rewrite Ho, Hb.
    - intros st' s l Hne. unfold update_layer. rewrite Ho, Hb. cbn.
      now rewrite list_lookup_total_insert_ne.
    - cbn. lia. }
  assert (Edw : deltaWeights (foldl (upd learningType) st (seq 0 k))
                = zip_with (fun old da =>
                              pending_weights momentumFactor learningRate old da.1 da.2)
                           (deltaWeights st) (zip deltas (a st))).
  { rewrite (foldl_rowwise (upd learningType) deltaWeights
               (fun st l => pending_weights momentumFactor learningRate
                              (deltaWeights st !!! l) (deltas !!! l) (a st !!! l))).
    - rewrite take_0, app_nil_l.
      now apply (fmap_seq_zip_with3 (pending_weights momentumFactor learningRate)).
    - intros st' l. unfold update_layer. now rewrite Ho, Hb.
    - intros st' s l Hne. unfold update_layer. rewrite Ho, Hb. cbn.
      now rewrite list_lookup_total_insert_ne.
    - cbn. lia. }
  destruct (foldl (upd learningType) st (seq 0 k)). cbn in *. congruence.
Qed.

(** ["batch"]: the stored deltas are added, and stay stored. *)
Lemma update_layers_batch (st : net) (k : nat) :
  length (bias st) = k -> length (weights st) = k ->
  length (deltaBias st) = k -> length (deltaWeights st) = k ->
  foldl (upd "batch") st (seq 0 k)
  = mkNet (z st) (a st)
          (zip_with add_vec (bias st) (deltaBias st)) (deltaBias st)
          (zip_with add_mat (weights st) (deltaWeights st)) (deltaWeights st).
Proof.
  intros Hb Hw Hdb Hdw.
  destruct (update_layers_za "batch" (seq 0 k) st) as [Ez Ea].
  assert (Edb : deltaBias (foldl (upd "batch") st (seq 0 k)) = deltaBias st).
  { apply foldl_unchanged. intros st' l. reflexivity. }
  assert (Edw : deltaWeights (foldl (upd "batch") st (seq 0 k)) = deltaWeights st).
  { apply foldl_unchanged. intros st' l. reflexivity. }
  assert (Eb : bias (foldl (upd "batch") st (seq 0 k))
               = zip_with add_vec (bias st) (deltaBias st)).
  { rewrite (foldl_rowwise (upd "batch") bias
               (fun st l => add_vec (bias st !!! l) (deltaBias st !!! l))).
    - rewrite take_0, app_nil_l. now apply fmap_seq_zip_with.
    - intros st' l. reflexivity.
    - intros st' s l Hne. cbn. now rewrite list_lookup_total_insert_ne.
    - cbn. lia. }
  assert (Ew : weights (foldl (upd "batch") st (seq 0 k))
               = zip_with add_mat (weights st) (deltaWeights st)).
  { rewrite (foldl_rowwise (upd "batch") weights
               (fun st l => add_mat (weights st !!! l) (deltaWeights st !!! l))).
    - rewrite take_0, app_nil_l. now apply fmap_seq_zip_with.
    - intros st' l. reflexivity.
    - intros st' s l Hne. cbn. now rewrite list_lookup_total_insert_ne.
    - cbn. lia. }
  destruct (foldl (upd "batch") st (seq 0 k)). cbn in *. congruence.
Qed.

(** ["online"]: the pending deltas are stored and added. *)
Lemma update_layers_online (st : net) (k : nat) :
  length (bias st) = k -> length (weights st) = k ->
  length (deltaBias st) = k -> length (deltaWeights st) = k ->
  length deltas = k -> (k <= length (a st))%nat ->
  let pb := zip_with (pending_bias momentumFactor learningRate) (deltaBias st) deltas in
  let pw := zip_with (fun old da =>
                        pending_weights momentumFactor learningRate old da.1 da.2)
                     (deltaWeights st) (zip deltas (a st)) in
  foldl (upd "online") st (seq 0 k)
  = mkNet (z st) (a st) (zip_with add_vec (bias st) pb) pb
          (zip_with add_mat (weights st) pw) pw.
Proof.
  intros Hb Hw Hdb Hdw Hd Ha pb pw.
  destruct (update_layers_za "online" (seq 0 k) st) as [Ez Ea].
  assert (Edb : deltaBias (foldl (upd "online") st (seq 0 k)) = pb).
  { rewrite (foldl_rowwise (upd "online") deltaBias
               (fun st l => pending_bias momentumFactor learningRate
                              (deltaBias st !!! l) (deltas !!! l))).
    - rewrite take_0, app_nil_l. now apply fmap_seq_zip_with.
    - intros st' l. reflexivity.
    - intros st' s l Hne. cbn. now rewrite list_lookup_total_insert_ne.
    - cbn. lia. }
  assert (Edw : deltaWeights (foldl (upd "online") st (seq 0 k)) = pw).
  { rewrite (foldl_rowwise (upd "online") deltaWeights
               (fun st l => pending_weights momentumFactor learningRate
                              (deltaWeights st !!! l) (deltas !!! l) (a st !!! l))).
    - rewrite take_0, app_nil_l.
      now apply (fmap_seq_zip_with3 (pending_weights momentumFactor learningRate)).
    - intros st' l. reflexivity.
    - intros st' s l Hne. cbn. now rewrite list_lookup_total_insert_ne.
    - cbn. lia. }
  assert (Eb : bias (foldl (upd "online") st (seq 0 k)) = zip_with add_vec (bias st) pb).
  { rewrite (foldl_rowwise (upd "online") bias
               (fun st l => add_vec (bias st !!! l)
                              (pending_bias momentumFactor learningRate
                                 (deltaBias st !!! l) (deltas !!! l)))).
    - rewrite take_0, app_nil_l. subst pb.
      rewrite <- (fmap_seq_zip_with (pending_bias momentumFactor learningRate)
                    (deltaBias st) deltas k) by assumption.
      rewrite <- (fmap_seq_zip_with add_vec (bias st) _ k)
        by (trivial; now rewrite length_fmap, length_seq).
      apply list_fmap_ext. intros i l Hl. apply lookup_seq in Hl as [-> Hl].
      cbn [Nat.add]. f_equal.
      rewrite (list_lookup_total_fmap _ (seq 0 k) i) by (now rewrite length_seq).
      now rewrite lookup_total_seq_lt.
    - intros st' l. reflexivity.
    - intros st' s l Hne. cbn. now rewrite !list_lookup_total_insert_ne.
    - cbn. lia. }
  assert (Ew : weights (foldl (upd "online") st (seq 0 k)) = zip_with add_mat (weights st) pw).
  { rewrite (foldl_rowwise (upd "online") weights
               (fun st l => add_mat (weights st !!! l)
                              (pending_weights momentumFactor learningRate
                                 (deltaWeights st !!! l) (deltas !!! l) (a st !!! l)))).
    - rewrite take_0, app_nil_l. subst pw.
      rewrite <- (fmap_seq_zip_with3 (pending_weights momentumFactor learningRate)
                    (deltaWeights st) deltas (a st) k) by assumption.
      rewrite <- (fmap_seq_zip_with add_mat (weights st) _ k)
        by (trivial; now rewrite length_fmap, length_seq).
      apply list_fmap_ext. intros i l Hl. apply lookup_seq in Hl as [-> Hl].
      cbn [Nat.add]. f_equal.
      rewrite (list_lookup_total_fmap _ (seq 0 k) i) by (now rewrite length_seq).
      now rewrite lookup_total_seq_lt.
    - intros st' l. reflexivity.
    - intros st' s l Hne. cbn. now rewrite !list_lookup_total_insert_ne.
    - cbn. lia. }
  destruct (foldl (upd "online") st (seq 0 k)). cbn in *. congruence.
Qed.

End UpdateLayers.

(** *** Lengths of what the passes compute *)

Lemma length_deltas_from (acts : list activation) (l : nat) (y : vec)
    (zs acs : list vec) (ws : list mat) :
  length (deltas_from l acts y zs acs ws) = length acts.
Proof.
  revert l. induction acts as [|f acts IH]; intros l; [reflexivity|].
  cbn [deltas_from]. destruct acts as [|f' acts]; [reflexivity|].
  cbn [length]. now rewrite IH.
Qed.

Lemma length_output_delta f out zl y : length (output_delta f out zl y) = length zl.
Proof. unfold output_delta. now rewrite length_fmap, length_seq. Qed.

Lemma length_hidden_delta f next W zl : length (hidden_delta f next W zl) = length zl.
Proof. unfold hidden_delta. now rewrite length_fmap, length_seq. Qed.

Lemma deltas_from_row_length (acts : list activation) (l : nat) (y : vec)
    (zs acs : list vec) (ws : list mat) (k : nat) :
  (k < length acts)%nat ->
  length (deltas_from l acts y zs acs ws !!! k) = length (zs !!! (l + k)%nat).
Proof.
  revert l k. induction acts as [|f acts IH]; intros l k Hk; [cbn in Hk; lia|].
  cbn [deltas_from]. destruct acts as [|f' acts].
  - destruct k as [|k]; [|cbn in Hk; lia].
    cbn. now rewrite length_output_delta, Nat.add_0_r.
  - destruct k as [|k].
    + cbn -[deltas_from]. now rewrite length_hidden_delta, Nat.add_0_r.
    + rewrite lookup_total_cons_ne_0 by lia. cbn [Nat.pred].
      replace (l + S k)%nat with (S l + k)%nat by lia.
      apply IH. cbn [length] in *. lia.
Qed.

Lemma deltas_from_shape (acts : list activation) (y : vec)
    (zs acs : list vec) (ws : list mat) :
  length zs = length acts ->
  length <$> deltas_from 0 acts y zs acs ws = length <$> zs.
Proof.
  intros Hlen. apply list_eq. intros k. rewrite !list_lookup_fmap.
  destruct (decide (k < length acts)%nat) as [Hk|Hk].
  - rewrite (list_lookup_lookup_total_lt (deltas_from _ _ _ _ _ _) k)
      by (now rewrite length_deltas_from).
    rewrite (list_lookup_lookup_total_lt zs k) by lia. cbn.
    now rewrite deltas_from_row_length.
  - rewrite (lookup_ge_None_2 (deltas_from _ _ _ _ _ _) k)
      by (rewrite length_deltas_from; lia).
    now rewrite (lookup_ge_None_2 zs k) by lia.
Qed.

Lemma feed_shape (acts : list activation) (s : nat) (bs : list vec) (ws : list mat)
    (prev : vec) :
  length bs = (s + length acts)%nat ->
  length <$> (fst <$> feed s acts bs ws prev) = length <$> drop s bs /\
  length <$> (snd <$> feed s acts bs ws prev) = length <$> drop s bs.
Proof.
  revert s prev. induction acts as [|f acts IH]; intros s prev Hlen; cbn [length] in *.
  - rewrite drop_ge by lia. now split.
  - cbn [feed fmap list_fmap fst snd].
    destruct (IH (S s) (fn f <$>
                ((fun j => pre_activation (bs !!! s) prev (ws !!! s) j)
                   <$> seq 0 (length (bs !!! s))))) as [E1 E2]; [lia|].
    rewrite E1, E2.
    rewrite (drop_S bs (bs !!! s) s) by (apply list_lookup_lookup_total_lt; lia).
    cbn [fmap list_fmap]. rewrite !length_fmap, length_seq. now split.
Qed.

Lemma pending_bias_shape m lr (old delta : list vec) :
  length <$> delta = length <$> old ->
  length <$> zip_with (pending_bias m lr) old delta = length <$> old.
Proof.
  revert delta. induction old as [|o old IH]; intros [|d delta] H; try discriminate; [reflexivity|].
  cbn in *. injection H as Hd H. rewrite IH by assumption.
  f_equal. unfold pending_bias. rewrite length_zip_with. lia.
Qed.

Lemma pending_weights_shape m lr (old : mat) (delta prev : vec) (p c : nat) :
  length <$> old = replicate p c -> length prev = p -> length delta = c ->
  length <$> pending_weights m lr old delta prev = replicate p c.
Proof.
  unfold pending_weights.
  revert prev p. induction old as [|row old IH]; intros [|x prev] [|p] H Hp Hd;
    cbn in *; try discriminate; try reflexivity.
  injection H as Hrow H. injection Hp as Hp.
  rewrite (IH prev p) by assumption. f_equal. rewrite length_zip_with. lia.
Qed.

Lemma mats_shaped_spec (ws : list nat) (ms : list mat) :
  mats_shaped ws ms = true <->
  (fun m : mat => length <$> m) <$> ms
  = zip_with (fun p c => replicate p c) ws (drop 1 ws).
Proof. unfold mats_shaped. now rewrite bool_decide_eq_true. Qed.

Lemma mats_shaped_length (ws : list nat) (ms : list mat) :
  mats_shaped ws ms = true -> length ms = (length ws - 1)%nat.
Proof.
  intros H%mats_shaped_spec.
  apply (f_equal length) in H. rewrite length_fmap, length_zip_with, length_drop in H. lia.
Qed.

Lemma pending_weights_list_shape m lr (ws : list nat) (olds : list mat)
    (deltas acs : list vec) :
  mats_shaped ws olds = true ->
  length <$> acs = ws ->
  length <$> deltas = drop 1 ws ->
  mats_shaped ws
    (zip_with (fun old da => pending_weights m lr old da.1 da.2) olds (zip deltas acs))
  = true.
Proof.
  intros Ho%mats_shaped_spec Ha Hd. apply mats_shaped_spec.
  revert ws deltas acs Ho Ha Hd.
  induction olds as [|old olds IH]; intros ws deltas acs Ho Ha Hd; [exact Ho|].
  destruct ws as [|p [|c ws]]; try discriminate.
  destruct acs as [|ap acs]; try discriminate.
  destruct deltas as [|d deltas]; try discriminate.
  cbn in Ho, Ha, Hd. injection Ho as Hold Ho. injection Ha as Hap Ha. injection Hd as Hdl Hd.
  cbn. f_equal.
  - now apply pending_weights_shape.
  - apply (IH (c :: ws)); assumption.
Qed.

(** *** The passes keep the shapes *)

Lemma widths_head (structure : list Z) :
  valid_topologyb structure = true ->
  widths structure = (widths structure !!! O) :: drop 1 (widths structure).
Proof.
  unfold valid_topologyb. intros [Hn _]%andb_true_iff. apply Nat.leb_le in Hn.
  destruct structure as [|w0 rest]; [cbn in Hn; lia | reflexivity].
Qed.

Lemma forward_result_shaped (structure : list Z) (acts : list activation)
    (inputState : vec) (st : net) :
  valid_topologyb structure = true ->
  backward_shaped structure st = true ->
  length inputState = widths structure !!! O ->
  length acts = (length structure - 1)%nat ->
  backward_shaped structure
    (mkNet (forward_z acts (bias st) (weights st) inputState)
           (forward_a acts (bias st) (weights st) inputState)
           (bias st) (deltaBias st) (weights st) (deltaWeights st)) = true.
Proof.
  intros Htop Hsh Hin Hacts.
  apply backward_shaped_inv in Hsh as (Hf & Hdb & Hdw).
  apply forward_shaped_inv in Hf as (Ha & Hz & Hb & Hw).
  unfold backward_shaped, forward_shaped. cbn [z a bias deltaBias weights deltaWeights].
  rewrite Hb, Hw, Hdb, Hdw, !andb_true_r.
  pose proof (rows_shaped_length _ _ Hb) as Lb.
  rewrite length_drop, length_widths in Lb.
  destruct (feed_shape acts 0 (bias st) (weights st) inputState) as [E1 E2];
    [cbn; lia|].
  rewrite drop_0 in E1, E2. apply rows_shaped_spec in Hb.
  apply andb_true_iff. split; apply rows_shaped_spec.
  - unfold forward_a. cbn [fmap list_fmap]. rewrite E2, Hb, Hin.
    symmetry. now apply widths_head.
  - unfold forward_z. now rewrite E1.
Qed.

Lemma forward_result_lengths (acts : list activation) (bs : list vec) (ws : list mat)
    (inputState : vec) :
  length (forward_z acts bs ws inputState) = length acts /\
  length (forward_a acts bs ws inputState) = S (length acts).
Proof.
  unfold forward_z, forward_a. cbn [length]. now rewrite !length_fmap, length_feed.
Qed.

Section BackwardOk.
Variable activationFunction : string -> option activation.
Variable structure : list Z.
Variable acts : list activation.
Variable names : option (list string).
Hypothesis names_ok : resolve activationFunction (length structure) names = Ok acts.
Hypothesis topology_ok : valid_topologyb structure = true.
Hypothesis acts_ok : length acts = (length structure - 1)%nat.

Lemma shaped_lengths (st : net) :
  backward_shaped structure st = true ->
  length (a st) = S (length acts) /\
  length (z st) = length acts /\
  length (bias st) = length acts /\
  length (deltaBias st) = length acts /\
  length (weights st) = length acts /\
  length (deltaWeights st) = length acts.
Proof.
  intros Hsh.
  apply backward_shaped_inv in Hsh as (Hf & Hdb & Hdw).
  apply forward_shaped_inv in Hf as (Ha & Hz & Hb & Hw).
  apply rows_shaped_length in Ha, Hz, Hb, Hdb.
  apply mats_shaped_length in Hw, Hdw.
  rewrite ?length_drop, ?length_widths in *.
  unfold valid_topologyb in topology_ok.
  apply andb_true_iff in topology_ok as [Hn _]. apply Nat.leb_le in Hn.
  repeat split; lia.
Qed.

Lemma backPropagation_fold (y : vec) (st : net) (learningRate momentumFactor : float32)
    (learningType : string) :
  backward_shaped structure st = true ->
  length y = widths structure !!! (length structure - 1)%nat ->
  backPropagation activationFunction structure y st learningRate momentumFactor
                  learningType names
  = Ok (foldl (update_layer momentumFactor learningRate learningType
                            (deltas_from O acts y (z st) (a st) (weights st)))
              st (seq 0 (length acts))).
Proof.
  intros Hsh Hy. unfold backPropagation. rewrite names_ok. cbn [rbind].
  rewrite topology_ok, Hsh. cbn [negb andb].
  now rewrite !bool_decide_eq_true_2 by assumption.
Qed.

(** Any mode but ["online"] and ["batch"]. *)
Lemma backPropagation_accumulate (y : vec) (st : net)
    (learningRate momentumFactor : float32) (learningType : string) :
  backward_shaped structure st = true ->
  length y = widths structure !!! (length structure - 1)%nat ->
  learningType <> "online"%string -> learningType <> "batch"%string ->
  let deltas := deltas_from O acts y (z st) (a st) (weights st) in
  backPropagation activationFunction structure y st learningRate momentumFactor
                  learningType names
  = Ok (mkNet (z st) (a st) (bias st)
              (zip_with (pending_bias momentumFactor learningRate) (deltaBias st) deltas)
              (weights st)
              (zip_with (fun old da =>
                           pending_weights momentumFactor learningRate old da.1 da.2)
                        (deltaWeights st) (zip deltas (a st)))).
Proof.
  intros Hsh Hy Ho Hb deltas. rewrite backPropagation_fold by assumption.
  destruct (shaped_lengths st Hsh) as (La & Lz & Lb & Ldb & Lw & Ldw).
  f_equal. apply update_layers_accumulate; trivial.
  - now apply String.eqb_neq.
  - now apply String.eqb_neq.
  - apply length_deltas_from.
  - lia.
Qed.

Lemma backPropagation_batch (y : vec) (st : net)
    (learningRate momentumFactor : float32) :
  backward_shaped structure st = true ->
  length y = widths structure !!! (length structure - 1)%nat ->
  backPropagation activationFunction structure y st learningRate momentumFactor
                  "batch" names
  = Ok (mkNet (z st) (a st)
              (zip_with add_vec (bias st) (deltaBias st)) (deltaBias st)
              (zip_with add_mat (weights st) (deltaWeights st)) (deltaWeights st)).
Proof.
  intros Hsh Hy. rewrite backPropagation_fold by assumption.
  destruct (shaped_lengths st Hsh) as (La & Lz & Lb & Ldb & Lw & Ldw).
  f_equal. now apply update_layers_batch.
Qed.

Lemma backPropagation_online (y : vec) (st : net)
    (learningRate momentumFactor : float32) :
  backward_shaped structure st = true ->
  length y = widths structure !!! (length structure - 1)%nat ->
  let deltas := deltas_from O acts y (z st) (a st) (weights st) in
  let pb := zip_with (pending_bias momentumFactor learningRate) (deltaBias st) deltas in
  let pw := zip_with (fun old da =>
                        pending_weights momentumFactor learningRate old da.1 da.2)
                     (deltaWeights st) (zip deltas (a st)) in
  backPropagation activationFunction structure y st learningRate momentumFactor
                  "online" names
  = Ok (mkNet (z st) (a st) (zip_with add_vec (bias st) pb) pb
              (zip_with add_mat (weights st) pw) pw).
Proof.
  intros Hsh Hy deltas pb pw. rewrite backPropagation_fold by assumption.
  destruct (shaped_lengths st Hsh) as (La & Lz & Lb & Ldb & Lw & Ldw).
  f_equal. apply update_layers_online; trivial.
  - apply length_deltas_from.
  - lia.
Qed.

(** After a backward pass in accumulation the containers still have
    their shapes. *)
Lemma accumulate_result_shaped (y : vec) (st : net)
    (learningRate momentumFactor : float32) :
  backward_shaped structure st = true ->
  let deltas := deltas_from O acts y (z st) (a st) (weights st) in
  backward_shaped structure
    (mkNet (z st) (a st) (bias st)
           (zip_with (pending_bias momentumFactor learningRate) (deltaBias st) deltas)
           (weights st)
           (zip_with (fun old da =>
                        pending_weights momentumFactor learningRate old da.1 da.2)
                     (deltaWeights st) (zip deltas (a st)))) = true.
Proof.
  intros Hsh deltas.
  destruct (shaped_lengths st Hsh) as (La & Lz & Lb & Ldb & Lw & Ldw).
  apply backward_shaped_inv in Hsh as (Hf & Hdb & Hdw).
  pose proof Hf as Hf'.
  apply forward_shaped_inv in Hf' as (Ha & Hz & Hb & Hw).
  unfold backward_shaped. cbn [deltaBias deltaWeights].
  assert (Hf2 : forward_shaped structure
                  (mkNet (z st) (a st) (bias st)
                     (zip_with (pending_bias momentumFactor learningRate)
                               (deltaBias st) deltas)
                     (weights st)
                     (zip_with (fun old da =>
                                  pending_weights momentumFactor learningRate old da.1 da.2)
                               (deltaWeights st) (zip deltas (a st)))) = true)
    by exact Hf.
  rewrite Hf2. cbn [andb].
  assert (Hd : length <$> deltas = drop 1 (widths structure)).
  { subst deltas. rewrite deltas_from_shape by assumption.
    now apply rows_shaped_spec. }
  apply andb_true_iff. split.
  - apply rows_shaped_spec. apply rows_shaped_spec in Hdb.
    rewrite pending_bias_shape; [assumption|]. now rewrite Hd, Hdb.
  - apply pending_weights_list_shape; trivial. now apply rows_shaped_spec.
Qed.

End BackwardOk.

(** *** Examples in accumulation *)
Section Accumulate.
Variable activationFunction : string -> option activation.
Variable structure : list Z.
Variable acts : list activation.
Variable names : option (list string).
Variables learningRate momentumFactor : float32.
Hypothesis names_ok : resolve activationFunction (length structure) names = Ok acts.
Hypothesis topology_ok : valid_topologyb structure = true.
Hypothesis acts_ok : length acts = (length structure - 1)%nat.

Lemma backward_forward_shaped (st : net) :
  backward_shaped structure st = true -> forward_shaped structure st = true.
Proof. now intros (H & _)%backward_shaped_inv. Qed.

Lemma accumulate_example_Ok (st : net) (example : vec * vec) :
  backward_shaped structure st = true -> fits structure example ->
  accumulate_example activationFunction structure learningRate momentumFactor names
                     st example
  = Ok (mkNet (forward_z acts (bias st) (weights st) example.1)
              (forward_a acts (bias st) (weights st) example.1)
              (bias st)
              (next_deltaBias momentumFactor learningRate acts (bias st) (weights st)
                              (deltaBias st) example)
              (weights st)
              (next_deltaWeights momentumFactor learningRate acts (bias st) (weights st)
                                 (deltaWeights st) example)).
Proof.
  intros Hsh [Hx Hy]. unfold accumulate_example.
  rewrite (forwardPropagation_Ok _ _ _ _ _ acts)
    by auto using backward_forward_shaped.
  cbn [rbind].
  rewrite (backPropagation_accumulate activationFunction structure acts names)
    by (auto using forward_result_shaped; discriminate).
  reflexivity.
Qed.

Lemma online_example_Ok (st : net) (example : vec * vec) :
  backward_shaped structure st = true -> fits structure example ->
  let pb := next_deltaBias momentumFactor learningRate acts (bias st) (weights st)
                           (deltaBias st) example in
  let pw := next_deltaWeights momentumFactor learningRate acts (bias st) (weights st)
                              (deltaWeights st) example in
  online_example activationFunction structure learningRate momentumFactor names
                 st example
  = Ok (mkNet (forward_z acts (bias st) (weights st) example.1)
              (forward_a acts (bias st) (weights st) example.1)
              (zip_with add_vec (bias st) pb) pb
              (zip_with add_mat (weights st) pw) pw).
Proof.
  intros Hsh [Hx Hy] pb pw. unfold online_example.
  rewrite (forwardPropagation_Ok _ _ _ _ _ acts)
    by auto using backward_forward_shaped.
  cbn [rbind].
  rewrite (backPropagation_online activationFunction structure acts names)
    by auto using forward_result_shaped.
  reflexivity.
Qed.

(** The weights and biases stay through any number of examples in
    accumulation, so every example is differentiated at the same
    parameters; the stored deltas are blended once per example. *)
Lemma accumulate_Ok (examples : list (vec * vec)) (st : net) :
  backward_shaped structure st = true -> Forall (fits structure) examples ->
  exists zs acs,
    let st' :=
      mkNet zs acs (bias st)
            (foldl (next_deltaBias momentumFactor learningRate acts (bias st) (weights st))
                   (deltaBias st) examples)
            (weights st)
            (foldl (next_deltaWeights momentumFactor learningRate acts (bias st) (weights st))
                   (deltaWeights st) examples) in
    accumulate activationFunction structure learningRate momentumFactor names
               examples st = Ok st' /\
    backward_shaped structure st' = true.
Proof.
  revert st. induction examples as [|example examples IH]; intros st Hsh Hfit.
  - exists (z st), (a st). cbn. split; [now destruct st|]. now destruct st.
  - apply Forall_cons in Hfit as [Hex Hfit].
    cbn [accumulate foldl]. rewrite accumulate_example_Ok by assumption.
    cbn [rbind].
    set (st1 := mkNet _ _ _ _ _ _).
    destruct (IH st1) as (zs & acs & Hacc & Hsh'); [|assumption|].
    { subst st1. unfold next_deltaBias, next_deltaWeights, example_deltas.
      destruct Hex as [Hx Hy].
      pose proof (forward_result_shaped structure acts example.1 st
                    topology_ok Hsh Hx acts_ok) as Hsh1.
      exact (accumulate_result_shaped structure acts topology_ok acts_ok
               example.2 _ learningRate momentumFactor Hsh1). }
    exists zs, acs. exact (conj Hacc Hsh').
Qed.

End Accumulate.

(** *** Multiplying by zero *)

(** [0.0f * x] is a zero, for every finite [x]. *)
Lemma mul_zero_l (x : float32) :
  F32.is_finite x = true ->
  F32.mul F32.zero x = S754_zero false \/ F32.mul F32.zero x = S754_zero true.
Proof.
  destruct x as [[]|s| |[] m e]; try discriminate; intros _; cbn; auto.
Qed.

(** *** The error signals, layer by layer *)

Lemma deltas_from_row (acts : list activation) (l : nat) (y : vec)
    (zs acs : list vec) (ws : list mat) (k : nat) (f : activation) :
  acts !! k = Some f ->
  let deltas := deltas_from l acts y zs acs ws in
  deltas !!! k =
    if decide (S k = length acts)
    then output_delta f (acs !!! S (l + k)) (zs !!! (l + k)%nat) y
    else hidden_delta f (deltas !!! S k) (ws !!! S (l + k)) (zs !!! (l + k)%nat).
Proof.
  revert l k. induction acts as [|f0 acts IH]; intros l k Hk; [discriminate|].
  cbn zeta. cbn [deltas_from]. destruct acts as [|f1 acts].
  - destruct k as [|k]; [|discriminate]. injection Hk as ->.
    cbn. now rewrite Nat.add_0_r.
  - destruct k as [|k].
    + injection Hk as ->. cbn -[deltas_from]. now rewrite Nat.add_0_r.
    + cbn in Hk. rewrite lookup_total_cons_ne_0 by lia. cbn [Nat.pred].
      rewrite (lookup_total_cons_ne_0 _ _ (S (S k))) by lia. cbn [Nat.pred].
      specialize (IH (S l) k Hk). cbn zeta in IH. rewrite IH.
      replace (l + S k)%nat with (S l + k)%nat by lia.
      cbn [length]. destruct (decide (S k = S (length acts))),
        (decide (S (S k) = S (S (length acts)))); try lia; reflexivity.
Qed.

Lemma pending_bias_entry m lr (old delta : vec) (j : nat) :
  (j < length old)%nat -> (j < length delta)%nat ->
  pending_bias m lr old delta !!! j = blend m lr (old !!! j) (delta !!! j).
Proof. intros. unfold pending_bias. now apply lookup_total_zip_with. Qed.

Lemma pending_weights_entry m lr (old : mat) (delta prev : vec) (i j : nat) :
  (i < length old)%nat -> (i < length prev)%nat ->
  (j < length (old !!! i))%nat -> (j < length delta)%nat ->
  (pending_weights m lr old delta prev !!! i) !!! j
  = blend m lr ((old !!! i) !!! j) (F32.mul (delta !!! j) (prev !!! i)).
Proof.
  intros. unfold pending_weights.
  rewrite (lookup_total_zip_with _ old prev i) by assumption.
  now rewrite (lookup_total_zip_with _ (old !!! i) delta j) by assumption.
Qed.

Lemma mats_shaped_row (ws : list nat) (ms : list mat) (l i : nat) :
  mats_shaped ws ms = true -> (S l < length ws)%nat ->
  length (ms !!! l) = ws !!! l /\
  ((i < ws !!! l)%nat -> length ((ms !!! l) !!! i) = ws !!! S l).
Proof.
  intros H Hl. pose proof (mats_shaped_length _ _ H) as Hlen.
  apply mats_shaped_spec in H.
  assert (Hrow : length <$> (ms !!! l) = replicate (ws !!! l) (ws !!! S l)).
  { apply (f_equal (fun x => x !!! l)) in H.
    rewrite (list_lookup_total_fmap _ ms l) in H by lia.
    rewrite H.
    rewrite (lookup_total_zip_with _ ws (drop 1 ws) l) by (rewrite ?length_drop; lia).
    now rewrite lookup_total_drop. }
  assert (Hp : length (ms !!! l) = ws !!! l).
  { apply (f_equal length) in Hrow. now rewrite length_fmap, length_replicate in Hrow. }
  split; [exact Hp|]. intros Hi.
  apply (f_equal (fun x => x !!! i)) in Hrow.
  rewrite (list_lookup_total_fmap _ (ms !!! l) i) in Hrow by lia.
  rewrite Hrow. now rewrite lookup_total_replicate_2.
Qed.

(** ** Claims about the propagation passes *)

(** C1. When its preconditions hold, [forwardPropagation] returns, and
    in the state it leaves, for every non-input layer [L] (stored at row
    [l = L - 1] of [z], [bias] and [weights], at row [L] of [a]) and every
    neuron [j] of it: [z[L][j]] is [bias[L][j]] plus the sum over all
    source neurons [i] of [a[L-1][i] * weights[L-1][i][j]], and
    [a[L][j]] is the activation function selected for the layer, applied
    to [z[L][j]]; row 0 of [a] is the input; [bias], [weights],
    [deltaBias] and [deltaWeights] are as before. The sum is written out:
    it runs over every [i] below the width of layer [L - 1], the products
    added one by one in increasing [i] from [+0.0f], every product and
    every sum rounded to binary32. *)
Theorem forwardPropagation_computes
    (activationFunction : string -> option activation)
    (structure : list Z) (inputState : vec) (st : net)
    (names : option (list string)) (acts : list activation) :
  resolve activationFunction (length structure) names = Ok acts ->
  valid_topologyb structure = true ->
  forward_shaped structure st = true ->
  length inputState = widths structure !!! O ->
  length acts = (length structure - 1)%nat ->
  exists st',
    forwardPropagation activationFunction structure inputState st names = Ok st' /\
    a st' !! O = Some inputState /\
    (forall l f, acts !! l = Some f ->
       exists zl al,
         z st' !! l = Some zl /\ a st' !! S l = Some al /\
         length (a st' !!! l) = widths structure !!! l /\
         length zl = widths structure !!! S l /\
         length al = widths structure !!! S l /\
         forall j, (j < widths structure !!! S l)%nat ->
           zl !! j
           = Some (F32.add
                     ((bias st !!! l) !!! j)
                     (foldl (fun acc i =>
                               F32.add acc (F32.mul ((a st' !!! l) !!! i)
                                                    (((weights st !!! l) !!! i) !!! j)))
                            F32.zero (seq 0 (widths structure !!! l)))) /\
           al !! j = Some (fn f (zl !!! j))) /\
    bias st' = bias st /\ weights st' = weights st /\
    deltaBias st' = deltaBias st /\ deltaWeights st' = deltaWeights st.
Proof.
  intros Hres Htop Hsh Hin Hacts.
  eexists. split; [now apply (forwardPropagation_Ok _ _ _ _ _ acts)|].
  cbn [z a bias deltaBias weights deltaWeights].
  split; [reflexivity|]. split; [|now repeat split].
  intros l f Hl.
  pose proof (lookup_lt_Some _ _ _ Hl) as Hlt.
  pose proof Hsh as Hsh'.
  apply forward_shaped_inv in Hsh' as (Sa & Sz & Sb & Sw).
  assert (Hrow : length (bias st !!! l) = widths structure !!! S l).
  { rewrite (rows_shaped_row _ _ l Sb) by (rewrite length_drop, length_widths; lia).
    now rewrite lookup_total_drop. }
  pose proof (feed_lookup acts 0 (bias st) (weights st) inputState l f Hl) as Hfeed.
  cbn zeta in Hfeed. cbn [Nat.add] in Hfeed.
  fold (forward_a acts (bias st) (weights st) inputState) in Hfeed.
  set (prev := forward_a acts (bias st) (weights st) inputState !!! l) in *.
  set (zl := (fun j => pre_activation (bias st !!! l) prev (weights st !!! l) j)
               <$> seq 0 (length (bias st !!! l))) in *.
  exists zl, (fn f <$> zl).
  assert (Hzl : length zl = widths structure !!! S l)
    by (subst zl; now rewrite length_fmap, length_seq).
  assert (Hprev : length prev = widths structure !!! l).
  { subst prev.
    pose proof (forward_result_lengths acts (bias st) (weights st) inputState) as [_ La].
    destruct l as [|l]; [exact Hin|].
    unfold forward_a. rewrite lookup_total_cons_ne_0 by lia. cbn [Nat.pred].
    destruct (feed_shape acts 0 (bias st) (weights st) inputState) as [_ E2].
    { apply rows_shaped_length in Sb. rewrite length_drop, length_widths in Sb. cbn. lia. }
    rewrite drop_0 in E2. apply rows_shaped_spec in Sb. rewrite Sb in E2.
    apply (f_equal (fun x => x !!! l)) in E2.
    rewrite (list_lookup_total_fmap length _ l) in E2
      by (rewrite length_fmap, length_feed; lia).
    rewrite E2. now rewrite lookup_total_drop. }
  split; [unfold forward_z; now rewrite list_lookup_fmap, Hfeed|].
  split.
  { unfold forward_a. rewrite lookup_cons_ne_0 by lia. cbn [Nat.pred].
    now rewrite list_lookup_fmap, Hfeed. }
  split; [exact Hprev|].
  split; [exact Hzl|]. split; [now rewrite length_fmap|].
  intros j Hj.
  assert (Hzj : zl !! j = Some (pre_activation (bias st !!! l) prev (weights st !!! l) j)).
  { subst zl. rewrite list_lookup_fmap, lookup_seq_lt by lia. reflexivity. }
  split.
  - rewrite Hzj. unfold pre_activation, weighted_sum. now rewrite Hprev.
  - rewrite list_lookup_fmap, Hzj. cbn.
    now rewrite (list_lookup_total_correct _ _ _ Hzj).
Qed.

Lemma forwardPropagation_computes_witness :
  exists st',
    forwardPropagation example_activations [2; 2; 1] [F32.one; half] layered_net
      (Some ["sigmoid"; "linear"]%string) = Ok st' /\
    z st' = [[S754_finite false 10485760 (-23); F32.one];
             [S754_finite false 11796480 (-21)]] /\
    a st' = [[F32.one; half];
             [S754_finite false 13631488 (-24); S754_finite false 12582912 (-24)];
             [S754_finite false 11796480 (-21)]] /\
    bias st' = bias layered_net /\ weights st' = weights layered_net /\
    exists zl,
      z st' !! 1%nat = Some zl /\
      zl !! 0%nat
      = Some (F32.add F32.one
                (F32.add (F32.add F32.zero (F32.mul ((a st' !!! 1%nat) !!! 0%nat) two))
                         (F32.mul ((a st' !!! 1%nat) !!! 1%nat) four))).
Proof.
  destruct (forwardPropagation_computes example_activations [2; 2; 1] [F32.one; half]
              layered_net (Some ["sigmoid"; "linear"]%string) [ramp; linear])
    as (st' & Hret & _ & Hlayers & Hb & Hw & _); try reflexivity.
  exists st'. split; [exact Hret|].
  destruct (Hlayers 1%nat linear eq_refl) as (zl & al & Hz & _ & _ & _ & _ & Hj).
  destruct (Hj 0%nat) as [Hz0 _]; [cbn; lia|].
  assert (E : Ok st'
            = Ok (mkNet [[S754_finite false 10485760 (-23); F32.one];
                         [S754_finite false 11796480 (-21)]]
                        [[F32.one; half];
                         [S754_finite false 13631488 (-24);
                          S754_finite false 12582912 (-24)];
                         [S754_finite false 11796480 (-21)]]
                        (bias layered_net) (deltaBias layered_net)
                        (weights layered_net) (deltaWeights layered_net)))
    by (rewrite <- Hret; vm_compute; reflexivity).
  injection E as E.
  split; [now rewrite E|]. split; [now rewrite E|].
  split; [exact Hb|]. split; [exact Hw|].
  exists zl. split; [exact Hz | exact Hz0].
Defined.



(** C2. For every call of [backPropagation] whose preconditions hold,
    every layer [L] (row [l = L - 1]), neuron [j] and source neuron [i]:
    the pending update is [momentumFactor * old_delta + learningRate *
    gradient], with the gradient [delta[L][j] * a[L-1][i]] for the weight
    and [delta[L][j]] for the bias, [old_delta] being the value stored in
    [deltaWeights] and [deltaBias] when the call is made, and [delta] the
    error signals of steps 1 and 2. The pending updates are what the
    modes other than ["batch"] store (and what ["online"] adds to the
    weights and biases); ["batch"] leaves the stored deltas. *)
Theorem backPropagation_pending_update
    (activationFunction : string -> option activation)
    (structure : list Z) (y : vec) (st : net)
    (learningRate momentumFactor : float32) (learningType : string)
    (names : option (list string)) (acts : list activation) :
  resolve activationFunction (length structure) names = Ok acts ->
  valid_topologyb structure = true ->
  backward_shaped structure st = true ->
  length y = widths structure !!! (length structure - 1)%nat ->
  length acts = (length structure - 1)%nat ->
  let deltas := deltas_from O acts y (z st) (a st) (weights st) in
  let pb := zip_with (pending_bias momentumFactor learningRate) (deltaBias st) deltas in
  let pw := zip_with (fun old da =>
                        pending_weights momentumFactor learningRate old da.1 da.2)
                     (deltaWeights st) (zip deltas (a st)) in
  (forall l i j,
     (S l < length structure)%nat ->
     (i < widths structure !!! l)%nat -> (j < widths structure !!! S l)%nat ->
     (pb !!! l) !!! j
     = F32.add (F32.mul momentumFactor ((deltaBias st !!! l) !!! j))
               (F32.mul learningRate ((deltas !!! l) !!! j)) /\
     ((pw !!! l) !!! i) !!! j
     = F32.add (F32.mul momentumFactor (((deltaWeights st !!! l) !!! i) !!! j))
               (F32.mul learningRate
                        (F32.mul ((deltas !!! l) !!! j) ((a st !!! l) !!! i)))) /\
  (forall l f, acts !! l = Some f ->
     deltas !!! l =
       if decide (S l = length acts)
       then output_delta f (a st !!! S l) (z st !!! l) y
       else hidden_delta f (deltas !!! S l) (weights st !!! S l) (z st !!! l)) /\
  exists st',
    backPropagation activationFunction structure y st learningRate momentumFactor
                    learningType names = Ok st' /\
    (learningType = "online"%string ->
       deltaBias st' = pb /\ deltaWeights st' = pw /\
       bias st' = zip_with add_vec (bias st) pb /\
       weights st' = zip_with add_mat (weights st) pw) /\
    (learningType <> "online"%string -> learningType <> "batch"%string ->
       deltaBias st' = pb /\ deltaWeights st' = pw) /\
    (learningType = "batch"%string ->
       deltaBias st' = deltaBias st /\ deltaWeights st' = deltaWeights st).
Proof.
  intros Hres Htop Hsh Hy Hacts deltas pb pw.
  destruct (shaped_lengths structure acts Htop Hacts st Hsh)
    as (La & Lz & Lb & Ldb & Lw & Ldw).
  pose proof Hsh as Hsh'.
  apply backward_shaped_inv in Hsh' as (Hf & Sdb & Sdw).
  apply forward_shaped_inv in Hf as (Sa & Sz & Sb & Sw).
  assert (Ld : length deltas = length acts) by apply length_deltas_from.
  split; [|split].
  - intros l i j Hl Hi Hj.
    assert (Hlt : (l < length acts)%nat) by lia.
    assert (Hdrop : drop 1 (widths structure) !!! l = widths structure !!! S l)
      by now rewrite lookup_total_drop.
    assert (Hdl : length (deltas !!! l) = widths structure !!! S l).
    { subst deltas. rewrite deltas_from_row_length by assumption. cbn [Nat.add].
      rewrite (rows_shaped_row _ _ l Sz) by (rewrite length_drop, length_widths; lia).
      exact Hdrop. }
    assert (Hdbl : length (deltaBias st !!! l) = widths structure !!! S l).
    { rewrite (rows_shaped_row _ _ l Sdb) by (rewrite length_drop, length_widths; lia).
      exact Hdrop. }
    assert (Hal : length (a st !!! l) = widths structure !!! l).
    { apply (rows_shaped_row _ _ l Sa). rewrite length_widths. lia. }
    destruct (mats_shaped_row _ _ l i Sdw) as [Hdwl Hdwli]; [rewrite length_widths; lia|].
    specialize (Hdwli Hi).
    split.
    + subst pb. rewrite (lookup_total_zip_with _ (deltaBias st) deltas l) by lia.
      rewrite pending_bias_entry by lia. reflexivity.
    + subst pw.
      rewrite (lookup_total_zip_with _ (deltaWeights st) (zip deltas (a st)) l)
        by (rewrite ?length_zip_with; lia).
      rewrite (lookup_total_zip_with _ deltas (a st) l) by lia. cbn [fst snd].
      rewrite pending_weights_entry by lia. reflexivity.
  - intros l f Hl.
    exact (deltas_from_row acts 0 y (z st) (a st) (weights st) l f Hl).
  - destruct (decide (learningType = "online"%string)) as [->|Ho].
    { eexists. split.
      - apply (backPropagation_online activationFunction structure acts names);
          assumption.
      - split; [|split]; [now intros _ | congruence | discriminate]. }
    destruct (decide (learningType = "batch"%string)) as [->|Hb].
    { eexists. split.
      - apply (backPropagation_batch activationFunction structure acts names);
          assumption.
      - split; [|split]; [discriminate | congruence | now intros _]. }
    eexists. split.
    + apply (backPropagation_accumulate activationFunction structure acts names);
        assumption.
    + split; [|split]; [congruence | now intros _ _ | congruence].
Qed.

Lemma backPropagation_pending_update_witness :
  exists st',
    backPropagation example_activations [1; 1] [F32.zero]
      (mkNet [[two]] [[two]; [two]] [[F32.zero]] [[F32.one]] [[[F32.one]]] [[[F32.one]]])
      F32.one half "online" (Some ["linear"%string]) = Ok st' /\
    deltaBias st' = [[F32.add (F32.mul half F32.one) (F32.mul F32.one two)]] /\
    deltaWeights st'
    = [[[F32.add (F32.mul half F32.one) (F32.mul F32.one (F32.mul two two))]]].
Proof.
  destruct (backPropagation_pending_update example_activations [1; 1] [F32.zero]
              (mkNet [[two]] [[two]; [two]] [[F32.zero]] [[F32.one]]
                     [[[F32.one]]] [[[F32.one]]])
              F32.one half "online" (Some ["linear"%string]) [linear])
    as (_ & _ & st' & Hret & Honline & _); try reflexivity.
  exists st'. split; [exact Hret|].
  destruct (Honline eq_refl) as (-> & -> & _). split; reflexivity.
Defined.

(** C3. For every learning type other than ["online"] and ["batch"], the
    empty string included, a call of [backPropagation] whose
    preconditions hold returns normally: it stores the momentum-blended
    pending updates in [deltaWeights] and [deltaBias] and leaves every
    entry of [weights] and [bias] (and [z] and [a]) as it was. *)
Theorem backPropagation_accumulate_only
    (activationFunction : string -> option activation)
    (structure : list Z) (y : vec) (st : net)
    (learningRate momentumFactor : float32) (learningType : string)
    (names : option (list string)) (acts : list activation) :
  resolve activationFunction (length structure) names = Ok acts ->
  valid_topologyb structure = true ->
  backward_shaped structure st = true ->
  length y = widths structure !!! (length structure - 1)%nat ->
  length acts = (length structure - 1)%nat ->
  learningType <> "online"%string -> learningType <> "batch"%string ->
  let deltas := deltas_from O acts y (z st) (a st) (weights st) in
  exists st',
    backPropagation activationFunction structure y st learningRate momentumFactor
                    learningType names = Ok st' /\
    weights st' = weights st /\ bias st' = bias st /\
    z st' = z st /\ a st' = a st /\
    deltaBias st'
    = zip_with (pending_bias momentumFactor learningRate) (deltaBias st) deltas /\
    deltaWeights st'
    = zip_with (fun old da => pending_weights momentumFactor learningRate old da.1 da.2)
               (deltaWeights st) (zip deltas (a st)).
Proof.
  intros Hres Htop Hsh Hy Hacts Ho Hb deltas.
  eexists. split.
  - apply (backPropagation_accumulate activationFunction structure acts names);
      assumption.
  - now repeat split.
Qed.

Lemma backPropagation_accumulate_only_witness :
  exists st',
    backPropagation example_activations [1; 1] [F32.zero]
      (mkNet [[two]] [[two]; [two]] [[F32.zero]] [[F32.one]] [[[F32.one]]] [[[F32.one]]])
      F32.one half EmptyString (Some ["linear"%string]) = Ok st' /\
    weights st' = [[[F32.one]]] /\ bias st' = [[F32.zero]] /\
    deltaBias st' = [[F32.add (F32.mul half F32.one) (F32.mul F32.one two)]].
Proof.
  destruct (backPropagation_accumulate_only example_activations [1; 1] [F32.zero]
              (mkNet [[two]] [[two]; [two]] [[F32.zero]] [[F32.one]]
                     [[[F32.one]]] [[[F32.one]]])
              F32.one half EmptyString (Some ["linear"%string]) [linear])
    as (st' & Hret & Hw & Hb & _ & _ & Hdb & _); try reflexivity; try discriminate.
  exists st'. split; [exact Hret|]. split; [exact Hw|]. split; [exact Hb|]. exact Hdb.
Defined.

(** What accumulation and a flush leave, under the update rule of
    section 4.3. For any momentum factor, from a state whose
    containers have their shapes and for examples that fit the topology,
    a forward and a backward pass with the empty mode on each of the examples
    in turn and then one flush with mode ["batch"] return, and leave
    [weights = W0 + D] and [bias = b0 + E], where [W0], [b0] are the
    initial weights and biases and [D], [E] the deltas stored at the
    flush: the stored deltas are blended once per example, [D_i =
    momentumFactor * D_(i-1) + learningRate * g_i], from the deltas stored
    initially, with the gradient [g_i] of example [i] at the initial
    weights and biases, which is the gradient of the online update of
    that example alone from the initial state. The ["batch"] call itself
    adds the stored [deltaWeights] and [deltaBias] to [weights] and [bias]
    without recomputing gradients. With a momentum factor of zero the
    earlier deltas enter the last blend multiplied by zero (a zero when
    they are finite), so the flush applies the last example's update
    rather than a sum; a momentum factor of one keeps a stored delta in
    canonical form unchanged in the blend. *)
Theorem accumulate_then_flush_result
    (activationFunction : string -> option activation)
    (structure : list Z) (names : option (list string)) (acts : list activation)
    (learningRate momentumFactor : float32)
    (examples : list (vec * vec)) (y : vec) (st : net) :
  resolve activationFunction (length structure) names = Ok acts ->
  valid_topologyb structure = true ->
  length acts = (length structure - 1)%nat ->
  backward_shaped structure st = true ->
  Forall (fits structure) examples ->
  length y = widths structure !!! (length structure - 1)%nat ->
  let nextB m := next_deltaBias m learningRate acts (bias st) (weights st) in
  let nextW m := next_deltaWeights m learningRate acts (bias st) (weights st) in
  let E := foldl (nextB momentumFactor) (deltaBias st) examples in
  let D := foldl (nextW momentumFactor) (deltaWeights st) examples in
  (exists st',
     accumulate_then_flush activationFunction structure learningRate momentumFactor
                           names examples y st = Ok st' /\
     bias st' = zip_with add_vec (bias st) E /\
     weights st' = zip_with add_mat (weights st) D /\
     deltaBias st' = E /\ deltaWeights st' = D) /\
  (forall st1, backward_shaped structure st1 = true ->
     backPropagation activationFunction structure y st1 learningRate momentumFactor
                     "batch" names
     = Ok (mkNet (z st1) (a st1)
                 (zip_with add_vec (bias st1) (deltaBias st1)) (deltaBias st1)
                 (zip_with add_mat (weights st1) (deltaWeights st1))
                 (deltaWeights st1))) /\
  (forall example, fits structure example ->
     exists st1,
       online_example activationFunction structure learningRate momentumFactor names
                      st example = Ok st1 /\
       deltaBias st1 = nextB momentumFactor (deltaBias st) example /\
       deltaWeights st1 = nextW momentumFactor (deltaWeights st) example /\
       bias st1 = zip_with add_vec (bias st) (deltaBias st1) /\
       weights st1 = zip_with add_mat (weights st) (deltaWeights st1)) /\
  (forall earlier last, examples = earlier ++ [last] ->
     E = nextB momentumFactor (foldl (nextB momentumFactor) (deltaBias st) earlier) last /\
     D = nextW momentumFactor (foldl (nextW momentumFactor) (deltaWeights st) earlier) last) /\
  (forall old g, F32.is_finite old = true ->
     exists s, blend F32.zero learningRate old g
               = F32.add (S754_zero s) (F32.mul learningRate g)) /\
  (forall old g, F32.valid old = true ->
     blend F32.one learningRate old g = F32.add old (F32.mul learningRate g)).
Proof.
  intros Hres Htop Hacts Hsh Hfit Hy nextB nextW E D.
  split; [|split; [|split; [|split; [|split]]]].
  - destruct (accumulate_Ok activationFunction structure acts names
                learningRate momentumFactor Hres Htop Hacts examples st Hsh Hfit)
      as (zs & acs & Hacc & Hsh').
    cbn zeta in Hacc, Hsh'. unfold accumulate_then_flush. rewrite Hacc. cbn [rbind].
    rewrite (backPropagation_batch activationFunction structure acts names)
      by assumption.
    eexists. split; [reflexivity|]. now repeat split.
  - intros st1 Hsh1.
    now apply (backPropagation_batch activationFunction structure acts names).
  - intros example Hex. eexists. split.
    + now apply (online_example_Ok activationFunction structure acts names).
    + now repeat split.
  - intros earlier last ->. subst E D. rewrite !foldl_app. now split.
  - intros old g Hold. unfold blend.
    destruct (mul_zero_l old Hold) as [->| ->]; eauto.
  - intros old g Hold. unfold blend. now rewrite mul_one_l.
Qed.

Lemma accumulate_then_flush_result_witness :
  exists st',
    accumulate_then_flush example_activations [1; 1] F32.one F32.one
      (Some ["linear"%string])
      [([F32.one], [F32.zero]); ([two], [F32.zero])] [F32.zero] unit_net = Ok st' /\
    weights st' = [[[six]]] /\ deltaWeights st' = [[[F32.five]]].
Proof.
  destruct (accumulate_then_flush_result example_activations [1; 1]
              (Some ["linear"%string]) [linear] F32.one F32.one
              [([F32.one], [F32.zero]); ([two], [F32.zero])] [F32.zero] unit_net)
    as ((st' & Hret & _ & Hw & _ & Hdw) & _); try reflexivity.
  - repeat constructor.
  - exists st'. split; [exact Hret|]. rewrite Hw, Hdw. split; vm_compute; reflexivity.
Defined.


(** * More about [init] *)

(** ** Rounding: zeros, signs and NaNs *)

(** A shift to the format's exponent keeps a positive mantissa positive
    as long as the exponent is not below the least one. *)
Lemma shr_fexp_pos (m e : Z) (l : location) :
  0 < m -> -149 <= e ->
  0 < shr_m (fst (shr_fexp F32.prec F32.emax m e l)) /\
  -149 <= snd (shr_fexp F32.prec F32.emax m e l).
Proof.
  intros Hm He.
  destruct (shr_fexp_spec m e l ltac:(lia)) as [E M].
  destruct (shr_fexp F32.prec F32.emax m e l) as [mrs e1]. cbn [fst snd] in *.
  split; [|lia]. rewrite M.
  destruct m as [|p|p]; try lia.
  pose proof (Zdigits2_spec p) as Hd.
  assert (H1 : 1 <= Zdigits2 (Z.pos p)) by (cbn; lia).
  set (d := Zdigits2 (Z.pos p)) in *.
  apply Z.div_str_pos. split; [apply Z.pow_pos_nonneg; lia|].
  apply Z.le_trans with (2 ^ (d - 1)); [|lia].
  apply Z.pow_le_mono_r; [lia|].
  rewrite E. unfold fexp, emin, F32.prec, F32.emax. lia.
Qed.

(** Rounding a positive mantissa never gives a zero or a NaN,
    underflow apart. *)
Lemma binary_round_aux_pos (s : bool) (m e : Z) (l : location) :
  0 < m -> -149 <= e ->
  (exists m' e', binary_round_aux F32.prec F32.emax s m e l = S754_finite s m' e') \/
  binary_round_aux F32.prec F32.emax s m e l = S754_infinity s.
Proof.
  intros Hm He. unfold binary_round_aux.
  destruct (shr_fexp_pos m e l Hm He) as [M1 E1].
  destruct (shr_fexp F32.prec F32.emax m e l) as [mrs1 e1]. cbn [fst snd] in *.
  pose proof (round_nearest_even_le (shr_m mrs1) (loc_of_shr_record mrs1)) as Hr.
  destruct (shr_fexp_pos (round_nearest_even (shr_m mrs1) (loc_of_shr_record mrs1))
              e1 loc_Exact ltac:(lia) E1) as [M3 _].
  destruct (shr_fexp F32.prec F32.emax _ e1 loc_Exact) as [mrs3 e3]. cbn [fst] in M3.
  destruct (shr_m mrs3) as [|p|p]; try lia.
  destruct (e3 <=? F32.emax - F32.prec); eauto.
Qed.

(** Rounding a non-negative mantissa never gives a NaN. *)
Lemma binary_round_aux_not_nan (s : bool) (m e : Z) (l : location) :
  0 <= m -> binary_round_aux F32.prec F32.emax s m e l <> S754_nan.
Proof.
  intros H. unfold binary_round_aux.
  pose proof (shr_fexp_nonneg m e l H) as H1.
  destruct (shr_fexp F32.prec F32.emax m e l) as [mrs' e']. cbn [fst] in H1.
  pose proof (shr_fexp_nonneg _ e' loc_Exact
                (round_nearest_even_nonneg _ (loc_of_shr_record mrs') H1)) as H2.
  destruct (shr_fexp F32.prec F32.emax _ e' loc_Exact) as [mrs'' e'']. cbn [fst] in H2.
  destruct (shr_m mrs'') as [|p|p]; [discriminate| |lia].
  now destruct (e'' <=? F32.emax - F32.prec).
Qed.

(** The sign only labels the result of a rounding. *)
Lemma binary_round_aux_opp (s : bool) (m e : Z) (l : location) :
  binary_round_aux F32.prec F32.emax (negb s) m e l
  = SFopp (binary_round_aux F32.prec F32.emax s m e l).
Proof.
  unfold binary_round_aux.
  destruct (shr_fexp F32.prec F32.emax m e l) as [mrs' e'].
  destruct (shr_fexp F32.prec F32.emax _ e' loc_Exact) as [mrs'' e''].
  destruct (shr_m mrs'') as [|p|p]; try reflexivity.
  now destruct (e'' <=? F32.emax - F32.prec).
Qed.

(** ** Conversion of an [int] *)

(** Every positive [int] converts to a positive finite [float]. *)
Lemma of_int_pos_finite (n : Z) :
  0 < n < 2 ^ 31 -> F32.pos_finite (F32.of_int n) = true.
Proof.
  intros Hn. destruct (Z.lt_ge_cases n (2 ^ 24)) as [Hs|Hb].
  - destruct (of_int_small n ltac:(lia)) as (m & -> & _). reflexivity.
  - destruct n as [|p|p]; try lia.
    unfold F32.of_int, binary_normalize, binary_round, shl_align.
    fold (Zdigits2 (Z.pos p)).
    assert (Hd : 25 <= Zdigits2 (Z.pos p)).
    { destruct (Z.lt_ge_cases (Zdigits2 (Z.pos p)) 25) as [H|H]; [|exact H].
      assert (Zdigits2 (Z.pos p) <= 24) as H' by lia.
      apply Zdigits2_le in H'; lia. }
    destruct (fexp F32.prec F32.emax (Zdigits2 (Z.pos p) + 0) - 0) as [|q|q] eqn:Eq.
    1,2: pose proof (binary_round_aux_exponent (Z.pos p) 0 8 loc_Exact
                       ltac:(lia) ltac:(lia) ltac:(lia) ltac:(lia) ltac:(lia)) as Hx;
         destruct (binary_round_aux_pos false (Z.pos p) 0 loc_Exact ltac:(lia) ltac:(lia))
           as [(m' & e' & ->)| E]; [reflexivity | rewrite E in Hx; contradiction].
    exfalso. revert Eq. unfold fexp, emin, F32.prec, F32.emax. lia.
Qed.

(** [(float) n] of a non-negative [int] is [+0.0f] for zero and a
    positive finite number otherwise. *)
Lemma of_int_nonneg (n : Z) :
  0 <= n < 2 ^ 31 ->
  (n = 0 /\ F32.of_int n = F32.zero) \/
  (0 < n /\ F32.pos_finite (F32.of_int n) = true).
Proof.
  intros Hn. destruct (Z.eq_dec n 0) as [->|H0]; [now left|].
  right. split; [lia|]. apply of_int_pos_finite. lia.
Qed.

(** [(float) (-n)] is [- (float) n], except that [(float) 0] is [+0.0f]. *)
Lemma of_int_opp (n : Z) : n <> 0 -> F32.of_int (- n) = SFopp (F32.of_int n).
Proof.
  intros Hn. destruct n as [|p|p]; try lia.
  - change (- Z.pos p) with (Z.neg p).
    unfold F32.of_int, binary_normalize, binary_round.
    destruct (shl_align _ _ _) as [mz ez]. apply (binary_round_aux_opp false).
  - change (- Z.neg p) with (Z.pos p).
    unfold F32.of_int, binary_normalize, binary_round.
    destruct (shl_align _ _ _) as [mz ez]. apply (binary_round_aux_opp true).
Qed.

(** ** Products and quotients *)

Lemma div_opp_r (x y : float32) : F32.div x (SFopp y) = SFopp (F32.div x y).
Proof.
  unfold F32.div.
  destruct x as [sx|sx| |sx mx ex], y as [sy|sy| |sy my ey]; cbn [SFdiv SFopp];
    try reflexivity; try (now destruct sx, sy).
  destruct (SFdiv_core_binary _ _ _ _ _ _) as [[mz ez] lz].
  rewrite <- binary_round_aux_opp. now destruct sx, sy.
Qed.

Lemma mul_opp_l (x y : float32) : F32.mul (SFopp x) y = SFopp (F32.mul x y).
Proof.
  unfold F32.mul.
  destruct x as [sx|sx| |sx mx ex], y as [sy|sy| |sy my ey]; cbn [SFmul SFopp];
    try reflexivity; try (now destruct sx, sy).
  rewrite <- binary_round_aux_opp. now destruct sx, sy.
Qed.

Lemma div_opp_l (x y : float32) : F32.div (SFopp x) y = SFopp (F32.div x y).
Proof.
  unfold F32.div.
  destruct x as [sx|sx| |sx mx ex], y as [sy|sy| |sy my ey]; cbn [SFdiv SFopp];
    try reflexivity; try (now destruct sx, sy).
  destruct (SFdiv_core_binary _ _ _ _ _ _) as [[mz ez] lz].
  rewrite <- binary_round_aux_opp. now destruct sx, sy.
Qed.

Lemma scaled_opp_amplitude (randomAmplitude : float32) (finesse k : Z) :
  scaled (SFopp randomAmplitude) finesse k = SFopp (scaled randomAmplitude finesse k).
Proof. unfold scaled. now rewrite mul_opp_l, div_opp_l. Qed.

Lemma scaled_opp (randomAmplitude : float32) (finesse k : Z) :
  finesse <> 0 ->
  scaled randomAmplitude (- finesse) k = SFopp (scaled randomAmplitude finesse k).
Proof.
  intros H. unfold scaled. now rewrite of_int_opp, div_opp_r.
Qed.

(** A NaN comes out of a product with a zero or positive finite factor
    only for a NaN, or for an infinity times zero. *)
Lemma mul_nan_iff (x y : float32) :
  y = F32.zero \/ F32.pos_finite y = true ->
  F32.mul x y = S754_nan <->
  x = S754_nan \/ ((exists s, x = S754_infinity s) /\ y = F32.zero).
Proof.
  intros [->|Hy].
  - destruct x as [s|s| |s m e]; cbn; split; try discriminate; eauto.
    all: try (intros [H|[[s' H] _]]; discriminate). 
  - destruct y as [| | |[] my ey]; try discriminate.
    destruct x as [s|s| |s m e]; cbn [F32.mul SFmul]; split; try discriminate; eauto.
    all: try (intros [H|[_ H]]; discriminate).
    intros H. exfalso. revert H. apply binary_round_aux_not_nan. lia.
Qed.

Lemma div_nan_iff (x y : float32) :
  F32.pos_finite y = true -> F32.div x y = S754_nan <-> x = S754_nan.
Proof.
  destruct y as [| | |[] my ey]; try discriminate. intros _.
  destruct x as [s|s| |s m e]; cbn [F32.div SFdiv]; split; try discriminate; eauto.
  unfold SFdiv_core_binary.
  set (m' := match _ with Z0 => _ | Zpos _ => _ | Zneg _ => _ end).
  assert (Hm' : 0 <= m').
  { subst m'. destruct (_ - _ - _); try lia. apply Z.shiftl_nonneg. lia. }
  pose proof (Z.div_pos m' (Z.pos my) Hm' ltac:(lia)) as Hq.
  unfold Z.div in Hq.
  destruct (Z.div_eucl m' (Z.pos my)) as [q r].
  intros H. exfalso. revert H. now apply binary_round_aux_not_nan.
Qed.

(** A scaled draw is a NaN exactly when the amplitude is, or when the
    amplitude is infinite and the remainder is zero. *)
Lemma scaled_nan_iff (randomAmplitude : float32) (finesse k : Z) :
  0 < finesse < 2 ^ 31 -> 0 <= k < 2 ^ 31 ->
  scaled randomAmplitude finesse k = S754_nan <->
  randomAmplitude = S754_nan \/ ((exists s, randomAmplitude = S754_infinity s) /\ k = 0).
Proof.
  intros Hf Hk. unfold scaled.
  rewrite div_nan_iff by now apply of_int_pos_finite.
  destruct (of_int_nonneg k Hk) as [[-> E]|[Hpos E]].
  - rewrite mul_nan_iff by (now left). change (F32.of_int 0) with F32.zero. tauto.
  - rewrite mul_nan_iff by (now right).
    split; [|intros [H|[_ H]]; [now left | lia]].
    intros [H|[_ H]]; [now left|]. rewrite H in E. discriminate.
Qed.

(** With a zero amplitude every scaled draw is that zero. *)
Lemma scaled_zero_amplitude (s : bool) (finesse k : Z) :
  0 < finesse < 2 ^ 31 -> 0 <= k < 2 ^ 31 ->
  scaled (S754_zero s) finesse k = S754_zero s.
Proof.
  intros Hf Hk. unfold scaled.
  pose proof (of_int_pos_finite finesse Hf) as HF.
  destruct (F32.of_int finesse) as [| | |[] mf ef]; try discriminate.
  destruct (of_int_nonneg k Hk) as [[-> E]|[Hpos E]].
  - now destruct s.
  - destruct (F32.of_int k) as [| | |[] mk ek]; try discriminate. now destruct s.
Qed.

(** A remainder of zero gives [+0.0f] under a positive finite amplitude. *)
Lemma scaled_zero_remainder (randomAmplitude : float32) (finesse : Z) :
  F32.pos_finite randomAmplitude = true -> 0 < finesse < 2 ^ 31 ->
  scaled randomAmplitude finesse 0 = F32.zero.
Proof.
  intros Ha Hf. unfold scaled.
  pose proof (of_int_pos_finite finesse Hf) as HF.
  destruct (F32.of_int finesse) as [| | |[] mf ef]; try discriminate.
  destruct randomAmplitude as [| | |[] ma ea]; try discriminate. reflexivity.
Qed.

(** ** What [init] leaves, container by container *)

Lemma structure_row_cases (structure : list Z) (i : nat) :
  (exists wd, structure !! i = Some wd) \/ (length structure <= i)%nat.
Proof.
  destruct (structure !! i) as [wd|] eqn:E; [eauto|].
  right. now apply lookup_ge_None.
Qed.

Lemma structure_layer_cases (structure : list Z) (i : nat) :
  (exists prev cur, structure !! i = Some prev /\ structure !! S i = Some cur) \/
  (length structure - 1 <= i)%nat.
Proof.
  destruct (structure !! S i) as [cur|] eqn:E.
  - left. destruct (lookup_lt_is_Some_2 structure i) as [prev Hp].
    { apply lookup_lt_Some in E. lia. }
    eauto.
  - right. apply lookup_ge_None in E. lia.
Qed.

(** Rows past the layers of the topology are not touched. *)
Lemma init_pure_beyond rand_seq randomAmplitude finesse (structure : list Z)
    (w : world) (i : nat) :
  let W := w_net (init_pure rand_seq randomAmplitude finesse structure w) in
  ((length structure <= i)%nat -> a W !! i = a (w_net w) !! i) /\
  ((length structure - 1 <= i)%nat ->
     z W !! i = z (w_net w) !! i /\
     bias W !! i = bias (w_net w) !! i /\
     deltaBias W !! i = deltaBias (w_net w) !! i /\
     weights W !! i = weights (w_net w) !! i /\
     deltaWeights W !! i = deltaWeights (w_net w) !! i).
Proof.
  destruct structure as [|w0 rest]; cbn zeta; cbn [init_pure length].
  - now repeat split.
  - split.
    + intros Hi. destruct i as [|i]; [lia|].
      destruct (layers_pure_beyond rand_seq randomAmplitude finesse rest 0
                  (Z.to_nat w0) (input_step (Z.to_nat w0) w) i ltac:(cbn; lia))
        as (_ & Ha & _).
      rewrite Ha. unfold input_step. cbn. now rewrite list_lookup_alter_ne by lia.
    + intros Hi.
      destruct (layers_pure_beyond rand_seq randomAmplitude finesse rest 0
                  (Z.to_nat w0) (input_step (Z.to_nat w0) w) i ltac:(cbn; lia))
        as (Hz & _ & Hb & Hdb & Hw & Hdw).
      rewrite Hz, Hb, Hdb, Hw, Hdw. now repeat split.
Qed.

(** The rows of [a], [z], [deltaBias] and [deltaWeights] and the number
    of draws do not depend on the draws, the amplitude or [finesse]. *)
Lemma init_pure_static rs A f rs' A' f' (structure : list Z) (w : world) :
  let W := init_pure rs A f structure w in
  let W' := init_pure rs' A' f' structure w in
  a (w_net W) = a (w_net W') /\ z (w_net W) = z (w_net W') /\
  deltaBias (w_net W) = deltaBias (w_net W') /\
  deltaWeights (w_net W) = deltaWeights (w_net W') /\
  w_rand W = w_rand W'.
Proof.
  cbn zeta. repeat split; try (apply list_eq; intros i).
  - destruct (structure_row_cases structure i) as [[wd H]|H].
    + now rewrite !(init_pure_a _ _ _ _ _ _ _ H).
    + destruct (init_pure_beyond rs A f structure w i) as [H1 _].
      destruct (init_pure_beyond rs' A' f' structure w i) as [H2 _].
      now rewrite H1, H2.
  - destruct (structure_layer_cases structure i) as [(prev & cur & Hp & Hc)|H].
    + destruct (init_pure_at rs A f structure w i prev cur Hp Hc) as (-> & _).
      now destruct (init_pure_at rs' A' f' structure w i prev cur Hp Hc) as (-> & _).
    + destruct (init_pure_beyond rs A f structure w i) as [_ H1].
      destruct (init_pure_beyond rs' A' f' structure w i) as [_ H2].
      destruct (H1 H) as (-> & _). now destruct (H2 H) as (-> & _).
  - destruct (structure_layer_cases structure i) as [(prev & cur & Hp & Hc)|H].
    + destruct (init_pure_at rs A f structure w i prev cur Hp Hc) as (_ & _ & -> & _).
      now destruct (init_pure_at rs' A' f' structure w i prev cur Hp Hc) as (_ & _ & -> & _).
    + destruct (init_pure_beyond rs A f structure w i) as [_ H1].
      destruct (init_pure_beyond rs' A' f' structure w i) as [_ H2].
      destruct (H1 H) as (_ & _ & -> & _). now destruct (H2 H) as (_ & _ & -> & _).
  - destruct (structure_layer_cases structure i) as [(prev & cur & Hp & Hc)|H].
    + destruct (init_pure_at rs A f structure w i prev cur Hp Hc) as (_ & _ & _ & _ & ->).
      now destruct (init_pure_at rs' A' f' structure w i prev cur Hp Hc)
        as (_ & _ & _ & _ & ->).
    + destruct (init_pure_beyond rs A f structure w i) as [_ H1].
      destruct (init_pure_beyond rs' A' f' structure w i) as [_ H2].
      destruct (H1 H) as (_ & _ & _ & _ & ->). now destruct (H2 H) as (_ & _ & _ & _ & ->).
  - now rewrite !init_pure_rand.
Qed.

(** Running [init_pure] again with the same topology leaves [a], [z],
    [deltaBias] and [deltaWeights] as the first run left them. *)
Lemma init_pure_again rs A f rs' A' f' (structure : list Z) (w : world) :
  let W1 := init_pure rs A f structure w in
  let W2 := init_pure rs' A' f' structure W1 in
  a (w_net W2) = a (w_net W1) /\ z (w_net W2) = z (w_net W1) /\
  deltaBias (w_net W2) = deltaBias (w_net W1) /\
  deltaWeights (w_net W2) = deltaWeights (w_net W1).
Proof.
  cbn zeta. set (W1 := init_pure rs A f structure w).
  repeat split; apply list_eq; intros i.
  - destruct (structure_row_cases structure i) as [[wd H]|H].
    + rewrite (init_pure_a _ _ _ _ _ _ _ H). subst W1.
      rewrite (init_pure_a _ _ _ _ _ _ _ H).
      destruct (a (w_net w) !! i); cbn; [|reflexivity]. now rewrite resize_idemp.
    + destruct (init_pure_beyond rs' A' f' structure W1 i) as [H2 _]. now apply H2.
  - destruct (structure_layer_cases structure i) as [(prev & cur & Hp & Hc)|H].
    + destruct (init_pure_at rs' A' f' structure W1 i prev cur Hp Hc) as (-> & _).
      subst W1.
      destruct (init_pure_at rs A f structure w i prev cur Hp Hc) as (-> & _).
      destruct (z (w_net w) !! i); cbn; [|reflexivity]. now rewrite resize_idemp.
    + destruct (init_pure_beyond rs' A' f' structure W1 i) as [_ H2].
      now destruct (H2 H) as (-> & _).
  - destruct (structure_layer_cases structure i) as [(prev & cur & Hp & Hc)|H].
    + destruct (init_pure_at rs' A' f' structure W1 i prev cur Hp Hc) as (_ & _ & -> & _).
      subst W1.
      destruct (init_pure_at rs A f structure w i prev cur Hp Hc) as (_ & _ & -> & _).
      destruct (deltaBias (w_net w) !! i); cbn; [|reflexivity]. now rewrite resize_idemp.
    + destruct (init_pure_beyond rs' A' f' structure W1 i) as [_ H2].
      now destruct (H2 H) as (_ & _ & -> & _).
  - destruct (structure_layer_cases structure i) as [(prev & cur & Hp & Hc)|H].
    + destruct (init_pure_at rs' A' f' structure W1 i prev cur Hp Hc)
        as (_ & _ & _ & _ & ->).
      subst W1.
      destruct (init_pure_at rs A f structure w i prev cur Hp Hc) as (_ & _ & _ & _ & ->).
      destruct (deltaWeights (w_net w) !! i); cbn; [|reflexivity].
      now rewrite resize_idemp.
    + destruct (init_pure_beyond rs' A' f' structure W1 i) as [_ H2].
      now destruct (H2 H) as (_ & _ & _ & _ & ->).
Qed.

Lemma outer_ok_same (structure : list Z) (n n' : net) :
  same_outer n n' -> outer_ok structure n -> outer_ok structure n'.
Proof.
  unfold same_outer, outer_ok. intros (-> & -> & -> & -> & -> & ->). trivial.
Qed.

(** The draws of a layer, when every scaled value is the same. *)
Lemma draws_const rs A f (c : float32) (p k : nat) :
  (forall i, scaled A f (Z.rem (rs i) f) = c) ->
  draws rs A f p k = replicate k c.
Proof.
  intros H. revert p. induction k as [|k IH]; intros p; [reflexivity|].
  rewrite draws_S, H, IH. reflexivity.
Qed.

Lemma draws_mat_const rs A f (c : float32) (p rows cols : nat) :
  (forall i, scaled A f (Z.rem (rs i) f) = c) ->
  draws_mat rs A f p rows cols = replicate rows (replicate cols c).
Proof.
  intros H. revert p. induction rows as [|r IH]; intros p; [reflexivity|].
  cbn [draws_mat replicate]. now rewrite IH, (draws_const _ _ _ c).
Qed.

Lemma draws_opp_amplitude rs A f (p k : nat) :
  draws rs (SFopp A) f p k = SFopp <$> draws rs A f p k.
Proof.
  unfold draws. rewrite <- list_fmap_compose.
  apply list_fmap_ext. intros _ i _. cbn. apply scaled_opp_amplitude.
Qed.

Lemma draws_mat_opp_amplitude rs A f (p rows cols : nat) :
  draws_mat rs (SFopp A) f p rows cols
  = (fun row : vec => SFopp <$> row) <$> draws_mat rs A f p rows cols.
Proof.
  revert p. induction rows as [|r IH]; intros p; [reflexivity|].
  cbn [draws_mat]. rewrite fmap_cons. now rewrite IH, draws_opp_amplitude.
Qed.

Lemma draws_opp rs A f (p k : nat) :
  f <> 0 -> draws rs A (- f) p k = SFopp <$> draws rs A f p k.
Proof.
  intros H. unfold draws. rewrite <- list_fmap_compose.
  apply list_fmap_ext. intros _ i _. cbn.
  now rewrite Z.rem_opp_r, scaled_opp.
Qed.

Lemma draws_mat_opp rs A f (p rows cols : nat) :
  f <> 0 ->
  draws_mat rs A (- f) p rows cols
  = (fun row : vec => SFopp <$> row) <$> draws_mat rs A f p rows cols.
Proof.
  intros H. revert p. induction rows as [|r IH]; intros p; [reflexivity|].
  cbn [draws_mat]. rewrite fmap_cons. now rewrite IH, draws_opp.
Qed.

(** [init] returns [init_pure], and the bias row and the weight matrix
    of every non-input layer are the draws of that layer. *)
Lemma init_parameters rs (structure : list Z) A f (w : world) :
  Forall (fun x => 0 <= x) structure -> f <> 0 -> outer_ok structure (w_net w) ->
  init rs structure A f w = Ret tt (init_pure rs A f structure w) /\
  forall jj prev cur,
    structure !! jj = Some prev -> structure !! S jj = Some cur ->
    let p := (w_rand w + base structure jj)%nat in
    bias (w_net (init_pure rs A f structure w)) !! jj
      = Some (draws rs A f p (Z.to_nat cur)) /\
    weights (w_net (init_pure rs A f structure w)) !! jj
      = Some (draws_mat rs A f (p + Z.to_nat cur) (Z.to_nat prev) (Z.to_nat cur)).
Proof.
  intros Hnn Hf Hok. split; [now apply init_Ret|].
  intros jj prev cur Hp Hc p.
  destruct (init_pure_at rs A f structure w jj prev cur Hp Hc) as (_ & Eb & _ & Ew & _).
  destruct Hok as (_ & _ & Hb & _ & Hw & _).
  assert (Hjj : (jj < length structure - 1)%nat)
    by (apply lookup_lt_Some in Hc; lia).
  destruct (lookup_lt_is_Some_2 (bias (w_net w)) jj) as [rb Hrb]; [lia|].
  destruct (lookup_lt_is_Some_2 (weights (w_net w)) jj) as [rw Hrw]; [lia|].
  rewrite Hrb in Eb. rewrite Hrw in Ew. now split.
Qed.

(** ** Calls that can only fail by an access out of bounds *)

Lemma benign_ret {A} (Q : A -> Prop) (x : A) : Q x -> benign Q (ret x).
Proof. intros H w. exact H. Qed.

Lemma benign_bind {A B} (Q : A -> Prop) (Q' : B -> Prop)
    (m : M world A) (k : A -> M world B) :
  benign Q m -> (forall x, Q x -> benign Q' (k x)) -> benign Q' (bind m k).
Proof.
  intros Hm Hk w. unfold bind. specialize (Hm w).
  destruct (m w) as [x w'|e w'|u]; [|contradiction|exact Hm].
  apply (Hk x Hm w').
Qed.

Lemma benign_weaken {A} (Q Q' : A -> Prop) (m : M world A) :
  (forall x, Q x -> Q' x) -> benign Q m -> benign Q' m.
Proof.
  intros HQ Hm w. specialize (Hm w). destruct (m w); auto.
Qed.

Lemma benign_foldM {I X} (body : I -> X -> M world X) (l : list I) (x : X) :
  (forall i y, benign (fun _ => True) (body i y)) ->
  benign (fun _ => True) (foldM body l x).
Proof.
  intros Hb. revert x. induction l as [|i l IH]; intros x; cbn [foldM].
  - now apply benign_ret.
  - eapply benign_bind; [apply Hb | intros y _; apply IH].
Qed.

Lemma benign_to_size (n : Z) : 0 <= n -> benign (fun _ => True) (to_size (S:=world) n).
Proof. intros H w. now rewrite to_size_nonneg. Qed.

Lemma benign_at_ {A} (v : list A) (i : Z) : benign (fun x => x ∈ v) (at_ v i).
Proof.
  intros w. unfold at_, index.
  destruct (i <? 0); [reflexivity|].
  destruct (v !! Z.to_nat i) as [x|] eqn:E; cbn; [|reflexivity].
  eapply list_elem_of_lookup_2, E.
Qed.

Lemma benign_store {A} (v : list A) (i : Z) (x : A) :
  benign (fun _ => True) (store v i x).
Proof. intros w. unfold store. now destruct (index v i). Qed.

Lemma benign_row_at (c : rows_of) (i : Z) : benign (fun _ => True) (row_at c i).
Proof.
  intros w. unfold row_at.
  pose proof (benign_at_ (get_rows c (w_net w)) i w) as H.
  destruct (at_ _ i w); auto.
Qed.

Lemma benign_mat_at (c : mats_of) (i : Z) : benign (fun _ => True) (mat_at c i).
Proof.
  intros w. unfold mat_at.
  pose proof (benign_at_ (get_mats c (w_net w)) i w) as H.
  destruct (at_ _ i w); auto.
Qed.

Lemma benign_update_row (c : rows_of) (i : Z) (f : vec -> vec) :
  benign (fun _ => True) (update_row c i f).
Proof. intros w. unfold update_row. now destruct (index _ i). Qed.

Lemma benign_update_mat (c : mats_of) (i : Z) (f : mat -> mat) :
  benign (fun _ => True) (update_mat c i f).
Proof. intros w. unfold update_mat. now destruct (index _ i). Qed.

Lemma benign_resize_row (c : rows_of) (i n : Z) :
  0 <= n -> benign (fun _ => True) (resize_row c i n).
Proof.
  intros Hn. unfold resize_row.
  eapply benign_bind; [apply benign_row_at | intros _ _].
  eapply benign_bind; [now apply benign_to_size | intros k _].
  apply benign_update_row.
Qed.

Lemma benign_resize_mat (c : mats_of) (i n m : Z) :
  0 <= n -> 0 <= m -> benign (fun _ => True) (resize_mat c i n m).
Proof.
  intros Hn Hm. unfold resize_mat.
  eapply benign_bind; [apply benign_mat_at | intros _ _].
  eapply benign_bind; [now apply benign_to_size | intros km _].
  eapply benign_bind; [now apply benign_to_size | intros kn _].
  apply benign_update_mat.
Qed.

Lemma benign_new_vec (n : Z) : 0 <= n -> benign (fun _ => True) (new_vec n).
Proof.
  intros Hn. unfold new_vec.
  eapply benign_bind; [now apply benign_to_size | intros k _].
  now apply benign_ret.
Qed.

Lemma benign_new_mat (n m : Z) :
  0 <= n -> 0 <= m -> benign (fun _ => True) (new_mat n m).
Proof.
  intros Hn Hm. unfold new_mat.
  eapply benign_bind; [now apply benign_to_size | intros km _].
  eapply benign_bind; [now apply benign_to_size | intros kn _].
  now apply benign_ret.
Qed.

Lemma benign_draw rand_seq randomAmplitude finesse :
  finesse <> 0 -> benign (fun _ => True) (draw rand_seq randomAmplitude finesse).
Proof. intros Hf w. now rewrite draw_Ret. Qed.

Lemma benign_fill_vec rand_seq randomAmplitude finesse (n : Z) (v : vec) :
  finesse <> 0 ->
  benign (fun _ => True) (fill_vec rand_seq randomAmplitude finesse n v).
Proof.
  intros Hf. unfold fill_vec. apply benign_foldM. intros ii t.
  eapply benign_bind; [now apply benign_draw | intros x _]. apply benign_store.
Qed.

Lemma benign_fill_mat rand_seq randomAmplitude finesse (n m : Z) (t : mat) :
  finesse <> 0 ->
  benign (fun _ => True) (fill_mat rand_seq randomAmplitude finesse n m t).
Proof.
  intros Hf. unfold fill_mat. apply benign_foldM. intros kk t1.
  apply benign_foldM. intros ii t2.
  eapply benign_bind; [now apply benign_draw | intros x _].
  eapply benign_bind; [apply benign_at_ | intros row _].
  eapply benign_bind; [apply benign_store | intros row' _].
  apply benign_store.
Qed.

Lemma benign_init_body rand_seq structure itInt jj cur randomAmplitude finesse :
  Forall (fun x => 0 <= x) structure -> 0 <= cur -> finesse <> 0 ->
  benign (fun _ => True)
         (init_body rand_seq structure itInt jj cur randomAmplitude finesse).
Proof.
  intros Hnn Hc Hf. unfold init_body.
  eapply benign_bind; [now apply benign_resize_row | intros _ _].
  destruct (jj >? -1); [|now apply benign_ret].
  eapply benign_bind; [now apply benign_resize_row | intros _ _].
  eapply benign_bind; [now apply benign_new_vec | intros t0 _].
  eapply benign_bind; [now apply benign_resize_row | intros _ _].
  eapply benign_bind; [now apply benign_resize_row | intros _ _].
  eapply benign_bind; [now apply benign_fill_vec | intros t1 _].
  eapply benign_bind; [apply benign_update_row | intros _ _].
  eapply benign_bind; [apply benign_at_ | intros prev Hprev].
  assert (Hp : 0 <= prev) by (rewrite Forall_forall in Hnn; now apply Hnn).
  eapply benign_bind; [now apply benign_new_mat | intros m0 _].
  eapply benign_bind; [now apply benign_resize_mat | intros _ _].
  eapply benign_bind; [now apply benign_resize_mat | intros _ _].
  eapply benign_bind; [now apply benign_fill_mat | intros m1 _].
  apply benign_update_mat.
Qed.

Lemma benign_init_loop rand_seq structure itInt jj todo randomAmplitude finesse :
  Forall (fun x => 0 <= x) structure -> Forall (fun x => 0 <= x) todo ->
  finesse <> 0 ->
  benign (fun _ => True)
         (init_loop rand_seq structure itInt jj todo randomAmplitude finesse).
Proof.
  intros Hnn Htodo Hf. revert itInt jj.
  induction todo as [|cur todo IH]; intros itInt jj; cbn [init_loop].
  - now apply benign_ret.
  - apply Forall_cons in Htodo as [Hc Htodo].
    eapply benign_bind; [now apply benign_init_body | intros _ _].
    now apply IH.
Qed.

(** With non-negative widths and a non-zero [finesse], [init] returns or
    runs out of bounds. *)
Lemma benign_init rand_seq structure randomAmplitude finesse :
  Forall (fun x => 0 <= x) structure -> finesse <> 0 ->
  benign (fun _ => True) (init rand_seq structure randomAmplitude finesse).
Proof. intros Hnn Hf. now apply benign_init_loop. Qed.

(** ** Further properties of [init] *)

(** X1. [init] indexes the rows that belong to the layers of the
    topology and no others: a row of [a] at a position from the number of
    layers on, and a row of the other containers at a position from the
    number of layers minus one on, is left exactly as it was. *)
Theorem init_surplus_rows
    (rand_seq : nat -> Z) (structure : list Z) (randomAmplitude : float32)
    (finesse : Z) (w : world) :
  Forall (fun x => 0 <= x) structure -> finesse <> 0 ->
  outer_ok structure (w_net w) ->
  exists w',
    init rand_seq structure randomAmplitude finesse w = Ret tt w' /\
    (forall i, (length structure <= i)%nat ->
       a (w_net w') !! i = a (w_net w) !! i) /\
    (forall i, (length structure - 1 <= i)%nat ->
       z (w_net w') !! i = z (w_net w) !! i /\
       bias (w_net w') !! i = bias (w_net w) !! i /\
       deltaBias (w_net w') !! i = deltaBias (w_net w) !! i /\
       weights (w_net w') !! i = weights (w_net w) !! i /\
       deltaWeights (w_net w') !! i = deltaWeights (w_net w) !! i).
Proof.
  intros Hnn Hf Hok. eexists. split; [now apply init_Ret|].
  split; intros i Hi;
    now apply (init_pure_beyond rand_seq randomAmplitude finesse structure w i).
Qed.

Lemma init_surplus_rows_witness :
  exists w',
    init example_rand [2; 3] F32.one 1000
      (mkWorld (mkNet [[]; [F32.five]] [[]; []; [F32.five]] [[]; [F32.five]]
                      [[]; [F32.five]] [[]; [[F32.five]]] [[]; [[F32.five]]]) 0)
      = Ret tt w' /\
    a (w_net w') !! 2%nat = Some [F32.five] /\
    bias (w_net w') !! 1%nat = Some [F32.five] /\
    weights (w_net w') !! 1%nat = Some [[F32.five]].
Proof.
  destruct (init_surplus_rows example_rand [2; 3] F32.one 1000
              (mkWorld (mkNet [[]; [F32.five]] [[]; []; [F32.five]] [[]; [F32.five]]
                              [[]; [F32.five]] [[]; [[F32.five]]] [[]; [[F32.five]]]) 0))
    as (w' & Hret & Ha & Hrest).
  - repeat constructor; lia.
  - lia.
  - unfold outer_ok. cbn. lia.
  - exists w'. split; [exact Hret|].
    split; [apply (Ha 2%nat); cbn; lia|].
    destruct (Hrest 1%nat) as (_ & Hb & _ & Hw & _); [cbn; lia|].
    split; [exact Hb | exact Hw].
Defined.

(** X2. [init] resizes the rows of [a] and [z] and never assigns to
    them: an entry that a row holds below the width of its layer is still
    there after [init], and only the entries that the resize adds are
    [+0.0f]. *)
Theorem init_keeps_a_z
    (rand_seq : nat -> Z) (structure : list Z) (randomAmplitude : float32)
    (finesse : Z) (w : world) :
  Forall (fun x => 0 <= x) structure -> finesse <> 0 ->
  outer_ok structure (w_net w) ->
  exists w',
    init rand_seq structure randomAmplitude finesse w = Ret tt w' /\
    (forall L wd r, structure !! L = Some wd -> a (w_net w) !! L = Some r ->
       exists r', a (w_net w') !! L = Some r' /\
         r' = resize (Z.to_nat wd) F32.zero r /\
         (forall i x, (i < Z.to_nat wd)%nat -> r !! i = Some x -> r' !! i = Some x) /\
         (forall i, (length r <= i < Z.to_nat wd)%nat -> r' !! i = Some F32.zero)) /\
    (forall jj cur r, structure !! S jj = Some cur -> z (w_net w) !! jj = Some r ->
       exists r', z (w_net w') !! jj = Some r' /\
         r' = resize (Z.to_nat cur) F32.zero r /\
         (forall i x, (i < Z.to_nat cur)%nat -> r !! i = Some x -> r' !! i = Some x) /\
         (forall i, (length r <= i < Z.to_nat cur)%nat -> r' !! i = Some F32.zero)).
Proof.
  intros Hnn Hf Hok. eexists. split; [now apply init_Ret|].
  assert (Hres : forall n (r : vec),
            (forall i x, (i < n)%nat -> r !! i = Some x ->
               resize n F32.zero r !! i = Some x) /\
            (forall i, (length r <= i < n)%nat -> resize n F32.zero r !! i = Some F32.zero)).
  { intros n r. split.
    - intros i x Hi Hx. pose proof (lookup_lt_Some _ _ _ Hx) as Hl.
      now rewrite lookup_resize by lia.
    - intros i Hi. apply lookup_resize_new; lia. }
  split.
  - intros L wd r HL Hr. eexists. split; [|split; [reflexivity | apply Hres]].
    now rewrite (init_pure_a _ _ _ _ _ _ _ HL), Hr.
  - intros jj cur r Hc Hr.
    destruct (lookup_lt_is_Some_2 structure jj) as [prev Hp].
    { apply lookup_lt_Some in Hc. lia. }
    destruct (init_pure_at rand_seq randomAmplitude finesse structure w jj prev cur Hp Hc)
      as (Ez & _).
    eexists. split; [|split; [reflexivity | apply Hres]].
    now rewrite Ez, Hr.
Qed.

Lemma init_keeps_a_z_witness :
  exists w',
    init example_rand [2; 3] F32.one 1000
      (mkWorld (mkNet [[F32.five]] [[F32.five; F32.five; F32.five]; [F32.five]]
                      [[]] [[]] [[]] [[]]) 0) = Ret tt w' /\
    a (w_net w') !! 0%nat = Some [F32.five; F32.five] /\
    a (w_net w') !! 1%nat = Some [F32.five; F32.zero; F32.zero] /\
    z (w_net w') !! 0%nat = Some [F32.five; F32.zero; F32.zero].
Proof.
  destruct (init_keeps_a_z example_rand [2; 3] F32.one 1000
              (mkWorld (mkNet [[F32.five]] [[F32.five; F32.five; F32.five]; [F32.five]]
                              [[]] [[]] [[]] [[]]) 0))
    as (w' & Hret & Ha & Hz).
  - repeat constructor; lia.
  - lia.
  - unfold outer_ok. cbn. lia.
  - exists w'. split; [exact Hret|].
    destruct (Ha 0%nat 2 _ eq_refl eq_refl) as (r0 & E0 & -> & _).
    destruct (Ha 1%nat 3 _ eq_refl eq_refl) as (r1 & E1 & -> & _).
    destruct (Hz 0%nat 3 _ eq_refl eq_refl) as (r2 & E2 & -> & _).
    split; [exact E0|]. split; [exact E1 | exact E2].
Defined.

(** X3. [init] assigns whole rows to [bias] and whole matrices to
    [weights]: what they held before the call has no influence. Two calls
    that start at the same position of the random sequence leave the same
    bias row and the same weight matrix for every layer, whatever the
    containers held. *)
Theorem init_overwrites_parameters
    (rand_seq : nat -> Z) (structure : list Z) (randomAmplitude : float32)
    (finesse : Z) (w1 w2 : world) :
  Forall (fun x => 0 <= x) structure -> finesse <> 0 ->
  outer_ok structure (w_net w1) -> outer_ok structure (w_net w2) ->
  w_rand w1 = w_rand w2 ->
  exists w1' w2',
    init rand_seq structure randomAmplitude finesse w1 = Ret tt w1' /\
    init rand_seq structure randomAmplitude finesse w2 = Ret tt w2' /\
    w_rand w1' = w_rand w2' /\
    forall jj, (jj < length structure - 1)%nat ->
      bias (w_net w1') !! jj = bias (w_net w2') !! jj /\
      weights (w_net w1') !! jj = weights (w_net w2') !! jj.
Proof.
  intros Hnn Hf Hok1 Hok2 Hr.
  destruct (init_parameters rand_seq structure randomAmplitude finesse w1 Hnn Hf Hok1)
    as [R1 P1].
  destruct (init_parameters rand_seq structure randomAmplitude finesse w2 Hnn Hf Hok2)
    as [R2 P2].
  eexists _, _. split; [exact R1|]. split; [exact R2|].
  split; [now rewrite !init_pure_rand, Hr|].
  intros jj Hjj.
  destruct (structure_layer_cases structure jj) as [(prev & cur & Hp & Hc)|H]; [|lia].
  destruct (P1 jj prev cur Hp Hc) as [-> ->].
  destruct (P2 jj prev cur Hp Hc) as [-> ->].
  now rewrite Hr.
Qed.

Lemma init_overwrites_parameters_witness :
  exists w1' w2',
    init example_rand [1; 2] F32.one 1000 (fresh_world 2) = Ret tt w1' /\
    init example_rand [1; 2] F32.one 1000
      (mkWorld (mkNet [[]] [[]; []] [[F32.five; F32.five; F32.five]] [[]]
                      [[[F32.five]; [F32.five]]] [[]]) 0) = Ret tt w2' /\
    bias (w_net w1') !! 0%nat = bias (w_net w2') !! 0%nat /\
    weights (w_net w1') !! 0%nat = weights (w_net w2') !! 0%nat.
Proof.
  destruct (init_overwrites_parameters example_rand [1; 2] F32.one 1000 (fresh_world 2)
              (mkWorld (mkNet [[]] [[]; []] [[F32.five; F32.five; F32.five]] [[]]
                              [[[F32.five]; [F32.five]]] [[]]) 0))
    as (w1' & w2' & R1 & R2 & _ & H).
  - repeat constructor; lia.
  - lia.
  - unfold outer_ok. cbn. lia.
  - unfold outer_ok. cbn. lia.
  - reflexivity.
  - exists w1', w2'. split; [exact R1|]. split; [exact R2|].
    apply (H 0%nat). cbn. lia.
Defined.

(** X4. Calling [init] a second time with the same topology redraws:
    [a], [z], [deltaBias] and [deltaWeights] stay as the first call left
    them, the second call consumes as many draws as the first, and the
    bias rows and weight matrices are replaced by the draws that follow
    those of the first call. *)
Theorem init_twice
    (rand_seq : nat -> Z) (structure : list Z) (randomAmplitude : float32)
    (finesse : Z) (w : world) :
  Forall (fun x => 0 <= x) structure -> finesse <> 0 ->
  outer_ok structure (w_net w) ->
  exists w1 w2,
    init rand_seq structure randomAmplitude finesse w = Ret tt w1 /\
    init rand_seq structure randomAmplitude finesse w1 = Ret tt w2 /\
    a (w_net w2) = a (w_net w1) /\ z (w_net w2) = z (w_net w1) /\
    deltaBias (w_net w2) = deltaBias (w_net w1) /\
    deltaWeights (w_net w2) = deltaWeights (w_net w1) /\
    let total := base structure (length structure) in
    w_rand w1 = (w_rand w + total)%nat /\
    w_rand w2 = (w_rand w + total + total)%nat /\
    forall jj prev cur,
      structure !! jj = Some prev -> structure !! S jj = Some cur ->
      let p := (w_rand w + total + base structure jj)%nat in
      bias (w_net w2) !! jj = Some (draws rand_seq randomAmplitude finesse p (Z.to_nat cur)) /\
      weights (w_net w2) !! jj
        = Some (draws_mat rand_seq randomAmplitude finesse (p + Z.to_nat cur)
                          (Z.to_nat prev) (Z.to_nat cur)).
Proof.
  intros Hnn Hf Hok.
  set (w1 := init_pure rand_seq randomAmplitude finesse structure w).
  assert (Hok1 : outer_ok structure (w_net w1)).
  { eapply outer_ok_same; [apply init_pure_outer | exact Hok]. }
  destruct (init_parameters rand_seq structure randomAmplitude finesse w1 Hnn Hf Hok1)
    as [R2 P2].
  exists w1, (init_pure rand_seq randomAmplitude finesse structure w1).
  split; [now apply init_Ret|]. split; [exact R2|].
  destruct (init_pure_again rand_seq randomAmplitude finesse
              rand_seq randomAmplitude finesse structure w) as (Ea & Ez & Edb & Edw).
  fold w1 in Ea, Ez, Edb, Edw.
  split; [exact Ea|]. split; [exact Ez|]. split; [exact Edb|]. split; [exact Edw|].
  cbn zeta.
  assert (Hr1 : w_rand w1 = (w_rand w + base structure (length structure))%nat)
    by apply init_pure_rand.
  split; [exact Hr1|]. split; [now rewrite init_pure_rand, Hr1|].
  intros jj prev cur Hp Hc. rewrite <- Hr1. now apply P2.
Qed.

Lemma init_twice_witness :
  exists w1 w2,
    init example_rand [1; 2] F32.one 1000 (fresh_world 2) = Ret tt w1 /\
    init example_rand [1; 2] F32.one 1000 w1 = Ret tt w2 /\
    a (w_net w2) = a (w_net w1) /\
    w_rand w1 = 4%nat /\ w_rand w2 = 8%nat /\
    bias (w_net w2) !! 0%nat = Some (draws example_rand F32.one 1000 4 2).
Proof.
  destruct (init_twice example_rand [1; 2] F32.one 1000 (fresh_world 2))
    as (w1 & w2 & R1 & R2 & Ha & _ & _ & _ & Hr1 & Hr2 & Hrows).
  - repeat constructor; lia.
  - lia.
  - unfold outer_ok. cbn. lia.
  - exists w1, w2. split; [exact R1|]. split; [exact R2|]. split; [exact Ha|].
    split; [exact Hr1|]. split; [exact Hr2|].
    apply (Hrows 0%nat 1 2 eq_refl eq_refl).
Defined.

(** X5. A negative [finesse] is accepted: the remainder [rand() %
    finesse] keeps the sign of the draw, so only the divisor changes
    sign, and [init] with [- finesse] leaves the negated biases and
    weights of [init] with [finesse]; [a], [z], [deltaBias],
    [deltaWeights] and the number of draws are the same. *)
Theorem init_negative_finesse
    (rand_seq : nat -> Z) (structure : list Z) (randomAmplitude : float32)
    (finesse : Z) (w : world) :
  Forall (fun x => 0 <= x) structure -> finesse <> 0 ->
  outer_ok structure (w_net w) ->
  exists wp wn,
    init rand_seq structure randomAmplitude finesse w = Ret tt wp /\
    init rand_seq structure randomAmplitude (- finesse) w = Ret tt wn /\
    a (w_net wn) = a (w_net wp) /\ z (w_net wn) = z (w_net wp) /\
    deltaBias (w_net wn) = deltaBias (w_net wp) /\
    deltaWeights (w_net wn) = deltaWeights (w_net wp) /\
    w_rand wn = w_rand wp /\
    forall jj, (jj < length structure - 1)%nat ->
      exists b m,
        bias (w_net wp) !! jj = Some b /\ weights (w_net wp) !! jj = Some m /\
        bias (w_net wn) !! jj = Some (SFopp <$> b) /\
        weights (w_net wn) !! jj = Some ((fun row : vec => SFopp <$> row) <$> m).
Proof.
  intros Hnn Hf Hok.
  destruct (init_parameters rand_seq structure randomAmplitude finesse w Hnn Hf Hok)
    as [Rp Pp].
  destruct (init_parameters rand_seq structure randomAmplitude (- finesse) w Hnn
              ltac:(lia) Hok) as [Rn Pn].
  eexists _, _. split; [exact Rp|]. split; [exact Rn|].
  destruct (init_pure_static rand_seq randomAmplitude (- finesse)
              rand_seq randomAmplitude finesse structure w) as (Ea & Ez & Edb & Edw & Er).
  split; [exact Ea|]. split; [exact Ez|]. split; [exact Edb|]. split; [exact Edw|].
  split; [exact Er|].
  intros jj Hjj.
  destruct (structure_layer_cases structure jj) as [(prev & cur & Hp & Hc)|H]; [|lia].
  destruct (Pp jj prev cur Hp Hc) as [Eb Ew].
  destruct (Pn jj prev cur Hp Hc) as [Eb' Ew'].
  eexists _, _. split; [exact Eb|]. split; [exact Ew|].
  rewrite draws_opp in Eb' by assumption.
  rewrite draws_mat_opp in Ew' by assumption.
  split; [exact Eb' | exact Ew'].
Qed.

Lemma init_negative_finesse_witness :
  exists wp wn,
    init example_rand [1; 2] F32.one 1000 (fresh_world 2) = Ret tt wp /\
    init example_rand [1; 2] F32.one (-1000) (fresh_world 2) = Ret tt wn /\
    exists b, bias (w_net wp) !! 0%nat = Some b /\
              bias (w_net wn) !! 0%nat = Some (SFopp <$> b).
Proof.
  destruct (init_negative_finesse example_rand [1; 2] F32.one 1000 (fresh_world 2))
    as (wp & wn & Rp & Rn & _ & _ & _ & _ & _ & H).
  - repeat constructor; lia.
  - lia.
  - unfold outer_ok. cbn. lia.
  - exists wp, wn. split; [exact Rp|]. split; [exact Rn|].
    destruct (H 0%nat) as (b & m & Hb & _ & Hb' & _); [cbn; lia|].
    exists b. split; [exact Hb | exact Hb'].
Defined.

(** X6. For every positive [int] [finesse], a positive finite amplitude
    and the non-negative values that [rand()] returns, no bias and no
    weight that [init] stores is negative or a NaN: [(float)finesse] is
    positive and finite for every positive [int]. *)
Theorem init_never_negative
    (rand_seq : nat -> Z) (structure : list Z) (randomAmplitude : float32)
    (finesse : Z) (w : world) :
  Forall (fun x => 0 <= x) structure ->
  0 < finesse < 2 ^ 31 ->
  F32.pos_finite randomAmplitude = true ->
  (forall i, 0 <= rand_seq i) ->
  outer_ok structure (w_net w) ->
  exists w',
    init rand_seq structure randomAmplitude finesse w = Ret tt w' /\
    forall jj, (jj < length structure - 1)%nat ->
      exists b m,
        bias (w_net w') !! jj = Some b /\ weights (w_net w') !! jj = Some m /\
        Forall (fun x => F32.sign_clear x = true) b /\
        Forall (Forall (fun x => F32.sign_clear x = true)) m.
Proof.
  intros Hnn Hf Ha Hr Hok.
  destruct (init_parameters rand_seq structure randomAmplitude finesse w Hnn
              ltac:(lia) Hok) as [R P].
  eexists. split; [exact R|]. intros jj Hjj.
  destruct (structure_layer_cases structure jj) as [(prev & cur & Hp & Hc)|H]; [|lia].
  destruct (P jj prev cur Hp Hc) as [Eb Ew].
  eexists _, _. split; [exact Eb|]. split; [exact Ew|].
  assert (Hv : forall i, F32.sign_clear (scaled randomAmplitude finesse
                                       (Z.rem (rand_seq i) finesse)) = true).
  { intros i. apply scaled_sign_clear; [assumption | now apply of_int_pos_finite|].
    apply Z.rem_nonneg; [lia | apply Hr]. }
  split; [now apply Forall_draws | now apply Forall_draws_mat].
Qed.

Lemma init_never_negative_witness :
  exists w' b,
    init example_rand [2; 3; 1] F32.five 2147483647 (fresh_world 3) = Ret tt w' /\
    bias (w_net w') !! 1%nat = Some b /\
    Forall (fun x => F32.sign_clear x = true) b.
Proof.
  destruct (init_never_negative example_rand [2; 3; 1] F32.five 2147483647 (fresh_world 3))
    as (w' & Hret & H).
  - repeat constructor; lia.
  - lia.
  - reflexivity.
  - intros i. unfold example_rand. apply Z.mod_pos_bound. lia.
  - unfold outer_ok. cbn. lia.
  - destruct (H 1%nat) as (b & m & Hb & _ & Hs & _); [cbn; lia|].
    exists w', b. split; [exact Hret|]. split; [exact Hb | exact Hs].
Defined.

(** X7. An amplitude of zero switches the randomness off: with a
    positive [int] [finesse] and the non-negative values that [rand()]
    returns, every bias and every weight that [init] stores is that zero,
    while the draws are still consumed. *)
Theorem init_zero_amplitude
    (rand_seq : nat -> Z) (structure : list Z) (s : bool)
    (finesse : Z) (w : world) :
  Forall (fun x => 0 <= x) structure ->
  0 < finesse < 2 ^ 31 ->
  (forall i, 0 <= rand_seq i) ->
  outer_ok structure (w_net w) ->
  exists w',
    init rand_seq structure (S754_zero s) finesse w = Ret tt w' /\
    w_rand w' = (w_rand w + base structure (length structure))%nat /\
    forall jj prev cur,
      structure !! jj = Some prev -> structure !! S jj = Some cur ->
      bias (w_net w') !! jj = Some (replicate (Z.to_nat cur) (S754_zero s)) /\
      weights (w_net w') !! jj
        = Some (replicate (Z.to_nat prev) (replicate (Z.to_nat cur) (S754_zero s))).
Proof.
  intros Hnn Hf Hr Hok.
  destruct (init_parameters rand_seq structure (S754_zero s) finesse w Hnn
              ltac:(lia) Hok) as [R P].
  eexists. split; [exact R|]. split; [apply init_pure_rand|].
  intros jj prev cur Hp Hc.
  destruct (P jj prev cur Hp Hc) as [Eb Ew].
  assert (Hv : forall i, scaled (S754_zero s) finesse (Z.rem (rand_seq i) finesse)
                         = S754_zero s).
  { intros i. apply scaled_zero_amplitude; [assumption|].
    pose proof (Z.rem_bound_pos (rand_seq i) finesse (Hr i) ltac:(lia)). lia. }
  rewrite (draws_const _ _ _ _ _ _ Hv) in Eb.
  rewrite (draws_mat_const _ _ _ _ _ _ _ Hv) in Ew.
  split; [exact Eb | exact Ew].
Qed.

Lemma init_zero_amplitude_witness :
  exists w',
    init example_rand [2; 3] F32.zero 1000 (fresh_world 2) = Ret tt w' /\
    w_rand w' = 9%nat /\
    bias (w_net w') !! 0%nat = Some [F32.zero; F32.zero; F32.zero] /\
    weights (w_net w') !! 0%nat
      = Some [[F32.zero; F32.zero; F32.zero]; [F32.zero; F32.zero; F32.zero]].
Proof.
  destruct (init_zero_amplitude example_rand [2; 3] false 1000 (fresh_world 2))
    as (w' & Hret & Hrand & H).
  - repeat constructor; lia.
  - lia.
  - intros i. unfold example_rand. apply Z.mod_pos_bound. lia.
  - unfold outer_ok. cbn. lia.
  - exists w'. split; [exact Hret|]. split; [exact Hrand|].
    apply (H 0%nat 2 3 eq_refl eq_refl).
Defined.

(** X8. With [finesse = 1] every remainder [rand() % 1] is zero: for a
    positive finite amplitude every bias and every weight that [init]
    stores is [+0.0f], whatever [rand()] returns. *)
Theorem init_finesse_one
    (rand_seq : nat -> Z) (structure : list Z) (randomAmplitude : float32)
    (w : world) :
  Forall (fun x => 0 <= x) structure ->
  F32.pos_finite randomAmplitude = true ->
  outer_ok structure (w_net w) ->
  exists w',
    init rand_seq structure randomAmplitude 1 w = Ret tt w' /\
    forall jj prev cur,
      structure !! jj = Some prev -> structure !! S jj = Some cur ->
      bias (w_net w') !! jj = Some (replicate (Z.to_nat cur) F32.zero) /\
      weights (w_net w') !! jj
        = Some (replicate (Z.to_nat prev) (replicate (Z.to_nat cur) F32.zero)).
Proof.
  intros Hnn Ha Hok.
  destruct (init_parameters rand_seq structure randomAmplitude 1 w Hnn
              ltac:(lia) Hok) as [R P].
  eexists. split; [exact R|].
  intros jj prev cur Hp Hc.
  destruct (P jj prev cur Hp Hc) as [Eb Ew].
  assert (Hv : forall i, scaled randomAmplitude 1 (Z.rem (rand_seq i) 1) = F32.zero).
  { intros i. rewrite Z.rem_1_r. apply scaled_zero_remainder; [assumption | lia]. }
  rewrite (draws_const _ _ _ _ _ _ Hv) in Eb.
  rewrite (draws_mat_const _ _ _ _ _ _ _ Hv) in Ew.
  split; [exact Eb | exact Ew].
Qed.

Lemma init_finesse_one_witness :
  exists w',
    init example_rand [2; 1] F32.five 1 (fresh_world 2) = Ret tt w' /\
    bias (w_net w') !! 0%nat = Some [F32.zero] /\
    weights (w_net w') !! 0%nat = Some [[F32.zero]; [F32.zero]].
Proof.
  destruct (init_finesse_one example_rand [2; 1] F32.five (fresh_world 2))
    as (w' & Hret & H).
  - repeat constructor; lia.
  - reflexivity.
  - unfold outer_ok. cbn. lia.
  - exists w'. split; [exact Hret|]. apply (H 0%nat 2 1 eq_refl eq_refl).
Defined.

(** X9. [init] expects the caller to have given the outer containers
    their rows. With non-negative widths and a non-zero [finesse], if
    [a] has fewer rows than the topology has layers, or one of the other
    containers fewer rows than there are layers but one, the call indexes
    a container out of bounds: undefined behaviour, not an exception. *)
Theorem init_short_containers
    (rand_seq : nat -> Z) (structure : list Z) (randomAmplitude : float32)
    (finesse : Z) (w : world) :
  Forall (fun x => 0 <= x) structure -> finesse <> 0 ->
  ~ outer_ok structure (w_net w) ->
  init rand_seq structure randomAmplitude finesse w = Undef OutOfBounds.
Proof.
  intros Hnn Hf Hshort.
  pose proof (benign_init rand_seq structure randomAmplitude finesse Hnn Hf w) as H.
  destruct (init rand_seq structure randomAmplitude finesse w) as [[] w'|e w'|u] eqn:E.
  - exfalso. apply Hshort. eapply init_Ret_inv, E.
  - contradiction.
  - now subst u.
Qed.

Lemma init_short_containers_witness :
  init example_rand [2; 3; 1] F32.one 1000
    (mkWorld (mkNet [] [] [] [] [] []) 0) = Undef OutOfBounds /\
  init example_rand [2; 3; 1] F32.one 1000 (fresh_world 2) = Undef OutOfBounds.
Proof.
  split; apply init_short_containers;
    try (repeat constructor; lia); try lia;
    unfold outer_ok; cbn; lia.
Defined.

(** X10. The NaNs of [init]. For a positive [int] [finesse] and the
    non-negative values that [rand()] returns, a bias or a weight that
    [init] stores is a NaN exactly when the amplitude is a NaN, or the
    amplitude is infinite and the remainder of the draw is zero (infinity
    times zero). *)
Theorem init_nan_entries
    (rand_seq : nat -> Z) (structure : list Z) (randomAmplitude : float32)
    (finesse : Z) (w : world) :
  Forall (fun x => 0 <= x) structure ->
  0 < finesse < 2 ^ 31 ->
  (forall i, 0 <= rand_seq i) ->
  outer_ok structure (w_net w) ->
  exists w',
    init rand_seq structure randomAmplitude finesse w = Ret tt w' /\
    forall jj prev cur,
      structure !! jj = Some prev -> structure !! S jj = Some cur ->
      let p := (w_rand w + base structure jj)%nat in
      let nan_at i :=
        randomAmplitude = S754_nan \/
        ((exists s, randomAmplitude = S754_infinity s) /\
         Z.rem (rand_seq i) finesse = 0) in
      exists b m,
        bias (w_net w') !! jj = Some b /\ weights (w_net w') !! jj = Some m /\
        (forall ii, (ii < Z.to_nat cur)%nat ->
           exists x, b !! ii = Some x /\ (x = S754_nan <-> nan_at (p + ii)%nat)) /\
        (forall kk ii, (kk < Z.to_nat prev)%nat -> (ii < Z.to_nat cur)%nat ->
           exists row x, m !! kk = Some row /\ row !! ii = Some x /\
             (x = S754_nan <->
              nan_at (p + Z.to_nat cur + kk * Z.to_nat cur + ii)%nat)).
Proof.
  intros Hnn Hf Hr Hok.
  destruct (init_parameters rand_seq structure randomAmplitude finesse w Hnn
              ltac:(lia) Hok) as [R P].
  eexists. split; [exact R|].
  intros jj prev cur Hp Hc p nan_at.
  destruct (P jj prev cur Hp Hc) as [Eb Ew]. fold p in Eb, Ew.
  assert (Hv : forall i, scaled randomAmplitude finesse (Z.rem (rand_seq i) finesse)
                         = S754_nan <-> nan_at i).
  { intros i. apply scaled_nan_iff; [assumption|].
    pose proof (Z.rem_bound_pos (rand_seq i) finesse (Hr i) ltac:(lia)). lia. }
  eexists _, _. split; [exact Eb|]. split; [exact Ew|]. split.
  - intros ii Hii. eexists. split; [now apply lookup_draws | apply Hv].
  - intros kk ii Hkk Hii. eexists _, _.
    split; [now apply lookup_draws_mat|].
    split; [now apply lookup_draws|].
    apply Hv.
Qed.

Lemma init_nan_entries_witness :
  exists w' b x y,
    init (fun i => Z.of_nat i * 500) [1; 2] (S754_infinity false) 1000 (fresh_world 2)
      = Ret tt w' /\
    bias (w_net w') !! 0%nat = Some b /\
    b !! 0%nat = Some x /\ x = S754_nan /\
    b !! 1%nat = Some y /\ y <> S754_nan.
Proof.
  destruct (init_nan_entries (fun i => Z.of_nat i * 500) [1; 2] (S754_infinity false)
              1000 (fresh_world 2)) as (w' & Hret & H).
  - repeat constructor; lia.
  - lia.
  - intros i. lia.
  - unfold outer_ok. cbn. lia.
  - destruct (H 0%nat 1 2 eq_refl eq_refl) as (b & m & Hb & _ & Hbias & _).
    destruct (Hbias 0%nat ltac:(cbn; lia)) as (x & Hx & Nx).
    destruct (Hbias 1%nat ltac:(cbn; lia)) as (y & Hy & Ny).
    exists w', b, x, y. split; [exact Hret|]. split; [exact Hb|].
    split; [exact Hx|]. split.
    + apply Nx. right. split; [now exists false | reflexivity].
    + split; [exact Hy|]. intros E. apply Ny in E as [E|[_ E]]; discriminate.
Defined.

(** X11. [init] is odd in the amplitude: negating [randomAmplitude]
    negates every bias and every weight that [init] stores, and changes
    nothing else. *)
Theorem init_negated_amplitude
    (rand_seq : nat -> Z) (structure : list Z) (randomAmplitude : float32)
    (finesse : Z) (w : world) :
  Forall (fun x => 0 <= x) structure -> finesse <> 0 ->
  outer_ok structure (w_net w) ->
  exists wp wn,
    init rand_seq structure randomAmplitude finesse w = Ret tt wp /\
    init rand_seq structure (SFopp randomAmplitude) finesse w = Ret tt wn /\
    a (w_net wn) = a (w_net wp) /\ z (w_net wn) = z (w_net wp) /\
    deltaBias (w_net wn) = deltaBias (w_net wp) /\
    deltaWeights (w_net wn) = deltaWeights (w_net wp) /\
    w_rand wn = w_rand wp /\
    forall jj, (jj < length structure - 1)%nat ->
      exists b m,
        bias (w_net wp) !! jj = Some b /\ weights (w_net wp) !! jj = Some m /\
        bias (w_net wn) !! jj = Some (SFopp <$> b) /\
        weights (w_net wn) !! jj = Some ((fun row : vec => SFopp <$> row) <$> m).
Proof.
  intros Hnn Hf Hok.
  destruct (init_parameters rand_seq structure randomAmplitude finesse w Hnn Hf Hok)
    as [Rp Pp].
  destruct (init_parameters rand_seq structure (SFopp randomAmplitude) finesse w Hnn
              Hf Hok) as [Rn Pn].
  eexists _, _. split; [exact Rp|]. split; [exact Rn|].
  destruct (init_pure_static rand_seq (SFopp randomAmplitude) finesse
              rand_seq randomAmplitude finesse structure w) as (Ea & Ez & Edb & Edw & Er).
  split; [exact Ea|]. split; [exact Ez|]. split; [exact Edb|]. split; [exact Edw|].
  split; [exact Er|].
  intros jj Hjj.
  destruct (structure_layer_cases structure jj) as [(prev & cur & Hp & Hc)|H]; [|lia].
  destruct (Pp jj prev cur Hp Hc) as [Eb Ew].
  destruct (Pn jj prev cur Hp Hc) as [Eb' Ew'].
  eexists _, _. split; [exact Eb|]. split; [exact Ew|].
  rewrite draws_opp_amplitude in Eb'. rewrite draws_mat_opp_amplitude in Ew'.
  split; [exact Eb' | exact Ew'].
Qed.

Lemma init_negated_amplitude_witness :
  exists wp wn,
    init example_rand [1; 2] F32.five 1000 (fresh_world 2) = Ret tt wp /\
    init example_rand [1; 2] (SFopp F32.five) 1000 (fresh_world 2) = Ret tt wn /\
    exists m, weights (w_net wp) !! 0%nat = Some m /\
              weights (w_net wn) !! 0%nat = Some ((fun row : vec => SFopp <$> row) <$> m).
Proof.
  destruct (init_negated_amplitude example_rand [1; 2] F32.five 1000 (fresh_world 2))
    as (wp & wn & Rp & Rn & _ & _ & _ & _ & _ & H).
  - repeat constructor; lia.
  - lia.
  - unfold outer_ok. cbn. lia.
  - exists wp, wn. split; [exact Rp|]. split; [exact Rn|].
    destruct (H 0%nat) as (b & m & _ & Hm & _ & Hm'); [cbn; lia|].
    exists m. split; [exact Hm | exact Hm'].
Defined.
